(** * superserial: the deserializer of [src/deserialize.ts]

    A shallow embedding of [deserialize] and of the functions nested in it,
    followed by the properties stated about them.

    Conventions of the embedding.
    - A JavaScript string is the list of its UTF-16 code units ([jsstring]).
    - The cursor [(buf, pos)] is kept as the unread suffix of [buf] together
      with the absolute position: [buf[pos]] is the head of the suffix
      ([undefined] once it is empty) and [pos++] drops it.
    - Loops that stop at the end of the buffer ([white], the digit and
      identifier loops, [consume]) recurse on the unread suffix.  The loops of
      [parseString] and [parseRegExp], the recursion of [parseJson] and the
      recursion of [resolveRef] have no such bound in the source and take
      fuel; [OutOfFuel] at every fuel is a run that never returns.
    - While parsing, every array, object, regular expression and reference
      function is created once and stored in one place, so a parsed statement
      is written as a tree ([pvalue]).  Sharing starts in [resolveRef]; there
      the trees live in a store and values are addresses into it.
    - An object is the ordered record of its own enumerable string-keyed
      properties, as its type [Record<string, any>] has it; the [__proto__]
      accessor of [Object.prototype] and enumerable properties of registered
      prototypes are outside the embedding. *)

From Stdlib Require Import ZArith NArith Lia List Bool Ascii String.
From Stdlib Require Import Floats.SpecFloat Permutation.
From stdpp Require Import base list.

Set Warnings "-register-all".
Local Open Scope N_scope.

(** ** Strings *)

Abbreviation jschar := N (only parsing).
Abbreviation jsstring := (list N) (only parsing).

Definition ch (a : ascii) : jschar := N_of_ascii a.
Definition js (s : string) : jsstring := map N_of_ascii (list_ascii_of_string s).

(** The double quote, written by its code. *)
Definition QUOTE : jschar := 34.

Fixpoint jsstring_eqb (a b : jsstring) : bool :=
  match a, b with
  | [], [] => true
  | x :: a', y :: b' => N.eqb x y && jsstring_eqb a' b'
  | _, _ => false
  end.

(** [const WS_CHARS = new Set(["\r", "\n", "\t", " "])] *)
Definition WS_CHARS (c : jschar) : bool :=
  N.eqb c 13 || N.eqb c 10 || N.eqb c 9 || N.eqb c 32.

(** [const NUM_CHARS = new Set(["0", ..., "9"])] *)
Definition NUM_CHARS (c : jschar) : bool := N.leb 48 c && N.leb c 57.

(** [STRING_ESC[c]] for a one-character key; [undefined] is [None]. *)
Definition STRING_ESC (o : option jschar) : option jschar :=
  match o with
  | None => None
  | Some c =>
      if N.eqb c QUOTE then Some QUOTE
      else if N.eqb c (ch "\") then Some (ch "\")
      else if N.eqb c (ch "b") then Some 8
      else if N.eqb c (ch "f") then Some 12
      else if N.eqb c (ch "n") then Some 10
      else if N.eqb c (ch "r") then Some 13
      else if N.eqb c (ch "t") then Some 9
      else None
  end.

(** [result += buf[pos]]: string concatenation turns [undefined] into the
    nine characters of its name. *)
Definition text (o : option jschar) : jsstring :=
  match o with
  | Some c => [c]
  | None => js "undefined"
  end.

(** [parseInt(buf[pos], 16)] on one character; [NaN] is [None]. *)
Definition parseInt16 (o : option jschar) : option N :=
  match o with
  | None => None
  | Some c =>
      if N.leb 48 c && N.leb c 57 then Some (c - 48)
      else if N.leb 97 c && N.leb c 102 then Some (c - 87)
      else if N.leb 65 c && N.leb c 70 then Some (c - 55)
      else None
  end.

(** [String.fromCharCode(n)] *)
Definition fromCharCode (n : N) : jsstring := [n mod 65536].

(** The longest prefix whose characters satisfy [p], and what follows it. *)
Fixpoint span (p : jschar -> bool) (l : jsstring) : jsstring * jsstring :=
  match l with
  | [] => ([], [])
  | c :: r => if p c then let '(a, b) := span p r in (c :: a, b) else ([], l)
  end.

(** ** Numbers *)

Definition prec : Z := 53.
Definition emax : Z := 1024.

Definition decimal (ds : jsstring) : N :=
  fold_left (fun acc c => acc * 10 + (c - 48)) ds 0.

(** The double nearest to [m * 10 ^ e10], ties to even. *)
Definition round_decimal (m : N) (e10 : Z) : spec_float :=
  match m with
  | N0 => S754_zero false
  | Npos p =>
      match e10 with
      | Zneg k => SFdiv prec emax (S754_finite false p 0)
                    (S754_finite false (Pos.pow 10 k) 0)
      | _ => binary_normalize prec emax (Zpos p * 10 ^ e10) 0 false
      end
  end.

(** [+result] (ToNumber on a string) for the texts the parser builds: the
    empty string, and digits with an optional fraction and exponent.  Any
    other text is [NaN]. *)
Definition ToNumber (s : jsstring) : spec_float :=
  match s with
  | [] => S754_zero false
  | _ =>
      let '(ip, r1) := span NUM_CHARS s in
      let '(fp, r2) :=
        match r1 with
        | c :: r => if N.eqb c (ch ".") then span NUM_CHARS r else ([], r1)
        | [] => ([], r1)
        end in
      let frac_ok :=
        match r1 with
        | c :: _ => negb (N.eqb c (ch ".")) || negb (length fp =? 0)%nat
        | [] => true
        end in
      let '(neg, ep, r3, exp_ok) :=
        match r2 with
        | c :: r =>
            if N.eqb c (ch "e") || N.eqb c (ch "E") then
              let '(neg, r') :=
                match r with
                | d :: r' =>
                    if N.eqb d (ch "-") then (true, r')
                    else if N.eqb d (ch "+") then (false, r')
                    else (false, r)
                | [] => (false, r)
                end in
              let '(ep, r3) := span NUM_CHARS r' in
              (neg, ep, r3, negb (length ep =? 0)%nat)
            else (false, [], r2, true)
        | [] => (false, [], r2, true)
        end in
      if negb (length ip =? 0)%nat && frac_ok && exp_ok
         && (length r3 =? 0)%nat then
        let e := Z.of_N (decimal ep) in
        round_decimal (decimal (ip ++ fp))
          ((if neg then - e else e) - Z.of_nat (length fp))%Z
      else S754_nan
  end.

(** The number [-1]. *)
Definition minus_one : spec_float := SFopp (SFone prec emax).

(** ** Parsed values *)

Abbreviation classId := N (only parsing).

Record regexp := RegExp {
  source : jsstring;
  ignoreCase : bool;
  multiline : bool;
  global : bool
}.

Inductive pvalue : Type :=
| PUndefined
| PNull
| PBool (b : bool)
| PNumber (x : spec_float)
| PBigInt (z : Z)
| PString (s : jsstring)
| PRegExp (r : regexp)
| PRef (index : spec_float)
| PArray (items : list pvalue)
| PObject (proto : option classId) (fields : list (jsstring * pvalue)).

(** ** Objects as ordered records

    Own property keys are enumerated with the array indices first, in
    ascending order, then the other keys in the order of their creation. *)

Definition array_index (k : jsstring) : option N :=
  match k with
  | [] => None
  | c :: r =>
      if forallb NUM_CHARS k
         && (negb (N.eqb c 48) || (length r =? 0)%nat)
         && (length k <=? 10)%nat
         && (decimal k <? 4294967295)
      then Some (decimal k) else None
  end.

Definition has_key {V} (k : jsstring) (fs : list (jsstring * V)) : bool :=
  existsb (fun kv => jsstring_eqb (fst kv) k) fs.

Fixpoint obj_replace {V} (k : jsstring) (v : V) (fs : list (jsstring * V)) :
    list (jsstring * V) :=
  match fs with
  | [] => []
  | (k', v') :: fs' =>
      if jsstring_eqb k' k then (k', v) :: fs'
      else (k', v') :: obj_replace k v fs'
  end.

Fixpoint obj_insert_index {V} (n : N) (k : jsstring) (v : V)
    (fs : list (jsstring * V)) : list (jsstring * V) :=
  match fs with
  | [] => [(k, v)]
  | (k', v') :: fs' =>
      match array_index k' with
      | Some n' =>
          if n' <? n then (k', v') :: obj_insert_index n k v fs'
          else (k, v) :: fs
      | None => (k, v) :: fs
      end
  end.

(** [result[k] = v] *)
Definition obj_set {V} (k : jsstring) (v : V) (fs : list (jsstring * V)) :
    list (jsstring * V) :=
  if has_key k fs then obj_replace k v fs
  else match array_index k with
       | Some n => obj_insert_index n k v fs
       | None => fs ++ [(k, v)]
       end.

(** [result[k]] *)
Fixpoint obj_get {V} (k : jsstring) (fs : list (jsstring * V)) : option V :=
  match fs with
  | [] => None
  | (k', v) :: fs' => if jsstring_eqb k' k then Some v else obj_get k fs'
  end.

(** ** Outcomes and the scanner *)

Inductive exn : Type :=
| SyntaxError (token : option jschar) (position : nat)
| RegExpError (pattern : jsstring).

Inductive outcome (A : Type) : Type :=
| Ok (a : A)
| Throw (e : exn)
| OutOfFuel.
Arguments Ok {A} a.
Arguments Throw {A} e.
Arguments OutOfFuel {A}.

Record state := State {
  rest : jsstring;
  pos : nat;
  warned : list jsstring
}.

Definition parser (A : Type) : Type := state -> outcome (A * state).

Definition ret {A} (a : A) : parser A := fun s => Ok (a, s).

Definition bind {A B} (m : parser A) (k : A -> parser B) : parser B :=
  fun s =>
    match m s with
    | Ok (a, s') => k a s'
    | Throw e => Throw e
    | OutOfFuel => OutOfFuel
    end.

Notation "'do' x <- m ; k" := (bind m (fun x => k))
  (at level 10, x name, m at level 100, k at level 200).

(** [buf[pos]] *)
Definition peek (s : state) : option jschar := head (rest s).

(** [buf[pos] === c] *)
Definition see (c : jschar) (s : state) : bool :=
  match peek s with
  | Some d => N.eqb d c
  | None => false
  end.

(** [pos++] *)
Definition advance (s : state) : state :=
  State (tail (rest s)) (S (pos s)) (warned s).

(** [throw error()] *)
Definition error {A} : parser A :=
  fun s => Throw (SyntaxError (peek s) (pos s)).

(** [while (p(buf[pos])) result += buf[pos++]] *)
Definition scan (p : jschar -> bool) (s : state) : jsstring * state :=
  let '(a, b) := span p (rest s) in (a, State b (length a + pos s) (warned s)).

Definition white (s : state) : state := snd (scan WS_CHARS s).

Fixpoint consume (char : jsstring) : parser unit :=
  fun s =>
    match char with
    | [] => Ok (tt, s)
    | c :: char' => if see c s then consume char' (advance s) else error s
    end.

(** ** The lexers and the value parser *)

Section Parser.

(** The pattern check of the engine's [RegExp] constructor. *)
Variable RegExp_valid : jsstring -> bool.

(** [options.classes ?? {}], as the lookup [mapClasses[name] ?? null]. *)
Variable mapClasses : jsstring -> option classId.

(** [new RegExp(pattern, flags)] for the flag texts of [parseRegExp]. *)
Definition new_RegExp (pattern flags : jsstring) : outcome regexp :=
  let has c := existsb (N.eqb c) flags in
  if RegExp_valid pattern
     && forallb (fun c => N.eqb c (ch "i") || N.eqb c (ch "m")
                          || N.eqb c (ch "g")) flags
     && (length flags <=? 3)%nat
     && (length flags =?
           (if has (ch "i") then 1 else 0) + (if has (ch "m") then 1 else 0)
           + (if has (ch "g") then 1 else 0))%nat
  then Ok (RegExp pattern (has (ch "i")) (has (ch "m")) (has (ch "g")))
  else Throw (RegExpError pattern).

Definition parseRef : parser pvalue :=
  fun s =>
    let '(result, s) := scan NUM_CHARS (advance s) in
    let index := ToNumber result in
    Ok (PRef index, s).

(** One digit is required, [throw error()] otherwise; then the digit loop. *)
Definition digits1 : parser jsstring :=
  fun s =>
    if match peek s with Some c => NUM_CHARS c | None => false end
    then Ok (scan NUM_CHARS s)
    else error s.

(** The optional fraction: [.] and one or more digits. *)
Definition fraction (result : jsstring) : parser jsstring :=
  fun s =>
    if see (ch ".") s then
      (do frac <- digits1; ret (result ++ [ch "."] ++ frac)) (advance s)
    else Ok (result, s).

(** The optional exponent: [e] or [E], an optional sign, one or more digits. *)
Definition exponent (result : jsstring) : parser jsstring :=
  fun s =>
    match peek s with
    | Some e =>
        if N.eqb e (ch "e") || N.eqb e (ch "E") then
          let s := advance s in
          let '(sign, s) :=
            match peek s with
            | Some c =>
                if N.eqb c (ch "-") || N.eqb c (ch "+")
                then ([c], advance s) else ([], s)
            | None => ([], s)
            end in
          (do ds <- digits1; ret (result ++ [e] ++ sign ++ ds)) s
        else Ok (result, s)
    | None => Ok (result, s)
    end.

(** The digits of a number and what follows them, once the sign is read. *)
Definition magnitude (isNeg : bool) : parser pvalue :=
  do result <- digits1;
  fun s =>
    if see (ch "n") s then
      let z := Z.of_N (decimal result) in
      Ok (PBigInt (if isNeg then - z else z)%Z, advance s)
    else
      (do result <- fraction result;
       do result <- exponent result;
       ret (PNumber (if isNeg
                     then SFmul prec emax minus_one (ToNumber result)
                     else ToNumber result))) s.

Definition parseNumber : parser pvalue :=
  fun s =>
    let isNeg := see (ch "-") s in
    let s := if isNeg then advance s else s in
    if see (ch "I") s then
      (do _ <- consume (js "nfinity");
       ret (PNumber (S754_infinity isNeg))) (advance s)
    else magnitude isNeg s.

(** The [for] loop over the four hexadecimal digits of an escape. *)
Fixpoint hex4 (i : nat) (uffff : N) : parser N :=
  fun s =>
    match i with
    | O => Ok (uffff, s)
    | S i' =>
        match parseInt16 (peek s) with
        | None => error s
        | Some hex => hex4 i' (uffff * 16 + hex) (advance s)
        end
    end.

Fixpoint parseString_loop (fuel : nat) (result : jsstring) : parser jsstring :=
  fun s =>
    match fuel with
    | O => OutOfFuel
    | S fuel' =>
        if see QUOTE s then Ok (result, advance s)
        else if see (ch "\") s then
          let s := advance s in
          if see (ch "u") s then
            (do uffff <- hex4 4 0;
             parseString_loop fuel' (result ++ fromCharCode uffff)) (advance s)
          else
            match STRING_ESC (peek s) with
            | Some e => parseString_loop fuel' (result ++ [e]) (advance s)
            | None => error s
            end
        else parseString_loop fuel' (result ++ text (peek s)) (advance s)
    end.

(** The first character is stepped over unread. *)
Definition parseString (fuel : nat) : parser jsstring :=
  fun s => parseString_loop fuel [] (advance s).

(** The nested [switch] after the closing [/]: the flag text handed to
    [new RegExp], and the cursor behind the flags. *)
Definition regexp_flags (s : state) : jsstring * state :=
  if see (ch "i") s then
    let s := advance s in
    if see (ch "m") s then
      let s := advance s in
      if see (ch "g") s then (js "img", advance s) else (js "im", s)
    else if see (ch "g") s then
      let s := advance s in
      if see (ch "m") s then (js "igm", advance s) else (js "ig", s)
    else (js "i", s)
  else if see (ch "m") s then
    let s := advance s in
    if see (ch "i") s then
      let s := advance s in
      if see (ch "g") s then (js "mig", advance s) else (js "mi", s)
    else if see (ch "g") s then
      let s := advance s in
      if see (ch "i") s then (js "mgi", advance s) else (js "mg", s)
    else (js "m", s)
  else if see (ch "g") s then
    let s := advance s in
    if see (ch "m") s then
      let s := advance s in
      if see (ch "i") s then (js "gmi", advance s) else (js "gm", s)
    else if see (ch "i") s then
      let s := advance s in
      if see (ch "m") s then (js "gim", advance s) else (js "gi", s)
    else (js "g", s)
  else ([], s).

Fixpoint parseRegExp_loop (fuel : nat) (result : jsstring) : parser pvalue :=
  fun s =>
    match fuel with
    | O => OutOfFuel
    | S fuel' =>
        if see (ch "/") s then
          let '(flags, s) := regexp_flags (advance s) in
          match new_RegExp result flags with
          | Ok r => Ok (PRegExp r, s)
          | Throw e => Throw e
          | OutOfFuel => OutOfFuel
          end
        else if see (ch "\") s then
          let result := result ++ text (peek s) in
          let s := advance s in
          parseRegExp_loop fuel' (result ++ text (peek s)) (advance s)
        else parseRegExp_loop fuel' (result ++ text (peek s)) (advance s)
    end.

Definition parseRegExp (fuel : nat) : parser pvalue :=
  fun s =>
    let s := advance s in
    if see (ch "/") s then error s else parseRegExp_loop fuel [] s.

Definition is_letter (c : jschar) : bool :=
  N.leb 65 c && N.leb c 90 || N.leb 97 c && N.leb c 122.

Definition is_name_char (c : jschar) : bool :=
  N.leb 65 c && N.leb c 90 || N.leb 97 c && N.leb c 122
  || N.leb 48 c && N.leb c 57 || N.eqb c 95.

Definition parseName (s : state) : jsstring * state :=
  match peek s with
  | Some c =>
      if is_letter c then
        let '(result, s) := scan is_name_char (advance s) in (c :: result, s)
      else ([], s)
  | None => ([], s)
  end.

(** The inner [switch (name)] of [parseJson]. *)
Definition keyword (name : jsstring) : option pvalue :=
  if jsstring_eqb name (js "NaN") then Some (PNumber S754_nan)
  else if jsstring_eqb name (js "Infinity") then Some (PNumber (S754_infinity false))
  else if jsstring_eqb name (js "undefined") then Some PUndefined
  else if jsstring_eqb name (js "null") then Some PNull
  else if jsstring_eqb name (js "true") then Some (PBool true)
  else if jsstring_eqb name (js "false") then Some (PBool false)
  else None.

(** [console.warn(...)] *)
Definition warn (name : jsstring) (s : state) : state :=
  State (rest s) (pos s) (warned s ++ [name]).

Section Productions.

(** The recursive call of [parseJson], one level down, and the bound on
    the loops of this level. *)
Variable parseJson : parser pvalue.
Variable fuel : nat.

Fixpoint parseArray_loop (n : nat) (result : list pvalue) : parser pvalue :=
  fun s =>
    match n with
    | O => OutOfFuel
    | S n' =>
        if see (ch ",") s then
          (do v <- parseJson;
           fun s => parseArray_loop n' (result ++ [v]) (white s)) (advance s)
        else if see (ch "]") s then Ok (PArray result, advance s)
        else error s
    end.

Definition parseArray : parser pvalue :=
  fun s =>
    let s := white (advance s) in
    if see (ch "]") s then Ok (PArray [], advance s)
    else
      (do v <- parseJson;
       fun s => parseArray_loop fuel [v] (white s)) s.

Fixpoint parseObject_loop (n : nat) (result : list (jsstring * pvalue)) :
    parser (list (jsstring * pvalue)) :=
  fun s =>
    match n with
    | O => OutOfFuel
    | S n' =>
        (do key <- parseString fuel;
         fun s =>
           let s := white s in
           if negb (see (ch ":") s) then error s
           else
             (do v <- parseJson;
              fun s =>
                let result := obj_set key v result in
                let s := white s in
                if see (ch ",") s then
                  parseObject_loop n' result (white (advance s))
                else if see (ch "}") s then Ok (result, advance s)
                else error s) (advance s)) s
    end.

Definition parseObject : parser (list (jsstring * pvalue)) :=
  fun s =>
    let s := white (advance s) in
    if see (ch "}") s then Ok ([], advance s)
    else parseObject_loop fuel [] s.

End Productions.

Fixpoint parseJson (fuel : nat) : parser pvalue :=
  fun s =>
    match fuel with
    | O => OutOfFuel
    | S n =>
        let s := white s in
        if see (ch "$") s then parseRef s
        else if see (ch "{") s then
          (do obj <- parseObject (parseJson n) n; ret (PObject None obj)) s
        else if see (ch "[") s then parseArray (parseJson n) n s
        else if see (ch "/") s then parseRegExp n s
        else if see QUOTE s then
          (do str <- parseString n; ret (PString str)) s
        else if see (ch "-") s
                || match peek s with Some c => NUM_CHARS c | None => false end
        then parseNumber s
        else
          let '(name, s) := parseName s in
          match keyword name with
          | Some v => Ok (v, s)
          | None =>
              if see (ch "{") s then
                (do obj <- parseObject (parseJson n) n;
                 fun s =>
                   let baseClass := mapClasses name in
                   let s :=
                     match name, baseClass with
                     | _ :: _, None => warn name s
                     | _, _ => s
                     end in
                   Ok (PObject baseClass obj, s)) s
              else error s
          end
    end.

(** The statement loop of [deserialize]: [refs] once the loop is left. *)
Fixpoint statements_loop (fuel n : nat) (refs : list pvalue) :
    parser (list pvalue) :=
  fun s =>
    match n with
    | O => OutOfFuel
    | S n' =>
        if see (ch ";") s then
          (do _ <- consume [ch ";"];
           do v <- parseJson fuel;
           fun s => statements_loop fuel n' (refs ++ [v]) (white s)) s
        else Ok (refs, s)
    end.

Definition statements (fuel : nat) : parser (list pvalue) :=
  do v <- parseJson fuel;
  fun s => statements_loop fuel fuel [v] (white s).

End Parser.

(** ** The store and [resolveRef] *)

Abbreviation loc := nat (only parsing).

Inductive value : Type :=
| VUndefined
| VNull
| VBool (b : bool)
| VNumber (x : spec_float)
| VBigInt (z : Z)
| VString (s : jsstring)
| VObj (l : loc).

(** What an address holds.  [CRef index] is the function built by
    [parseRef]: calling it yields [refs[index]], and its [ref] property is
    [refSymbol]. *)
Inductive cell : Type :=
| CRef (index : spec_float)
| CRegExp (r : regexp)
| CArray (elems : list value)
| CObject (proto : option classId) (fields : list (jsstring * value)).

Abbreviation store := (list cell) (only parsing).

(** Placing parsed trees in the store one after the other. *)
Definition load_each {A B : Type} (f : A -> store -> B * store) :
    list A -> store -> list B * store :=
  fix go (ts : list A) (h : store) : list B * store :=
    match ts with
    | [] => ([], h)
    | t :: ts' =>
        let '(v, h1) := f t h in
        let '(vs, h2) := go ts' h1 in (v :: vs, h2)
    end.

(** Placing a parsed tree in the store, parts before the whole. *)
Fixpoint load (t : pvalue) (h : store) : value * store :=
  match t with
  | PUndefined => (VUndefined, h)
  | PNull => (VNull, h)
  | PBool b => (VBool b, h)
  | PNumber x => (VNumber x, h)
  | PBigInt z => (VBigInt z, h)
  | PString s => (VString s, h)
  | PRegExp r => (VObj (length h), h ++ [CRegExp r])
  | PRef index => (VObj (length h), h ++ [CRef index])
  | PArray items =>
      let '(vs, h1) := load_each load items h in
      (VObj (length h1), h1 ++ [CArray vs])
  | PObject proto fields =>
      let '(fs, h1) :=
        load_each (fun kt h => let '(v, h1) := load (snd kt) h in
                               ((fst kt, v), h1)) fields h in
      (VObj (length h1), h1 ++ [CObject proto fs])
  end.

Definition load_all (ts : list pvalue) (h : store) : list value * store :=
  load_each load ts h.

(** The integer a number denotes, when it is one and is not negative. *)
Definition index_of (x : spec_float) : option N :=
  match x with
  | S754_zero _ => Some 0
  | S754_finite false m (Zneg k) =>
      if Npos m mod Npos (Pos.pow 2 k) =? 0
      then Some (Npos m / Npos (Pos.pow 2 k)) else None
  | S754_finite false m e => Some (Npos m * 2 ^ Z.to_N e)
  | _ => None
  end.

(** [refs[index]] *)
Definition refs_at (refs : list value) (index : spec_float) : value :=
  match index_of index with
  | Some n =>
      if n <? N.of_nat (length refs) then nth (N.to_nat n) refs VUndefined
      else VUndefined
  | None => VUndefined
  end.

(** A property key of a walked container: an array index or a field name. *)
Inductive key : Type :=
| KIndex (i : nat)
| KName (k : jsstring).

(** [value[key]] *)
Definition read (h : store) (l : loc) (k : key) : value :=
  match h !! l, k with
  | Some (CArray es), KIndex i => default VUndefined (es !! i)
  | Some (CObject _ fs), KName n => default VUndefined (obj_get n fs)
  | _, _ => VUndefined
  end.

(** [value[key] = v], for a key the container has. *)
Definition write (h : store) (l : loc) (k : key) (v : value) : store :=
  match h !! l, k with
  | Some (CArray es), KIndex i => <[l := CArray (<[i := v]> es)]> h
  | Some (CObject p fs), KName n => <[l := CObject p (obj_set n v fs)]> h
  | _, _ => h
  end.

(** The keys of [for (const key in value)]. *)
Definition own_keys (c : cell) : list key :=
  match c with
  | CArray es => map KIndex (seq 0 (length es))
  | CObject _ fs => map (fun kv => KName (fst kv)) fs
  | _ => []
  end.

Section Resolve.

Variable refs : list value.

(** [value[k] = resolveRef(value[k])] for each key in turn. *)
Fixpoint walk (resolve : value -> store -> outcome (value * store))
    (l : loc) (ks : list key) (h : store) : outcome store :=
  match ks with
  | [] => Ok h
  | k :: ks' =>
      match resolve (read h l k) h with
      | Ok (v, h') => walk resolve l ks' (write h' l k v)
      | Throw e => Throw e
      | OutOfFuel => OutOfFuel
      end
  end.

Fixpoint resolveRef (fuel : nat) (v : value) (h : store) :
    outcome (value * store) :=
  match fuel with
  | O => OutOfFuel
  | S n =>
      match v with
      | VObj l =>
          match h !! l with
          | Some (CRef index) => Ok (refs_at refs index, h)
          | Some (CArray es) =>
              match walk (resolveRef n) l (map KIndex (seq 0 (length es))) h with
              | Ok h1 =>
                  match walk (resolveRef n) l
                          (match h1 !! l with
                           | Some c => own_keys c
                           | None => []
                           end) h1 with
                  | Ok h2 => Ok (v, h2)
                  | Throw e => Throw e
                  | OutOfFuel => OutOfFuel
                  end
              | Throw e => Throw e
              | OutOfFuel => OutOfFuel
              end
          | Some (CObject proto fs) =>
              match walk (resolveRef n) l (own_keys (CObject proto fs)) h with
              | Ok h1 => Ok (v, h1)
              | Throw e => Throw e
              | OutOfFuel => OutOfFuel
              end
          | _ => Ok (v, h)
          end
      | _ => Ok (v, h)
      end
  end.

End Resolve.

(** ** [deserialize] *)

Record DeserializeOptions := Options {
  classes : option (jsstring -> option classId)
}.

(** What a call leaves behind: the returned value, the store it points
    into, and the names [console.warn] was called with. *)
Record answer := Answer {
  returned : value;
  heap : store;
  warnings : list jsstring
}.

(** [options.classes ?? {}] *)
Definition registry (options : DeserializeOptions) : jsstring -> option classId :=
  match classes options with
  | Some m => m
  | None => fun _ => None
  end.

Definition deserialize (RegExp_valid : jsstring -> bool) (fuel : nat)
    (code : jsstring) (options : DeserializeOptions) : outcome answer :=
  let mapClasses := registry options in
  match statements RegExp_valid mapClasses fuel (State code 0 []) with
  | Ok (trees, s) =>
      if negb (length code =? pos s)%nat then
        Throw (SyntaxError (peek s) (pos s))
      else
        let '(refs, h) := load_all trees [] in
        match resolveRef refs fuel (hd VUndefined refs) h with
        | Ok (v, h') => Ok (Answer v h' (warned s))
        | Throw e => Throw e
        | OutOfFuel => OutOfFuel
        end
  | Throw e => Throw e
  | OutOfFuel => OutOfFuel
  end.

(** ** Vocabulary of the statements *)

(** A text between double quotes. *)
Definition quoted (s : jsstring) : jsstring := QUOTE :: s ++ [QUOTE].

(** The optional leading minus of a number. *)
Definition sign_text (neg : bool) : jsstring := if neg then [ch "-"] else [].

(** A character that is neither the double quote nor the backslash. *)
Definition plain (c : N) : bool :=
  negb (N.eqb c QUOTE) && negb (N.eqb c (ch "\")).

(** The text between the slashes of a regular expression literal: any
    characters, where a backslash takes the next character with it and no
    other slash occurs. *)
Fixpoint pattern_body (l : jsstring) : bool :=
  match l with
  | [] => true
  | c :: r =>
      if N.eqb c (ch "/") then false
      else if N.eqb c (ch "\") then
        match r with
        | [] => false
        | _ :: r' => pattern_body r'
        end
      else pattern_body r
  end.

Definition has_flag (c : N) (fl : jsstring) : bool := existsb (N.eqb c) fl.

Definition regexp_literal (body fl : jsstring) : jsstring :=
  ch "/" :: body ++ ch "/" :: fl.

(** The orders in which flags can follow the closing slash: every list of
    distinct characters among [i], [m] and [g]. *)
Definition flag_order (fl : jsstring) : Prop :=
  NoDup fl /\ Forall (fun c => c = ch "i" \/ c = ch "m" \/ c = ch "g") fl.

Definition flag_orders : list jsstring :=
  [ []; js "i"; js "m"; js "g";
    js "im"; js "mi"; js "ig"; js "gi"; js "mg"; js "gm";
    js "img"; js "igm"; js "mig"; js "mgi"; js "gim"; js "gmi" ].

(** The top-level loop in the words of its description: while the next
    character is [;], step over it, parse another value and append it to the
    table; [collects refs s refs' s'] is a run of the loop from table [refs]
    and cursor [s] to table [refs'] and cursor [s']. *)
Inductive collects (V : jsstring -> bool) (M : jsstring -> option classId)
    (fuel : nat) : list pvalue -> state -> list pvalue -> state -> Prop :=
| collects_done refs s :
    see (ch ";") s = false ->
    collects V M fuel refs s refs s
| collects_next refs s v s1 refs' s' :
    see (ch ";") s = true ->
    parseJson V M fuel (advance s) = Ok (v, s1) ->
    collects V M fuel (refs ++ [v]) (white s1) refs' s' ->
    collects V M fuel refs s refs' s'.


(** The value of the first statement once the table is in the store. *)
Definition first_loaded (trees : list pvalue) : value :=
  hd VUndefined (fst (load_all trees [])).

(** *** Placeholders and what a value reaches *)

(** A deferred reference: the address of a function built by [parseRef]. *)
Definition placeholder (h : store) (v : value) : Prop :=
  exists l index, v = VObj l /\ h !! l = Some (CRef index).

(** [reachable h v w]: [w] is [v], or an array element or object field of
    [v], or of one of those, and so on. *)
Inductive reachable (h : store) : value -> value -> Prop :=
| reach_here v : reachable h v v
| reach_into l c k w :
    h !! l = Some c ->
    k ∈ own_keys c ->
    reachable h (read h l k) w ->
    reachable h (VObj l) w.



(** No [$n] anywhere in a parsed statement. *)
Fixpoint ref_free (t : pvalue) : bool :=
  match t with
  | PRef _ => false
  | PArray items => forallb ref_free items
  | PObject _ fields => forallb (fun kt => ref_free (snd kt)) fields
  | _ => true
  end.


(** *** How the store changes under [resolveRef] *)

(** A slot keeps its value, or a placeholder in it gives way to the table
    entry it stands for. *)
Definition slot_evolves (refs : list value) (h : store) (x y : value) : Prop :=
  y = x \/ exists l i, x = VObj l /\ h !! l = Some (CRef i) /\ y = refs_at refs i.

Definition cell_evolves (refs : list value) (h : store) (c c' : cell) : Prop :=
  match c, c' with
  | CRef i, CRef j => i = j
  | CRegExp r, CRegExp r' => r = r'
  | CArray es, CArray es' => Forall2 (slot_evolves refs h) es es'
  | CObject p fs, CObject p' fs' =>
      p = p' /\ Forall2 (fun a b => fst a = fst b
                                    /\ slot_evolves refs h (snd a) (snd b)) fs fs'
  | _, _ => False
  end.

Definition evolves (refs : list value) (h h' : store) : Prop :=
  Forall2 (cell_evolves refs h) h h'.

(** No entry of the table is itself a placeholder. *)
Definition table_ok (refs : list value) (h : store) : Prop :=
  forall i, ~ placeholder h (refs_at refs i).

(** No slot of the container at [l] holds a placeholder. *)
Definition clean (h : store) (l : loc) : Prop :=
  forall c k, h !! l = Some c -> k ∈ own_keys c -> ~ placeholder h (read h l k).

(** What [resolveRef] returns for [v]: [v] itself, or the table entry when
    [v] is a placeholder. *)
Definition resolves_to (refs : list value) (h : store) (v v' : value) : Prop :=
  (v' = v /\ ~ placeholder h v)
  \/ exists l i, v = VObj l /\ h !! l = Some (CRef i) /\ v' = refs_at refs i.

(** What one call of [resolveRef] guarantees. *)
Definition visits (refs : list value)
    (resolve : value -> store -> outcome (value * store)) : Prop :=
  forall v h v' h',
    table_ok refs h ->
    resolve v h = Ok (v', h') ->
    evolves refs h h'
    /\ resolves_to refs h v v'
    /\ forall l, reachable h v (VObj l) -> clean h' l.

(** *** Where [load] puts things *)

Definition value_in (lo hi : nat) (v : value) : Prop :=
  match v with
  | VObj l => (lo <= l < hi)%nat
  | _ => True
  end.

Definition cell_values (c : cell) : list value :=
  match c with
  | CArray es => es
  | CObject _ fs => map snd fs
  | _ => []
  end.

(** A cell that is no placeholder and whose slots point into [lo, hi). *)
Definition solid (lo hi : nat) (c : cell) : Prop :=
  (forall i, c <> CRef i) /\ Forall (value_in lo hi) (cell_values c).

(** What placing one tree (or one field) in the store guarantees. *)
Definition loads {A B : Type} (f : A -> store -> B * store) (val : B -> value)
    (ok : A -> bool) (t : A) : Prop :=
  forall h b h1,
    f t h = (b, h1) ->
    exists new,
      h1 = h ++ new
      /\ value_in (length h) (length h1) (val b)
      /\ (ok t = true -> Forall (solid (length h) (length h1)) new).


(** *** Documents as they are written

    The tokens of the wire format and the places between them where
    whitespace can stand.  A gap is a run of whitespace characters; an atom
    is a token that stands for a value by itself. *)

Definition gap (g : jsstring) : bool := forallb WS_CHARS g.

Definition is_hex (c : N) : bool :=
  match parseInt16 (Some c) with
  | Some _ => true
  | None => false
  end.

(** The text between the quotes of a string literal: no bare quote, and
    after a backslash either [u] and four hexadecimal digits or one of the
    characters of [STRING_ESC]. *)
Fixpoint string_body (l : jsstring) : bool :=
  match l with
  | [] => true
  | c :: r =>
      if N.eqb c QUOTE then false
      else if N.eqb c (ch "\") then
        match r with
        | [] => false
        | e :: r' =>
            if N.eqb e (ch "u") then
              match r' with
              | h1 :: h2 :: h3 :: h4 :: r'' =>
                  is_hex h1 && is_hex h2 && is_hex h3 && is_hex h4
                  && string_body r''
              | _ => false
              end
            else
              match STRING_ESC (Some e) with
              | Some _ => string_body r'
              | None => false
              end
        end
      else string_body r
  end.

Definition digits (ds : jsstring) : bool :=
  negb (length ds =? 0)%nat && forallb NUM_CHARS ds.

(** The part of a number after its integer digits. *)
Inductive number_tail : Type :=
| TBigInt
| TFloat (frac : option jsstring) (exponent : option (N * jsstring * jsstring)).

Inductive atom : Type :=
| ARef (index : jsstring)
| AKeyword (name : jsstring)
| ANegInfinity
| ANumber (neg : bool) (int : jsstring) (tl : number_tail)
| AString (body : jsstring)
| ARegExp (body flags : jsstring).

Definition tail_text (tl : number_tail) : jsstring :=
  match tl with
  | TBigInt => [ch "n"]
  | TFloat frac exponent =>
      match frac with
      | Some fp => ch "." :: fp
      | None => []
      end
      ++ match exponent with
         | Some (e, sign, ds) => e :: sign ++ ds
         | None => []
         end
  end.

Definition atom_text (a : atom) : jsstring :=
  match a with
  | ARef index => ch "$" :: index
  | AKeyword name => name
  | ANegInfinity => js "-Infinity"
  | ANumber neg int tl => sign_text neg ++ int ++ tail_text tl
  | AString body => quoted body
  | ARegExp body flags => regexp_literal body flags
  end.

Definition tail_ok (tl : number_tail) : bool :=
  match tl with
  | TBigInt => true
  | TFloat frac exponent =>
      match frac with
      | Some fp => digits fp
      | None => true
      end
      && match exponent with
         | Some (e, sign, ds) =>
             (N.eqb e (ch "e") || N.eqb e (ch "E"))
             && (match sign with
                 | [] => true
                 | [c] => N.eqb c (ch "-") || N.eqb c (ch "+")
                 | _ => false
                 end)
             && digits ds
         | None => true
         end
  end.

Definition atom_ok (a : atom) : bool :=
  match a with
  | ARef index => forallb NUM_CHARS index
  | AKeyword name =>
      match keyword name with
      | Some _ => true
      | None => false
      end
  | ANegInfinity => true
  | ANumber _ int tl => digits int && tail_ok tl
  | AString body => string_body body
  | ARegExp body flags =>
      negb (length body =? 0)%nat && pattern_body body
      && existsb (jsstring_eqb flags) flag_orders
  end.

(** A class tag: an identifier that is not a keyword; the empty tag stands
    for a plain object. *)
Definition tag_ok (name : jsstring) : bool :=
  match name with
  | [] => true
  | c :: r =>
      is_letter c && forallb is_name_char r
      && match keyword name with
         | Some _ => false
         | None => true
         end
  end.

(** A value as it is written.  Every item of an array and every statement
    carries the gap before it and the gap after it; a member of an object
    carries the gap before its key, the text of the key, and the gaps on
    both sides of the colon and after the value.  An empty array or object
    has one gap, between its brackets.  Between a tag and its brace there is
    no place for a gap. *)
Inductive doc : Type :=
| DAtom (a : atom)
| DArray0 (g : jsstring)
| DArray (items : list (jsstring * doc * jsstring))
| DObject0 (tag : jsstring) (g : jsstring)
| DObject (tag : jsstring)
    (members : list (jsstring * jsstring * jsstring * (jsstring * doc * jsstring))).

Definition item_text (render : doc -> jsstring) (it : jsstring * doc * jsstring) :
    jsstring :=
  fst (fst it) ++ render (snd (fst it)) ++ snd it.

Definition member_text (render : doc -> jsstring)
    (m : jsstring * jsstring * jsstring * (jsstring * doc * jsstring)) : jsstring :=
  fst (fst (fst m)) ++ quoted (snd (fst (fst m))) ++ snd (fst m)
  ++ ch ":" :: item_text render (snd m).

(** The texts of a list, with [sep] between them. *)
Fixpoint separated (sep : N) (texts : list jsstring) : jsstring :=
  match texts with
  | [] => []
  | [t] => t
  | t :: ts => t ++ sep :: separated sep ts
  end.

Fixpoint render (d : doc) : jsstring :=
  match d with
  | DAtom a => atom_text a
  | DArray0 g => ch "[" :: g ++ [ch "]"]
  | DArray items =>
      ch "[" :: separated (ch ",") (map (item_text render) items) ++ [ch "]"]
  | DObject0 tag g => tag ++ ch "{" :: g ++ [ch "}"]
  | DObject tag members =>
      tag ++ ch "{" :: separated (ch ",") (map (member_text render) members)
      ++ [ch "}"]
  end.

(** A document: its statements, with [;] between them. *)
Definition render_document (sts : list (jsstring * doc * jsstring)) : jsstring :=
  separated (ch ";") (map (item_text render) sts).

(** The same value with every gap emptied. *)
Fixpoint strip (d : doc) : doc :=
  match d with
  | DAtom a => DAtom a
  | DArray0 _ => DArray0 []
  | DArray items => DArray (map (fun it => ([], strip (snd (fst it)), [])) items)
  | DObject0 tag _ => DObject0 tag []
  | DObject tag members =>
      DObject tag
        (map (fun m => ([], snd (fst (fst m)), [],
                        ([], strip (snd (fst (snd m))), []))) members)
  end.

Definition strip_item (it : jsstring * doc * jsstring) : doc := strip (snd (fst it)).

(** Gaps are whitespace, atoms and keys and tags are tokens, and a
    bracket pair written with items has at least one. *)
Fixpoint doc_ok (d : doc) : bool :=
  match d with
  | DAtom a => atom_ok a
  | DArray0 g => gap g
  | DArray items =>
      negb (length items =? 0)%nat
      && forallb (fun it => gap (fst (fst it)) && doc_ok (snd (fst it))
                            && gap (snd it)) items
  | DObject0 tag g => tag_ok tag && gap g
  | DObject tag members =>
      tag_ok tag && negb (length members =? 0)%nat
      && forallb (fun m => gap (fst (fst (fst m)))
                           && string_body (snd (fst (fst m)))
                           && gap (snd (fst m))
                           && (gap (fst (fst (snd m)))
                               && doc_ok (snd (fst (snd m)))
                               && gap (snd (snd m)))) members
  end.

Definition item_ok (it : jsstring * doc * jsstring) : bool :=
  gap (fst (fst it)) && doc_ok (snd (fst it)) && gap (snd it).

(** Two documents with the same tokens: they differ in their gaps only. *)
Definition same_tokens (sts sts' : list (jsstring * doc * jsstring)) : Prop :=
  map strip_item sts = map strip_item sts'.

(** What can stand right after a value: the end of the text, whitespace, or
    one of [,], [\]], [}], [;] and [:]. *)
Definition is_follow (c : N) : bool :=
  WS_CHARS c || N.eqb c (ch ",") || N.eqb c (ch "]") || N.eqb c (ch "}")
  || N.eqb c (ch ";") || N.eqb c (ch ":").

Definition follow (post : jsstring) : bool :=
  match post with
  | [] => true
  | c :: _ => is_follow c
  end.

(** A text that does not start with whitespace. *)
Definition starts_token (r : jsstring) : bool :=
  match r with
  | [] => true
  | c :: _ => negb (WS_CHARS c)
  end.

(** Two texts read alike by [parse]: whenever [parse] accepts the first in
    front of [post], it stops right behind it, and it accepts the second in
    front of [post'] with the same value and the same log, and stops right
    behind it too.  [P] is what the texts behind must satisfy. *)
Definition agree {A : Type} (P : jsstring -> bool) (parse : parser A)
    (text text' : jsstring) : Prop :=
  forall post post' p p' w v s1,
    P post = true -> P post' = true ->
    parse (State (text ++ post) p w) = Ok (v, s1) ->
    exists w1,
      s1 = State post (length text + p) w1
      /\ parse (State (text' ++ post') p' w) = Ok (v, State post' (length text' + p') w1).

Definition anything (post : jsstring) : bool := true.

(** The texts of a list, each behind a separator. *)
Fixpoint more (sep : N) (texts : list jsstring) : jsstring :=
  match texts with
  | [] => []
  | t :: ts => sep :: t ++ more sep ts
  end.

(** The members of an object from the first key on, up to the closing brace. *)
Fixpoint keyed (ms : list (jsstring * jsstring * jsstring
                           * (jsstring * doc * jsstring))) : jsstring :=
  match ms with
  | [] => []
  | m :: ms' =>
      quoted (snd (fst (fst m))) ++ snd (fst m) ++ ch ":" :: item_text render (snd m)
      ++ match ms' with
         | [] => [ch "}"]
         | m' :: _ => ch "," :: fst (fst (fst m')) ++ keyed ms'
         end
  end.

Definition member_ok (m : jsstring * jsstring * jsstring
                          * (jsstring * doc * jsstring)) : bool :=
  gap (fst (fst (fst m))) && string_body (snd (fst (fst m))) && gap (snd (fst m))
  && item_ok (snd m).

Definition same_item (it it' : jsstring * doc * jsstring) : Prop :=
  strip (snd (fst it)) = strip (snd (fst it')).

Definition same_member
    (m m' : jsstring * jsstring * jsstring * (jsstring * doc * jsstring)) : Prop :=
  snd (fst (fst m)) = snd (fst (fst m')) /\ same_item (snd m) (snd m').

(** A text that starts a value: not with whitespace, not with [\]]. *)
Definition starts_value (r : jsstring) : bool :=
  match r with
  | [] => false
  | c :: _ => negb (WS_CHARS c) && negb (N.eqb c (ch "]"))
  end.

(** What [parseJson] is known to do one level down. *)
Definition reads_alike (parse : parser pvalue) : Prop :=
  forall d d' g g',
    strip d = strip d' -> doc_ok d = true -> doc_ok d' = true ->
    gap g = true -> gap g' = true ->
    agree follow parse (g ++ render d) (g' ++ render d').

Definition at_end (post : jsstring) : bool :=
  match post with
  | [] => true
  | _ => false
  end.

(** A text that does not go on with a digit. *)
Definition nondigit (r : jsstring) : bool :=
  match r with
  | [] => true
  | c :: _ => negb (NUM_CHARS c)
  end.

(** The fraction and the exponent of a number as they are written. *)
Definition frac_text (frac : option (list N)) : list N :=
  match frac with
  | Some fp => ch "." :: fp
  | None => []
  end.

Definition exp_text (exponent : option (N * list N * list N)) : list N :=
  match exponent with
  | Some (e, sign, ds) => e :: sign ++ ds
  | None => []
  end.

(** One document written without gaps and with gaps. *)
Definition tight : list (jsstring * doc * jsstring) :=
  [([], DObject (js "Foo")
          [([], js "x", [],
            ([], DArray
                   [([], DAtom (ANumber true (js "1") (TFloat (Some (js "5")) None)), []);
                    ([], DAtom (AKeyword (js "null")), [])], []))], []);
   ([], DAtom (AString (js "a")), [])].

Definition airy : list (jsstring * doc * jsstring) :=
  [([ch " "], DObject (js "Foo")
          [([ch " "; 10], js "x", [9],
            ([ch " "], DArray
                   [([ch " "], DAtom (ANumber true (js "1") (TFloat (Some (js "5")) None)),
                     [13; 10]);
                    ([], DAtom (AKeyword (js "null")), [ch " "])], [ch " "]))], [10]);
   ([ch " "], DAtom (AString (js "a")), [10])].

(** *** The cursor and the log across a call *)

(** From [s] to [s'] the cursor has stepped over [text], character by
    character, inside the buffer. *)
Definition reads (s s' : state) : Prop :=
  exists text, rest s = text ++ rest s' /\ pos s' = (length text + pos s)%nat.

(** A name [console.warn] may be called with: not empty, and without a
    class in the registry. *)
Definition unregistered (M : jsstring -> option classId) (name : jsstring) : Prop :=
  name <> [] /\ M name = None.

(** From [s] to [s'] the log has grown by unregistered names only. *)
Definition logs (M : jsstring -> option classId) (s s' : state) : Prop :=
  exists names, warned s' = warned s ++ names /\ Forall (unregistered M) names.

(** A step that leaves the log alone. *)
Definition moves (s s' : state) : Prop := reads s s' /\ warned s' = warned s.

Definition tracks (M : jsstring -> option classId) (s s' : state) : Prop :=
  reads s s' /\ logs M s s'.

(** A parsed value that is neither an array nor an object. *)
Definition atomic (t : pvalue) : Prop :=
  match t with
  | PArray _ | PObject _ _ => False
  | _ => True
  end.

(** Every object in a parsed value has each of its keys once. *)
Fixpoint keys_once (t : pvalue) : Prop :=
  match t with
  | PArray items => fold_right (fun t P => keys_once t /\ P) True items
  | PObject _ fields =>
      NoDup (map fst fields)
      /\ fold_right (fun kt P => keys_once (snd kt) /\ P) True fields
  | _ => True
  end.

(** The levels of arrays and objects in a parsed value, one for a value
    that is neither. *)
Fixpoint height (t : pvalue) : nat :=
  match t with
  | PArray items => S (fold_right (fun t d => Nat.max (height t) d) 0%nat items)
  | PObject _ fields =>
      S (fold_right (fun kt d => Nat.max (height (snd kt)) d) 0%nat fields)
  | _ => 1
  end.

(** A parsed value in which each object has each key once and that is at
    most [d] levels high. *)
Definition fine (d : nat) (t : pvalue) : Prop := keys_once t /\ (height t <= d)%nat.

(** What a call of a value parser guarantees when it returns. *)
Definition sound (M : jsstring -> option classId) (d : nat) (pj : parser pvalue) :
    Prop :=
  forall s t s', pj s = Ok (t, s') -> tracks M s s' /\ fine d t.


(** *** Writing a string as a literal *)

(** A quote or a backslash behind a backslash, any other character as it is. *)
Definition escape_char (c : N) : jsstring :=
  if N.eqb c QUOTE || N.eqb c (ch "\") then [ch "\"; c] else [c].

Definition escape (s : jsstring) : jsstring := flat_map escape_char s.

(** The character of a hexadecimal digit, in lower case. *)
Definition hex_char (d : N) : N := if d <? 10 then 48 + d else 87 + d.

(** The four hexadecimal digits of a code unit. *)
Definition hex4_text (n : N) : jsstring :=
  [hex_char (n / 4096); hex_char (n / 256 mod 16); hex_char (n / 16 mod 16);
   hex_char (n mod 16)].


(** A character at which no value starts: not whitespace, none of the
    characters [parseJson] switches on, and no letter. *)
Definition starts_no_value (c : N) : bool :=
  negb (WS_CHARS c)
  && negb (existsb (N.eqb c) (QUOTE :: js "${[/-"))
  && negb (NUM_CHARS c) && negb (is_letter c).

(** An identifier: a letter, then letters, digits and underscores. *)
Definition identifier (name : jsstring) : bool :=
  match name with
  | [] => false
  | c :: r => is_letter c && forallb is_name_char r
  end.


(** *** What [resolveRef] leaves as it is *)




(** *** Arrays that hold themselves *)

(** Slot [i] of the array at [l] holds the array itself or, unless
    [direct], a placeholder whose table entry is the array. *)
Definition holds_itself (refs : list value) (h : store) (l : loc) (i : nat)
    (direct : bool) : Prop :=
  exists es x,
    h !! l = Some (CArray es) /\ es !! i = Some x
    /\ (x = VObj l
        \/ (direct = false
            /\ exists r k, x = VObj r /\ h !! r = Some (CRef k)
                           /\ refs_at refs k = VObj l)).

(** What is carried from one fuel to the next: a call on the array does
    not return, and a call on anything else keeps the array as it is. *)
Definition stuck (refs : list value) (l : loc) (i : nat) (n : nat) : Prop :=
  forall h res, holds_itself refs h l i false -> resolveRef refs n (VObj l) h <> Ok res.

Definition kept (refs : list value) (l : loc) (i : nat) (n : nat) : Prop :=
  forall b v h v' h',
    holds_itself refs h l i b -> resolveRef refs n v h = Ok (v', h') ->
    holds_itself refs h' l i b.


(** *** Values without references *)



(** *** Documents that are accepted *)







(** * Properties *)

(** ** Scanner facts *)

Lemma span_app p l r :
  forallb p l = true ->
  span p (l ++ r) = (l ++ fst (span p r), snd (span p r)).
Proof.
  induction l as [|c l IH]; simpl; intros H.
  - by destruct (span p r).
  - apply andb_prop in H as [Hc Hl]. rewrite Hc, (IH Hl). reflexivity.
Qed.

Lemma span_all p l : forallb p l = true -> span p l = (l, []).
Proof.
  intros H. rewrite <- (app_nil_r l) at 1. rewrite (span_app _ _ _ H).
  simpl. by rewrite app_nil_r.
Qed.

Lemma span_stop p c r : p c = false -> span p (c :: r) = ([], c :: r).
Proof. intros H. simpl. by rewrite H. Qed.

Lemma span_until p l c r :
  forallb p l = true -> p c = false -> span p (l ++ c :: r) = (l, c :: r).
Proof.
  intros Hl Hc. rewrite (span_app _ _ _ Hl), (span_stop _ _ _ Hc).
  simpl. by rewrite app_nil_r.
Qed.

Lemma see_cons k c r p w : see k (State (c :: r) p w) = N.eqb c k.
Proof. reflexivity. Qed.

Lemma see_nil k p w : see k (State [] p w) = false.
Proof. reflexivity. Qed.

Lemma peek_cons c r p w : peek (State (c :: r) p w) = Some c.
Proof. reflexivity. Qed.

Lemma peek_nil p w : peek (State [] p w) = None.
Proof. reflexivity. Qed.

Lemma advance_cons c r p w : advance (State (c :: r) p w) = State r (S p) w.
Proof. reflexivity. Qed.

Lemma advance_nil p w : advance (State [] p w) = State [] (S p) w.
Proof. reflexivity. Qed.

Create Rewrite HintDb scanner.
#[local] Hint Rewrite see_cons see_nil peek_cons peek_nil advance_cons advance_nil
  : scanner.

Lemma white_stop c r p w :
  WS_CHARS c = false -> white (State (c :: r) p w) = State (c :: r) p w.
Proof. intros H. unfold white, scan. cbn [rest]. by rewrite (span_stop _ _ _ H). Qed.

Lemma white_nil p w : white (State [] p w) = State [] p w.
Proof. reflexivity. Qed.

(** Character classes as bounds on the code. *)
Lemma NUM_CHARS_bounds c : NUM_CHARS c = true <-> 48 <= c <= 57.
Proof. unfold NUM_CHARS. rewrite andb_true_iff, !N.leb_le. tauto. Qed.

Lemma is_letter_bounds c :
  is_letter c = true <-> 65 <= c <= 90 \/ 97 <= c <= 122.
Proof.
  unfold is_letter. rewrite orb_true_iff, !andb_true_iff, !N.leb_le. tauto.
Qed.

Lemma WS_CHARS_cases c :
  WS_CHARS c = true <-> c = 13 \/ c = 10 \/ c = 9 \/ c = 32.
Proof. unfold WS_CHARS. rewrite !orb_true_iff, !N.eqb_eq. tauto. Qed.

Lemma neqb_false (a b : N) : a <> b -> N.eqb a b = false.
Proof. apply N.eqb_neq. Qed.

(** [differs c k]: rewrite the test [N.eqb c k] to [false] from bounds. *)
Ltac codes :=
  repeat match goal with
         | |- context [ch ?a] =>
             let v := eval vm_compute in (ch a) in change (ch a) with v
         | |- context [js ?a] =>
             let v := eval vm_compute in (js a) in change (js a) with v
         end;
  try change QUOTE with 34.

Ltac differ :=
  codes;
  repeat match goal with
         | |- context [N.eqb (Npos ?a) (Npos ?b)] =>
             let v := eval vm_compute in (N.eqb (Npos a) (Npos b)) in
             change (N.eqb (Npos a) (Npos b)) with v
         | |- context [N.eqb ?c ?k] =>
             rewrite (neqb_false c k) by lia
         end.

Ltac steps :=
  repeat (progress (autorewrite with scanner; differ; cbv beta iota zeta)).

(** C9.  For the empty input and for every input made of whitespace
    characters only, [deserialize] throws the syntax error that reports the
    end of the input at the position of the end; no value is returned. *)
Theorem blank_input_unexpected_end V fuel code options :
  forallb WS_CHARS code = true ->
  deserialize V (S fuel) code options = Throw (SyntaxError None (length code)).
Proof.
  intros H. unfold deserialize, statements, bind.
  cbn [parseJson]. unfold white, scan. cbn [rest pos warned].
  rewrite (span_all _ _ H). cbn. by rewrite Nat.add_0_r.
Qed.

Lemma blank_input_unexpected_end_witness :
  deserialize (fun _ => true) 1 (js "   ") (Options None)
  = Throw (SyntaxError None 3).
Proof. apply (blank_input_unexpected_end (fun _ => true) 0 (js "   ")). reflexivity. Defined.

(** ** Keywords *)

Lemma parseJson_keyword V M fuel s name s' v :
  parseName (white s) = (name, s') ->
  keyword name = Some v ->
  parseJson V M (S fuel) s = Ok (v, s').
Proof.
  intros Hname Hkw. cbn [parseJson].
  destruct (white s) as [r p w] eqn:Hs. unfold parseName in Hname.
  destruct r as [|c r]; cbn [peek rest head] in Hname.
  { injection Hname as <- <-. discriminate. }
  destruct (is_letter c) eqn:Hc.
  2:{ injection Hname as <- <-. discriminate. }
  apply is_letter_bounds in Hc.
  rewrite !see_cons. cbn [peek rest head].
  assert (NUM_CHARS c = false) as ->.
  { apply not_true_iff_false. rewrite NUM_CHARS_bounds. lia. }
  differ. cbn [orb].
  unfold parseName. cbn [peek rest head].
  assert (is_letter c = true) as -> by (apply is_letter_bounds; lia).
  destruct (scan is_name_char (advance (State (c :: r) p w))) as [result s1].
  injection Hname as <- <-. by rewrite Hkw.
Qed.

Lemma jsstring_eqb_eq a b : jsstring_eqb a b = true -> a = b.
Proof.
  revert b. induction a as [|x a IH]; intros [|y b]; cbn; try done.
  intros H. apply andb_prop in H as [H1 H2]. apply N.eqb_eq in H1.
  by rewrite H1, (IH _ H2).
Qed.

Lemma keyword_cases name v :
  keyword name = Some v ->
  (name, v) ∈ [ (js "NaN", PNumber S754_nan);
                (js "Infinity", PNumber (S754_infinity false));
                (js "undefined", PUndefined); (js "null", PNull);
                (js "true", PBool true); (js "false", PBool false) ].
Proof.
  unfold keyword. intros H. rewrite !elem_of_cons.
  repeat match type of H with
         | (if jsstring_eqb ?a ?b then _ else _) = _ =>
             let E := fresh "E" in
             destruct (jsstring_eqb a b) eqn:E;
             [apply jsstring_eqb_eq in E; injection H as <-; subst;
              repeat first [left; reflexivity | right]|]
         end.
  discriminate.
Qed.

(** ** The number lexer *)

Lemma decimal_snoc ds d : decimal (ds ++ [d]) = decimal ds * 10 + (d - 48).
Proof. unfold decimal. by rewrite fold_left_app. Qed.

Lemma parseJson_bigint V M fuel neg d ds r p w :
  forallb NUM_CHARS (d :: ds) = true ->
  parseJson V M (S fuel) (State (sign_text neg ++ (d :: ds) ++ ch "n" :: r) p w)
  = Ok (PBigInt (if neg then - Z.of_N (decimal (d :: ds))
                 else Z.of_N (decimal (d :: ds)))%Z,
        State r (length (sign_text neg ++ (d :: ds) ++ [ch "n"]) + p) w).
Proof.
  intros Hds. pose proof Hds as Hd. cbn [forallb] in Hd.
  apply andb_prop in Hd as [Hd _]. pose proof Hd as Hb.
  apply NUM_CHARS_bounds in Hb.
  assert (Hn : NUM_CHARS 110 = false) by reflexivity.
  assert (Hw : WS_CHARS d = false).
  { apply not_true_iff_false. rewrite WS_CHARS_cases. lia. }
  cbn [parseJson]. destruct neg; cbn [sign_text app]; codes.
  - rewrite white_stop by reflexivity. steps. cbn [orb].
    unfold parseNumber. steps.
    unfold magnitude, bind, digits1. steps. rewrite Hd.
    unfold scan. cbn [rest pos warned].
    change (d :: ds ++ 110 :: r) with ((d :: ds) ++ 110 :: r).
    rewrite (span_until NUM_CHARS (d :: ds) _ r Hds Hn). steps.
    do 3 f_equal. cbn [length app]. rewrite ?length_app. cbn [length]. lia.
  - rewrite white_stop by done. steps. rewrite Hd. cbn [orb].
    unfold parseNumber. steps.
    unfold magnitude, bind, digits1. steps. rewrite Hd.
    unfold scan. cbn [rest pos warned].
    change (d :: ds ++ 110 :: r) with ((d :: ds) ++ 110 :: r).
    rewrite (span_until NUM_CHARS (d :: ds) _ r Hds Hn). steps.
    do 3 f_equal. cbn [length app]. rewrite ?length_app. cbn [length]. lia.
Qed.

(** C8.  A run of digits followed at once by [n], with or without a leading
    minus, parses to the exact integer with the sign applied, and the cursor
    stops behind the [n]: nothing after it is read.  [-0] parses to the
    negative zero of the doubles and [123n] to the integer 123. *)
Theorem number_lexer_edge_cases V M fuel neg d ds r p w :
  forallb NUM_CHARS (d :: ds) = true ->
  parseJson V M (S fuel) (State (sign_text neg ++ (d :: ds) ++ ch "n" :: r) p w)
  = Ok (PBigInt (if neg then - Z.of_N (decimal (d :: ds))
                 else Z.of_N (decimal (d :: ds)))%Z,
        State r (length (sign_text neg ++ (d :: ds) ++ [ch "n"]) + p) w)
  /\ (forall options,
        deserialize V (S fuel) (js "-0") options
        = Ok (Answer (VNumber (S754_zero true)) [] []))
  /\ (forall options,
        deserialize V (S fuel) (js "123n") options
        = Ok (Answer (VBigInt 123) [] [])).
Proof.
  intros Hds. split; [by apply parseJson_bigint|]. split; intros; reflexivity.
Qed.

Lemma number_lexer_edge_cases_witness :
  parseJson (fun _ => true) (fun _ => None) 1
    (State (js "-42n.5e3") 0 [])
  = Ok (PBigInt (-42), State (js ".5e3") 4 []).
Proof.
  apply (number_lexer_edge_cases (fun _ => true) (fun _ => None) 0 true
           (ch "4") [ch "2"] (js ".5e3") 0%nat []).
  reflexivity.
Defined.

(** ** Strings that never close *)

Lemma parseString_loop_past_end fuel result p w :
  parseString_loop fuel result (State [] p w) = OutOfFuel.
Proof.
  revert result p. induction fuel as [|n IH]; intros result p; [reflexivity|].
  cbn [parseString_loop]. steps. apply IH.
Qed.

Lemma parseString_loop_plain fuel body result p w :
  forallb plain body = true ->
  parseString_loop fuel result (State body p w) = OutOfFuel.
Proof.
  revert fuel result p. induction body as [|c body IH]; intros fuel result p H.
  - apply parseString_loop_past_end.
  - destruct fuel as [|n]; [reflexivity|].
    cbn [forallb] in H. apply andb_prop in H as [Hc Hb].
    unfold plain in Hc. apply andb_prop in Hc as [H1 H2].
    apply negb_true_iff in H1, H2.
    cbn [parseString_loop]. autorewrite with scanner. rewrite H1, H2.
    by apply IH.
Qed.

(** C1 (the code at the failing inputs).  A string literal opened by a quote
    and followed only by characters other than the quote and the backslash
    never closes: [deserialize] does not return at any fuel, hence throws no
    syntax error either. *)
Theorem unterminated_string_never_returns V fuel body options :
  forallb plain body = true ->
  deserialize V fuel (QUOTE :: body) options = OutOfFuel.
Proof.
  intros H. unfold deserialize, statements, bind.
  destruct fuel as [|n]; [reflexivity|].
  cbn [parseJson]. rewrite white_stop by reflexivity. steps.
  unfold parseString, bind. steps.
  by rewrite parseString_loop_plain.
Qed.

Lemma unterminated_string_never_returns_witness :
  deserialize (fun _ => true) 1000 (QUOTE :: js "abc") (Options None) = OutOfFuel.
Proof.
  apply (unterminated_string_never_returns (fun _ => true) 1000 (js "abc")).
  reflexivity.
Defined.

(** C3 (the code at the failing inputs).  On [{a:1}] the call never
    returns, and the same text with a double quote after the [a] is accepted
    as an object whose only key is the empty string: the first character of
    a key is stepped over without being compared with the quote. *)
Theorem bareword_key_not_rejected V fuel options :
  deserialize V fuel (js "{a:1}") options = OutOfFuel
  /\ deserialize V (S (S (S fuel))) (js "{a" ++ [QUOTE] ++ js ":1}") options
     = Ok (Answer (VObj 0) [CObject None [([], VNumber (ToNumber (js "1")))]] []).
Proof.
  split; [|reflexivity].
  unfold deserialize, statements, bind. codes.
  destruct fuel as [|n]; [reflexivity|].
  cbn [parseJson]. rewrite white_stop by reflexivity. steps.
  unfold parseObject, bind. steps. rewrite white_stop by reflexivity. steps.
  destruct n as [|n]; [reflexivity|].
  cbn [parseObject_loop]. unfold parseString, bind. steps.
  by rewrite parseString_loop_plain.
Qed.

(** C5.  Deserializing the object literal whose one field [self] is [$0]
    returns, and the returned value is the address of an object whose [self]
    field holds that same address. *)
Theorem self_reference_is_identity V fuel options :
  exists l,
    deserialize V (6 + fuel) (js "{" ++ quoted (js "self") ++ js ":$0}") options
    = Ok (Answer (VObj l) [CRef (S754_zero false);
                           CObject None [(js "self", VObj l)]] [])
    /\ l = 1%nat.
Proof. exists 1%nat. split; reflexivity. Qed.

(** ** Regular expression literals *)

Lemma parseRegExp_loop_S V n result s :
  parseRegExp_loop V (S n) result s
  = if see (ch "/") s then
      let '(flags, s) := regexp_flags (advance s) in
      match new_RegExp V result flags with
      | Ok r => Ok (PRegExp r, s)
      | Throw e => Throw e
      | OutOfFuel => OutOfFuel
      end
    else if see (ch "\") s then
      parseRegExp_loop V n
        ((result ++ text (peek s)) ++ text (peek (advance s)))
        (advance (advance s))
    else parseRegExp_loop V n (result ++ text (peek s)) (advance s).
Proof. reflexivity. Qed.

Lemma parseRegExp_loop_body V n : forall body acc tl p w,
  pattern_body body = true ->
  (length body <= n)%nat ->
  parseRegExp_loop V (S n) acc (State (body ++ ch "/" :: tl) p w)
  = let '(flags, s) := regexp_flags (State tl (S (length body + p)) w) in
    match new_RegExp V (acc ++ body) flags with
    | Ok r => Ok (PRegExp r, s)
    | Throw e => Throw e
    | OutOfFuel => OutOfFuel
    end.
Proof.
  induction n as [n IH] using lt_wf_ind. intros body acc tl p w Hb Hn.
  destruct body as [|c body].
  - rewrite parseRegExp_loop_S. cbn [app]. steps. by rewrite app_nil_r.
  - cbn [pattern_body] in Hb. cbn [length] in Hn.
    destruct (N.eqb_spec c (ch "/")) as [|Hc]; [discriminate|].
    destruct n as [|n]; [lia|].
    rewrite parseRegExp_loop_S. cbn [app]. autorewrite with scanner.
    rewrite (neqb_false _ _ Hc).
    destruct (N.eqb_spec c (ch "\")) as [->|Hc'].
    + destruct body as [|d body]; [discriminate|]. cbn [length] in Hn.
      destruct n as [|n]; [lia|].
      cbn [app]. autorewrite with scanner. cbn [text].
      rewrite (IH (S n)) by (auto; lia).
      cbn [length]. rewrite <- !app_assoc. cbn [app].
      by replace (S (length body + S (S p))) with (S (S (S (length body + p)))) by lia.
    + rewrite (IH n) by (auto; lia).
      cbn [length text]. rewrite <- !app_assoc. cbn [app].
      by replace (S (length body + S p)) with (S (S (length body + p))) by lia.
Qed.

Lemma flag_order_cases fl : flag_order fl -> fl ∈ flag_orders.
Proof.
  intros [Hnd Hall]. unfold flag_orders.
  destruct fl as [|a [|b [|c [|d fl]]]];
    repeat match goal with
           | H : Forall _ (_ :: _) |- _ => apply Forall_cons in H as [? H]
           end;
    repeat match goal with
           | H : NoDup (_ :: _) |- _ => apply NoDup_cons in H as [? H]
           end;
    repeat match goal with
           | H : _ ∉ _ :: _ |- _ => apply not_elem_of_cons in H as [? H]
           end;
    repeat match goal with
           | H : _ \/ _ |- _ => destruct H as [H|H]
           end;
    subst; try congruence;
    rewrite !elem_of_cons; repeat first [ left; reflexivity | right ].
Qed.

Lemma regexp_flags_order fl p w :
  fl ∈ flag_orders -> regexp_flags (State fl p w) = (fl, State [] (length fl + p) w).
Proof.
  intros H. unfold flag_orders in H.
  repeat (apply elem_of_cons in H as [->|H]); [..|by apply elem_of_nil in H];
    reflexivity.
Qed.

Lemma new_RegExp_order V pattern fl :
  fl ∈ flag_orders ->
  new_RegExp V pattern fl
  = if V pattern
    then Ok (RegExp pattern (has_flag (ch "i") fl) (has_flag (ch "m") fl)
               (has_flag (ch "g") fl))
    else Throw (RegExpError pattern).
Proof.
  intros H. unfold flag_orders in H. unfold new_RegExp.
  repeat (apply elem_of_cons in H as [->|H]); [..|by apply elem_of_nil in H];
    destruct (V pattern); reflexivity.
Qed.

Lemma statements_loop_S V M fuel n refs s :
  statements_loop V M fuel (S n) refs s
  = if see (ch ";") s then
      (do _ <- consume [ch ";"];
       do v <- parseJson V M fuel;
       fun s => statements_loop V M fuel n (refs ++ [v]) (white s)) s
    else Ok (refs, s).
Proof. reflexivity. Qed.

Lemma deserialize_regexp V fuel body fl options :
  body <> [] ->
  pattern_body body = true ->
  fl ∈ flag_orders ->
  deserialize V (2 + length body + fuel) (regexp_literal body fl) options
  = if V body
    then Ok (Answer (VObj 0)
               [CRegExp (RegExp body (has_flag (ch "i") fl)
                           (has_flag (ch "m") fl) (has_flag (ch "g") fl))] [])
    else Throw (RegExpError body).
Proof.
  intros Hne Hb Hfl.
  unfold deserialize, statements, bind, regexp_literal.
  change (2 + length body + fuel)%nat with (S (S (length body + fuel))).
  cbn [parseJson]. rewrite white_stop by reflexivity. steps.
  unfold parseRegExp. steps.
  destruct body as [|c body']; [done|]. set (body := c :: body') in *.
  assert (Hc : c <> 47).
  { intros ->. discriminate. }
  subst body. cbn [app]. autorewrite with scanner. rewrite (neqb_false _ _ Hc).
  change (c :: body' ++ 47 :: fl) with ((c :: body') ++ ch "/" :: fl).
  rewrite parseRegExp_loop_body by (auto; cbn [length]; lia).
  set (body := c :: body') in *.
  rewrite regexp_flags_order, new_RegExp_order by done.
  cbn [app]. destruct (V body); [|reflexivity].
  rewrite white_nil, statements_loop_S. steps. cbn [pos].
  replace (_ =? _)%nat with true.
  2:{ symmetry. apply Nat.eqb_eq. cbn [length]. rewrite length_app. cbn [length]. lia. }
  reflexivity.
Qed.

Lemma has_flag_perm c fl fl' : Permutation fl fl' -> has_flag c fl = has_flag c fl'.
Proof.
  intros H. unfold has_flag. apply eq_true_iff_eq.
  rewrite !existsb_exists. split; intros (x & Hx & Hc); exists x; split; auto.
  - by apply (Permutation_in _ H).
  - by apply (Permutation_in _ (Permutation_sym H)).
Qed.

Lemma flag_order_perm fl fl' : Permutation fl fl' -> flag_order fl -> flag_order fl'.
Proof.
  intros H [Hnd Hall]. split.
  - by rewrite <- H.
  - by rewrite <- H.
Qed.

(** C7.  For every pattern the engine accepts and every order [fl] of
    distinct flags among [i], [m] and [g], the literal parses to the regular
    expression with that pattern and that set of flags, and every
    rearrangement [fl'] of the flags parses to the same result. *)
Theorem regexp_flags_any_order V fuel body fl fl' options :
  body <> [] ->
  pattern_body body = true ->
  flag_order fl ->
  Permutation fl fl' ->
  V body = true ->
  deserialize V (2 + length body + fuel) (regexp_literal body fl) options
  = Ok (Answer (VObj 0)
          [CRegExp (RegExp body (has_flag (ch "i") fl) (has_flag (ch "m") fl)
                      (has_flag (ch "g") fl))] [])
  /\ deserialize V (2 + length body + fuel) (regexp_literal body fl') options
     = deserialize V (2 + length body + fuel) (regexp_literal body fl) options.
Proof.
  intros Hne Hb Hfl Hp HV.
  pose proof (flag_order_perm _ _ Hp Hfl) as Hfl'.
  rewrite !deserialize_regexp by auto using flag_order_cases.
  rewrite HV, !(has_flag_perm _ _ _ Hp). done.
Qed.

Lemma regexp_flags_any_order_witness :
  deserialize (fun _ => true) 4 (js "/ab/gim") (Options None)
  = Ok (Answer (VObj 0) [CRegExp (RegExp (js "ab") true true true)] [])
  /\ deserialize (fun _ => true) 4 (js "/ab/mig") (Options None)
     = deserialize (fun _ => true) 4 (js "/ab/gim") (Options None).
Proof.
  apply (regexp_flags_any_order (fun _ => true) 0 (js "ab") (js "gim") (js "mig")).
  - discriminate.
  - reflexivity.
  - split; apply (bool_decide_unpack _); vm_compute; exact I.
  - apply perm_trans with (js "igm"); [apply perm_swap|].
    apply perm_trans with (js "img"); [apply perm_skip, perm_swap|].
    apply perm_swap.
  - reflexivity.
Defined.

(** ** The top-level driver *)

Lemma span_rest_stop p l c r : snd (span p l) = c :: r -> p c = false.
Proof.
  induction l as [|d l IH]; cbn [span]; [discriminate|].
  destruct (p d) eqn:Hd.
  - destruct (span p l). cbn [snd] in *. auto.
  - cbn [snd]. by intros [= <- <-].
Qed.

Lemma white_peek s c : peek (white s) = Some c -> WS_CHARS c = false.
Proof.
  unfold white, scan, peek. destruct (span WS_CHARS (rest s)) as [a b] eqn:H.
  cbn [snd rest]. destruct b as [|d b]; [discriminate|]. intros [= ->].
  apply (span_rest_stop WS_CHARS (rest s) c b). by rewrite H.
Qed.

Lemma statements_loop_collects V M fuel n : forall refs s refs' s',
  statements_loop V M fuel n refs s = Ok (refs', s') ->
  collects V M fuel refs s refs' s'.
Proof.
  induction n as [|n IH]; intros refs s refs' s' H; [discriminate|].
  rewrite statements_loop_S in H. destruct (see (ch ";") s) eqn:Hsee.
  - unfold bind in H. cbn [consume] in H. rewrite Hsee in H.
    destruct (parseJson V M fuel (advance s)) as [[v s1]| |] eqn:Hv;
      try discriminate.
    eapply collects_next; eauto.
  - injection H as <- <-. by apply collects_done.
Qed.

Lemma collects_stops V M fuel refs s refs' s' :
  collects V M fuel refs s refs' s' ->
  see (ch ";") s' = false /\ exists more, refs' = refs ++ more.
Proof.
  induction 1 as [refs s H|refs s v s1 refs' s' H1 H2 H3 [IH1 [more IH2]]].
  - split; [done|]. exists []. by rewrite app_nil_r.
  - split; [done|]. exists (v :: more). by rewrite IH2, <- app_assoc.
Qed.

Lemma collects_white V M fuel refs s refs' s' :
  collects V M fuel refs s refs' s' ->
  (forall c, peek s = Some c -> WS_CHARS c = false) ->
  forall c, peek s' = Some c -> WS_CHARS c = false.
Proof.
  induction 1 as [|refs s v s1 refs' s' H1 H2 H3 IH]; [done|].
  intros _. apply IH. intros c. apply white_peek.
Qed.

(** C6.  When the statement loop of [deserialize] ends with table [trees]
    and cursor [s]: the table is the first parsed value followed by the
    values collected after each [;]; the character at the cursor, if any, is
    neither whitespace nor [;]; if the cursor is not at the end of the input
    the call throws the syntax error for that position, and otherwise it
    returns the resolved first entry of the table.  [[$1]; 5] returns the
    array holding 5. *)
Theorem top_level_driver V fuel code options trees s :
  statements V (registry options) fuel (State code 0 []) = Ok (trees, s) ->
  (exists v s1 more,
      parseJson V (registry options) fuel (State code 0 []) = Ok (v, s1)
      /\ collects V (registry options) fuel [v] (white s1) trees s
      /\ trees = v :: more)
  /\ (forall c, peek s = Some c -> WS_CHARS c = false /\ c <> ch ";")
  /\ (pos s <> length code ->
      deserialize V fuel code options = Throw (SyntaxError (peek s) (pos s)))
  /\ (pos s = length code ->
      deserialize V fuel code options
      = match resolveRef (fst (load_all trees [])) fuel (first_loaded trees)
                (snd (load_all trees [])) with
        | Ok (v, h) => Ok (Answer v h (warned s))
        | Throw e => Throw e
        | OutOfFuel => OutOfFuel
        end)
  /\ (forall fuel' options',
        deserialize V (2 + fuel') (js "[$1]; 5") options'
        = Ok (Answer (VObj 1)
                [CRef (ToNumber (js "1")); CArray [VNumber (ToNumber (js "5"))]]
                [])).
Proof.
  intros H. pose proof H as H0. unfold statements, bind in H0.
  destruct (parseJson V (registry options) fuel (State code 0 []))
    as [[v s1]| |] eqn:Hv; try discriminate.
  apply statements_loop_collects in H0.
  destruct (collects_stops _ _ _ _ _ _ _ H0) as [Hsemi [more Hmore]].
  split; [|split; [|split; [|split]]].
  - exists v, s1, more. done.
  - intros c Hc. split.
    + by apply (collects_white _ _ _ _ _ _ _ H0 (white_peek s1)).
    + intros ->. unfold see in Hsemi. rewrite Hc in Hsemi.
      by rewrite N.eqb_refl in Hsemi.
  - intros Hpos. unfold deserialize. cbv zeta. rewrite H.
    apply Nat.eqb_neq in Hpos. by rewrite Nat.eqb_sym, Hpos.
  - intros Hpos. unfold deserialize. cbv zeta. rewrite H.
    rewrite Hpos, Nat.eqb_refl. cbn [negb]. unfold first_loaded.
    by destruct (load_all trees []).
  - reflexivity.
Qed.




Lemma top_level_driver_witness :
  deserialize (fun _ => true) 2 (js "[$1]; 5 x") (Options None)
  = Throw (SyntaxError (Some (ch "x")) 8).
Proof.
  refine (proj1 (proj2 (proj2
            (top_level_driver (fun _ => true) 2 (js "[$1]; 5 x") (Options None)
               [PArray [PRef (ToNumber (js "1"))]; PNumber (ToNumber (js "5"))]
               (State (js "x") 8 []) _))) _).
  - reflexivity.
  - cbn. lia.
Defined.

(** ** Resolution *)

Lemma jsstring_eqb_refl a : jsstring_eqb a a = true.
Proof. induction a as [|x a IH]; cbn; [done|]. by rewrite N.eqb_refl, IH. Qed.

Section Evolution.

Variable refs : list value.

Lemma slot_evolves_refl h x : slot_evolves refs h x x.
Proof. by left. Qed.

Lemma cell_evolves_refl h c : cell_evolves refs h c c.
Proof.
  destruct c as [i|r|es|p fs]; cbn; auto.
  - apply Forall2_same_length_lookup. split; [done|].
    intros i x y Hx Hy. rewrite Hx in Hy. injection Hy as <-. by left.
  - split; [done|]. apply Forall2_same_length_lookup. split; [done|].
    intros i x y Hx Hy. rewrite Hx in Hy. injection Hy as <-. split; [done|by left].
Qed.

Lemma evolves_refl h : evolves refs h h.
Proof.
  apply Forall2_same_length_lookup. split; [done|].
  intros i x y Hx Hy. rewrite Hx in Hy. injection Hy as <-. apply cell_evolves_refl.
Qed.

Lemma evolves_lookup h h' l c :
  evolves refs h h' -> h !! l = Some c ->
  exists c', h' !! l = Some c' /\ cell_evolves refs h c c'.
Proof. intros H Hc. by apply (Forall2_lookup_l _ _ _ _ _ H Hc). Qed.

Lemma evolves_lookup_r h h' l c' :
  evolves refs h h' -> h' !! l = Some c' ->
  exists c, h !! l = Some c /\ cell_evolves refs h c c'.
Proof. intros H Hc. by apply (Forall2_lookup_r _ _ _ _ _ H Hc). Qed.

Lemma evolves_ref h h' l i :
  evolves refs h h' -> h !! l = Some (CRef i) <-> h' !! l = Some (CRef i).
Proof.
  intros H. split; intros Hc.
  - destruct (evolves_lookup _ _ _ _ H Hc) as (c' & Hc' & He).
    destruct c'; cbn in He; try done. by subst.
  - destruct (evolves_lookup_r _ _ _ _ H Hc) as (c & Hc' & He).
    destruct c; cbn in He; try done. by subst.
Qed.

Lemma placeholder_evolves h h' v :
  evolves refs h h' -> placeholder h v <-> placeholder h' v.
Proof.
  intros H. unfold placeholder.
  split; intros (l & i & -> & Hc); exists l, i; split; auto;
    by apply (evolves_ref _ _ _ _ H).
Qed.

Lemma table_ok_evolves h h' :
  evolves refs h h' -> table_ok refs h -> table_ok refs h'.
Proof. intros H Hok i Hp. apply (Hok i). by apply (placeholder_evolves _ _ _ H). Qed.

Lemma own_keys_evolves h c c' : cell_evolves refs h c c' -> own_keys c' = own_keys c.
Proof.
  destruct c, c'; cbn; try done.
  - intros H. by rewrite (Forall2_length _ _ _ H).
  - intros [_ H]. induction H as [|a b fs fs' [Hk _] _ IH]; cbn; [done|].
    by rewrite Hk, IH.
Qed.

Lemma slot_evolves_trans h h' x y z :
  table_ok refs h -> evolves refs h h' ->
  slot_evolves refs h x y -> slot_evolves refs h' y z -> slot_evolves refs h x z.
Proof.
  intros Hok He [->|(l & i & -> & Hc & ->)] [->|(l' & i' & Hy & Hc' & ->)].
  - by left.
  - right. exists l', i'. split; [done|]. split; [|done].
    by apply (evolves_ref _ _ _ _ He).
  - right. by exists l, i.
  - exfalso. apply (Hok i). exists l', i'. split; [done|].
    by apply (evolves_ref _ _ _ _ He).
Qed.

Lemma cell_evolves_trans h h' c1 c2 c3 :
  table_ok refs h -> evolves refs h h' ->
  cell_evolves refs h c1 c2 -> cell_evolves refs h' c2 c3 ->
  cell_evolves refs h c1 c3.
Proof.
  intros Hok He. destruct c1, c2; cbn; try done; destruct c3; cbn; try done.
  - congruence.
  - congruence.
  - intros H1 H2. revert elems1 H2.
    induction H1 as [|x y es es' Hxy _ IH]; intros es'' H2.
    + by apply Forall2_nil_inv_l in H2 as ->.
    + apply Forall2_cons_inv_l in H2 as (z & zs & Hyz & Hzs & ->).
      constructor; [by eapply slot_evolves_trans|by apply IH].
  - intros [-> H1] [-> H2]. split; [done|]. revert fields1 H2.
    induction H1 as [|x y es es' [Hk Hxy] _ IH]; intros es'' H2.
    + by apply Forall2_nil_inv_l in H2 as ->.
    + apply Forall2_cons_inv_l in H2 as (z & zs & [Hk' Hyz] & Hzs & ->).
      constructor; [|by apply IH].
      split; [congruence|by eapply slot_evolves_trans].
Qed.

Lemma evolves_trans h1 h2 h3 :
  table_ok refs h1 -> evolves refs h1 h2 -> evolves refs h2 h3 ->
  evolves refs h1 h3.
Proof.
  intros Hok H12 H23. unfold evolves in *.
  apply Forall2_same_length_lookup. split.
  - by rewrite (Forall2_length _ _ _ H12), (Forall2_length _ _ _ H23).
  - intros l c1 c3 Hc1 Hc3.
    destruct (evolves_lookup _ _ _ _ H12 Hc1) as (c2 & Hc2 & He12).
    destruct (evolves_lookup _ _ _ _ H23 Hc2) as (c3' & Hc3' & He23).
    rewrite Hc3 in Hc3'. injection Hc3' as <-.
    by eapply cell_evolves_trans.
Qed.

End Evolution.

(** *** Reading and writing slots *)

Lemma elem_of_index_keys i n : KIndex i ∈ map KIndex (seq 0 n) <-> (i < n)%nat.
Proof.
  rewrite list_elem_of_fmap. split.
  - intros (j & [= ->] & Hj). apply elem_of_seq in Hj. lia.
  - intros H. exists i. split; [done|]. apply elem_of_seq. lia.
Qed.

Lemma name_not_index k n : KName k ∉ map KIndex (seq 0 n).
Proof. rewrite list_elem_of_fmap. by intros (j & [=] & _). Qed.

Lemma elem_of_name_keys {V} k (fs : list (list N * V)) :
  KName k ∈ map (fun kv => KName (fst kv)) fs -> exists v, obj_get k fs = Some v.
Proof.
  induction fs as [|[k' v'] fs IH]; cbn.
  - by intros H%elem_of_nil.
  - intros H. destruct (jsstring_eqb k' k) eqn:E; [by eexists|].
    apply elem_of_cons in H as [[= ->]|H]; [|by apply IH].
    by rewrite jsstring_eqb_refl in E.
Qed.

Lemma index_not_name {V} i (fs : list (list N * V)) :
  KIndex i ∉ map (fun kv => KName (fst kv)) fs.
Proof. rewrite list_elem_of_fmap. by intros (j & [=] & _). Qed.

Lemma obj_get_has_key {V} k (fs : list (list N * V)) v :
  obj_get k fs = Some v -> has_key k fs = true.
Proof.
  induction fs as [|[k' v'] fs IH]; cbn; [done|].
  destruct (jsstring_eqb k' k); [done|]. apply IH.
Qed.

Lemma obj_get_replace {V} k (fs : list (list N * V)) x v :
  obj_get k fs = Some x -> obj_get k (obj_replace k v fs) = Some v.
Proof.
  induction fs as [|[k' v'] fs IH]; cbn; [done|].
  destruct (jsstring_eqb k' k) eqn:E; cbn; rewrite E; [done|]. apply IH.
Qed.

Lemma obj_get_set {V} k (fs : list (list N * V)) x v :
  obj_get k fs = Some x -> obj_get k (obj_set k v fs) = Some v.
Proof.
  intros H. unfold obj_set. rewrite (obj_get_has_key _ _ _ H).
  by eapply obj_get_replace.
Qed.

Lemma Forall2_insert_r {A B} (P : A -> B -> Prop) l k i x y :
  Forall2 P l k -> l !! i = Some x -> P x y -> Forall2 P l (<[i:=y]> k).
Proof.
  intros H Hx Hxy. rewrite <- (list_insert_id l i x Hx). by apply Forall2_insert.
Qed.

Section Slots.

Variable refs : list value.

Lemma obj_get_evolves h k fs fs' x :
  Forall2 (fun a b => fst a = fst b /\ slot_evolves refs h (snd a) (snd b)) fs fs' ->
  obj_get k fs = Some x ->
  exists y, obj_get k fs' = Some y /\ slot_evolves refs h x y.
Proof.
  induction 1 as [|[k1 v1] [k2 v2] fs fs' [Hk Hv] _ IH]; cbn; [done|].
  cbn in Hk, Hv. subst k2. destruct (jsstring_eqb k1 k); [|done].
  intros [= ->]. by exists v2.
Qed.

Lemma obj_replace_evolves h k fs fs' x v :
  Forall2 (fun a b => fst a = fst b /\ slot_evolves refs h (snd a) (snd b)) fs fs' ->
  obj_get k fs = Some x ->
  slot_evolves refs h x v ->
  Forall2 (fun a b => fst a = fst b /\ slot_evolves refs h (snd a) (snd b))
    fs (obj_replace k v fs').
Proof.
  induction 1 as [|[k1 v1] [k2 v2] fs fs' [Hk Hv] Hfs IH]; cbn; [done|].
  cbn in Hk, Hv. subst k2. destruct (jsstring_eqb k1 k).
  - intros [= ->] Hx. by constructor.
  - intros Hx Hv'. constructor; [done|by apply IH].
Qed.

Lemma read_evolves h h' l c k :
  evolves refs h h' -> h !! l = Some c -> k ∈ own_keys c ->
  slot_evolves refs h (read h l k) (read h' l k).
Proof.
  intros He Hc Hk. destruct (evolves_lookup _ _ _ _ _ He Hc) as (c' & Hc' & Hcc).
  unfold read. rewrite Hc, Hc'.
  destruct c as [i|r|es|p fs], c' as [i'|r'|es'|p' fs']; cbn in Hcc, Hk;
    try done; try by apply elem_of_nil in Hk.
  - destruct k as [i|k]; [|by apply name_not_index in Hk].
    apply elem_of_index_keys in Hk.
    destruct (lookup_lt_is_Some_2 es i Hk) as [x Hx].
    destruct (Forall2_lookup_l _ _ _ _ _ Hcc Hx) as (y & Hy & Hxy).
    by rewrite Hx, Hy.
  - destruct Hcc as [-> Hcc].
    destruct k as [i|k]; [by apply index_not_name in Hk|].
    apply elem_of_name_keys in Hk as [x Hx].
    destruct (obj_get_evolves _ _ _ _ _ Hcc Hx) as (y & Hy & Hxy).
    by rewrite Hx, Hy.
Qed.

Lemma write_evolves h h' l c k v :
  evolves refs h h' -> h !! l = Some c -> k ∈ own_keys c ->
  slot_evolves refs h (read h l k) v ->
  evolves refs h (write h' l k v).
Proof.
  intros He Hc Hk Hv. destruct (evolves_lookup _ _ _ _ _ He Hc) as (c' & Hc' & Hcc).
  unfold write. rewrite Hc'. unfold read in Hv. rewrite Hc in Hv.
  unfold evolves.
  destruct c as [i|r|es|p fs], c' as [i'|r'|es'|p' fs']; cbn in Hcc, Hk;
    try done; try by apply elem_of_nil in Hk.
  - destruct k as [i|k]; [|by apply name_not_index in Hk].
    apply elem_of_index_keys in Hk.
    destruct (lookup_lt_is_Some_2 es i Hk) as [x Hx]. rewrite Hx in Hv.
    eapply Forall2_insert_r; [done..|]. cbn.
    by eapply Forall2_insert_r.
  - destruct Hcc as [-> Hcc].
    destruct k as [i|k]; [by apply index_not_name in Hk|].
    apply elem_of_name_keys in Hk as [x Hx]. rewrite Hx in Hv.
    destruct (obj_get_evolves _ _ _ _ _ Hcc Hx) as (y & Hy & _).
    eapply Forall2_insert_r; [done..|]. cbn. split; [done|].
    unfold obj_set. rewrite (obj_get_has_key _ _ _ Hy).
    by eapply obj_replace_evolves.
Qed.

Lemma read_write h l c k v :
  h !! l = Some c -> k ∈ own_keys c -> read (write h l k v) l k = v.
Proof.
  intros Hc Hk. unfold write, read. rewrite Hc.
  pose proof (lookup_lt_Some _ _ _ Hc) as Hl.
  destruct c as [i|r|es|p fs]; cbn in Hk; try by apply elem_of_nil in Hk.
  - destruct k as [i|k]; [|by apply name_not_index in Hk].
    apply elem_of_index_keys in Hk.
    rewrite list_lookup_insert_eq by done.
    by rewrite list_lookup_insert_eq.
  - destruct k as [i|k]; [by apply index_not_name in Hk|].
    apply elem_of_name_keys in Hk as [x Hx].
    rewrite list_lookup_insert_eq by done.
    by rewrite (obj_get_set _ _ _ _ Hx).
Qed.

End Slots.

(** *** What a walk leaves behind *)

Section Visit.

Variable refs : list value.

Lemma resolves_to_slot h v v' : resolves_to refs h v v' -> slot_evolves refs h v v'.
Proof. intros [[-> _]|H]; [by left|by right]. Qed.

Lemma resolves_to_clean h v v' :
  table_ok refs h -> resolves_to refs h v v' -> ~ placeholder h v'.
Proof. intros Hok [[-> H]|(l & i & _ & _ & ->)]; [done|apply Hok]. Qed.

Lemma slot_evolves_keep h x y :
  slot_evolves refs h x y -> ~ placeholder h x -> y = x.
Proof.
  intros [->|(l & i & -> & Hc & _)] Hx; [done|].
  exfalso. apply Hx. by exists l, i.
Qed.

Lemma clean_evolves h h' l : evolves refs h h' -> clean h l -> clean h' l.
Proof.
  intros He Hcl c' k Hc' Hk.
  destruct (evolves_lookup_r _ _ _ _ _ He Hc') as (c & Hc & Hcc).
  rewrite (own_keys_evolves _ _ _ _ Hcc) in Hk.
  pose proof (Hcl c k Hc Hk) as Hx.
  rewrite (slot_evolves_keep _ _ _ (read_evolves _ _ _ _ _ _ He Hc Hk) Hx).
  by rewrite <- (placeholder_evolves _ _ _ _ He).
Qed.

Lemma reachable_from_placeholder h v w :
  reachable h v w -> placeholder h v -> w = v.
Proof.
  intros [v'|l c k w' Hc Hk _] (l' & i & Hv & Hl); [done|].
  injection Hv as <-. rewrite Hc in Hl. injection Hl as ->.
  by apply elem_of_nil in Hk.
Qed.

Lemma reachable_evolves h h' v w :
  evolves refs h h' -> reachable h v w -> ~ placeholder h w -> reachable h' v w.
Proof.
  intros He Hr Hw. induction Hr as [v|l c k w Hc Hk Hr IH]; [constructor|].
  destruct (evolves_lookup _ _ _ _ _ He Hc) as (c' & Hc' & Hcc).
  apply (reach_into h' l c' k); [done|by rewrite (own_keys_evolves _ _ _ _ Hcc)|].
  destruct (read_evolves _ _ _ _ _ _ He Hc Hk) as [->|(l' & i & Hx & Hl & _)];
    [by apply IH|].
  exfalso. apply Hw. rewrite (reachable_from_placeholder _ _ _ Hr).
  - by exists l', i.
  - by exists l', i.
Qed.

Lemma clean_of_placeholder h l i : h !! l = Some (CRef i) -> clean h l.
Proof.
  intros Hl c k Hc Hk. rewrite Hl in Hc. injection Hc as <-.
  by apply elem_of_nil in Hk.
Qed.

Lemma write_after h h1 l c k x v :
  table_ok refs h -> evolves refs h h1 -> h !! l = Some c -> k ∈ own_keys c ->
  read h l k = x -> resolves_to refs h x v ->
  evolves refs h1 (write h1 l k v).
Proof.
  intros Hok He Hc Hk Hx Hv.
  destruct (evolves_lookup _ _ _ _ _ He Hc) as (c1 & Hc1 & Hcc).
  apply (write_evolves refs h1 h1 l c1 k v); [apply evolves_refl|done| |].
  { by rewrite (own_keys_evolves _ _ _ _ Hcc). }
  pose proof (read_evolves _ _ _ _ _ _ He Hc Hk) as Hy. rewrite Hx in Hy.
  destruct Hv as [[-> Hx']|(l' & i & -> & Hl & ->)].
  - rewrite (slot_evolves_keep _ _ _ Hy Hx'). by left.
  - destruct Hy as [->|(l2 & i2 & [= <-] & Hl2 & ->)].
    + right. exists l', i. split; [done|]. split; [|done].
      by apply (evolves_ref _ _ _ _ _ He).
    + rewrite Hl in Hl2. injection Hl2 as <-. by left.
Qed.

Lemma walk_visits resolve l :
  visits refs resolve ->
  forall ks h h' c,
    table_ok refs h ->
    h !! l = Some c ->
    (forall k, k ∈ ks -> k ∈ own_keys c) ->
    walk resolve l ks h = Ok h' ->
    evolves refs h h'
    /\ (forall k, k ∈ ks -> ~ placeholder h' (read h' l k))
    /\ (forall k l', k ∈ ks -> reachable h (read h l k) (VObj l') -> clean h' l').
Proof.
  intros Hres ks. induction ks as [|k ks IH]; intros h h' c Hok Hc Hks Hw.
  { injection Hw as <-. split; [apply evolves_refl|].
    split; [by intros k H%elem_of_nil|by intros k l' H%elem_of_nil]. }
  cbn [walk] in Hw.
  destruct (resolve (read h l k) h) as [[v h1]| |] eqn:Hr; try discriminate.
  destruct (Hres _ _ _ _ Hok Hr) as (He1 & Hv & Hcl1).
  assert (Hk : k ∈ own_keys c) by (apply Hks; left).
  pose proof (table_ok_evolves _ _ _ He1 Hok) as Hok1.
  pose proof (write_after _ _ _ _ _ _ _ Hok He1 Hc Hk eq_refl Hv) as He12.
  set (h2 := write h1 l k v) in *.
  pose proof (evolves_trans _ _ _ _ Hok He1 He12) as He2.
  pose proof (table_ok_evolves _ _ _ He2 Hok) as Hok2.
  destruct (evolves_lookup _ _ _ _ _ He1 Hc) as (c1 & Hc1 & Hcc1).
  destruct (evolves_lookup _ _ _ _ _ He2 Hc) as (c2 & Hc2 & Hcc2).
  assert (Hks2 : forall k', k' ∈ ks -> k' ∈ own_keys c2).
  { intros k' Hk'. rewrite (own_keys_evolves _ _ _ _ Hcc2). apply Hks. by right. }
  destruct (IH h2 h' c2 Hok2 Hc2 Hks2 Hw) as (He' & Hph & Hcl).
  pose proof (evolves_trans _ _ _ _ Hok He2 He') as Hfin.
  split; [done|]. split.
  - intros k' [->|Hk']%elem_of_cons; [|by apply Hph].
    assert (Hv2 : ~ placeholder h2 v).
    { rewrite <- (placeholder_evolves _ _ _ _ He2).
      by apply (resolves_to_clean _ _ _ Hok Hv). }
    assert (Hk2 : k ∈ own_keys c2) by by rewrite (own_keys_evolves _ _ _ _ Hcc2).
    pose proof (read_evolves _ _ _ _ _ _ He' Hc2 Hk2) as Hy.
    assert (Hrw : read h2 l k = v).
    { apply (read_write h1 l c1); [done|].
      by rewrite (own_keys_evolves _ _ _ _ Hcc1). }
    rewrite Hrw in Hy.
    rewrite (slot_evolves_keep _ _ _ Hy Hv2).
    by rewrite <- (placeholder_evolves _ _ _ _ He').
  - intros k' l' [->|Hk']%elem_of_cons Hreach.
    + apply (clean_evolves h1); [|by apply Hcl1].
      by apply (evolves_trans _ _ _ _ Hok1 He12 He').
    + destruct (h !! l') as [cl|] eqn:Hl'.
      2:{ intros c' k0 Hc'. apply (Forall2_length) in Hfin.
          apply lookup_lt_Some in Hc'. apply lookup_ge_None in Hl'. lia. }
      destruct cl as [i| | |] eqn:Hcell.
      { apply (clean_of_placeholder _ _ i). by apply (evolves_ref _ _ _ _ _ Hfin). }
      all: assert (Hnp : ~ placeholder h (VObj l'))
        by (intros (l0 & i0 & [= <-] & Hl0); congruence).
      all: assert (Hk0 : k' ∈ own_keys c) by (apply Hks; by right).
      all: apply (Hcl k' l' Hk').
      all: destruct (read_evolves _ _ _ _ _ _ He2 Hc Hk0)
          as [->|(l0 & i0 & Hx & Hl0 & _)];
        [by apply (reachable_evolves h)|].
      all: exfalso; apply Hnp;
        rewrite (reachable_from_placeholder _ _ _ Hreach) by (rewrite Hx; by exists l0, i0);
        rewrite Hx; by exists l0, i0.
Qed.

End Visit.

Section ResolveRef.

Variable refs : list value.

Lemma resolveRef_S n v h :
  resolveRef refs (S n) v h
  = match v with
    | VObj l =>
        match h !! l with
        | Some (CRef index) => Ok (refs_at refs index, h)
        | Some (CArray es) =>
            match walk (resolveRef refs n) l
                    (map KIndex (seq 0 (length es))) h with
            | Ok h1 =>
                match walk (resolveRef refs n) l
                        (match h1 !! l with
                         | Some c => own_keys c
                         | None => []
                         end) h1 with
                | Ok h2 => Ok (v, h2)
                | Throw e => Throw e
                | OutOfFuel => OutOfFuel
                end
            | Throw e => Throw e
            | OutOfFuel => OutOfFuel
            end
        | Some (CObject proto fs) =>
            match walk (resolveRef refs n) l (own_keys (CObject proto fs)) h with
            | Ok h1 => Ok (v, h1)
            | Throw e => Throw e
            | OutOfFuel => OutOfFuel
            end
        | _ => Ok (v, h)
        end
    | _ => Ok (v, h)
    end.
Proof. reflexivity. Qed.

Lemma reachable_leaf h v l :
  match v with
  | VObj l0 => match h !! l0 with
               | Some c => own_keys c = []
               | None => True
               end
  | _ => True
  end ->
  reachable h v (VObj l) -> clean h l.
Proof.
  intros Hv Hr. inversion Hr as [v0|l0 c k w Hc Hk Hr']; subst.
  - intros c k Hc Hk. rewrite Hc in Hv. rewrite Hv in Hk. by apply elem_of_nil in Hk.
  - rewrite Hc in Hv. rewrite Hv in Hk. by apply elem_of_nil in Hk.
Qed.

Lemma resolveRef_visits n : visits refs (resolveRef refs n).
Proof.
  induction n as [|n IH]; intros v h v' h' Hok H; [discriminate|].
  rewrite resolveRef_S in H.
  assert (Hleaf : forall v, match v with VObj _ => False | _ => True end ->
            ~ placeholder h v).
  { intros w Hw (l & i & -> & _). done. }
  destruct v as [| | | | | |l0];
    try (injection H as <- <-; split; [apply evolves_refl|];
         split; [left; split; [done|by apply Hleaf]|];
         intros l; by apply reachable_leaf).
  destruct (h !! l0) as [[i|r|es|p fs]|] eqn:Hl0.
  - injection H as <- <-. split; [apply evolves_refl|].
    split; [right; by exists l0, i|].
    intros l. apply reachable_leaf. by rewrite Hl0.
  - injection H as <- <-. split; [apply evolves_refl|].
    split; [left; split; [done|intros (l & i & [= <-] & Hl); congruence]|].
    intros l. apply reachable_leaf. by rewrite Hl0.
  - destruct (walk (resolveRef refs n) l0 (map KIndex (seq 0 (length es))) h)
      as [h1| |] eqn:Hw1; try discriminate.
    destruct (walk_visits refs _ l0 IH _ _ _ _ Hok Hl0 (fun k Hk => Hk) Hw1)
      as (He1 & Hph1 & Hcl1).
    destruct (evolves_lookup _ _ _ _ _ He1 Hl0) as (c1 & Hc1 & Hcc1).
    rewrite Hc1 in H.
    destruct (walk (resolveRef refs n) l0 (own_keys c1) h1)
      as [h2| |] eqn:Hw2; try discriminate.
    injection H as <- <-.
    pose proof (table_ok_evolves _ _ _ He1 Hok) as Hok1.
    destruct (walk_visits refs _ l0 IH _ _ _ _ Hok1 Hc1 (fun k Hk => Hk) Hw2)
      as (He2 & Hph2 & Hcl2).
    split; [by eapply evolves_trans|].
    split; [left; split; [done|intros (l & i & [= <-] & Hl); congruence]|].
    intros l Hr. apply (clean_evolves refs h1); [done|].
    inversion Hr as [v0|l1 c k w Hc Hk Hr']; subst.
    + intros c k Hc Hk. rewrite Hc1 in Hc. injection Hc as <-.
      apply Hph1. by rewrite <- (own_keys_evolves _ _ _ _ Hcc1).
    + rewrite Hl0 in Hc. injection Hc as <-. by apply (Hcl1 k).
  - destruct (walk (resolveRef refs n) l0 (own_keys (CObject p fs)) h)
      as [h1| |] eqn:Hw1; try discriminate.
    injection H as <- <-.
    destruct (walk_visits refs _ l0 IH _ _ _ _ Hok Hl0 (fun k Hk => Hk) Hw1)
      as (He1 & Hph1 & Hcl1).
    destruct (evolves_lookup _ _ _ _ _ He1 Hl0) as (c1 & Hc1 & Hcc1).
    split; [done|].
    split; [left; split; [done|intros (l & i & [= <-] & Hl); congruence]|].
    intros l Hr. inversion Hr as [v0|l1 c k w Hc Hk Hr']; subst.
    + intros c k Hc Hk. rewrite Hc1 in Hc. injection Hc as <-.
      apply Hph1. by rewrite <- (own_keys_evolves _ _ _ _ Hcc1).
    + rewrite Hl0 in Hc. injection Hc as <-. by apply (Hcl1 k).
  - injection H as <- <-. split; [apply evolves_refl|].
    split; [left; split; [done|intros (l & i & [= <-] & Hl); congruence]|].
    intros l. apply reachable_leaf. by rewrite Hl0.
Qed.

End ResolveRef.

(** *** Loading *)

Lemma pvalue_nested_ind (P : pvalue -> Prop) :
  P PUndefined -> P PNull -> (forall b, P (PBool b)) ->
  (forall x, P (PNumber x)) -> (forall z, P (PBigInt z)) ->
  (forall s, P (PString s)) -> (forall r, P (PRegExp r)) ->
  (forall i, P (PRef i)) ->
  (forall items, Forall P items -> P (PArray items)) ->
  (forall proto fields, Forall (fun kt => P (snd kt)) fields ->
                        P (PObject proto fields)) ->
  forall t, P t.
Proof.
  intros H1 H2 H3 H4 H5 H6 H7 H8 HA HO.
  fix IH 1. intros [| | b | x | z | s | r | i | items | proto fields].
  - exact H1.
  - exact H2.
  - apply H3.
  - apply H4.
  - apply H5.
  - apply H6.
  - apply H7.
  - apply H8.
  - apply HA. induction items as [|t items IHitems]; constructor.
    + apply IH.
    + exact IHitems.
  - apply HO. induction fields as [|[k t] fields IHfields]; constructor.
    + apply IH.
    + exact IHfields.
Qed.

Lemma value_in_wider lo hi lo' hi' v :
  (lo' <= lo)%nat -> (hi <= hi')%nat -> value_in lo hi v -> value_in lo' hi' v.
Proof. destruct v; cbn; try done. lia. Qed.

Lemma solid_wider lo hi lo' hi' c :
  (lo' <= lo)%nat -> (hi <= hi')%nat -> solid lo hi c -> solid lo' hi' c.
Proof.
  intros H1 H2 [Hc Hv]. split; [done|].
  eapply Forall_impl; [done|]. intros v. by apply value_in_wider.
Qed.

Lemma load_each_loads {A B} (f : A -> list cell -> B * list cell) val ok ts :
  Forall (loads f val ok) ts ->
  forall h bs h1,
    load_each f ts h = (bs, h1) ->
    exists new,
      h1 = h ++ new
      /\ Forall (fun b => value_in (length h) (length h1) (val b)) bs
      /\ (forallb ok ts = true -> Forall (solid (length h) (length h1)) new).
Proof.
  induction 1 as [|t ts Ht _ IH]; intros h bs h1 H; cbn in H.
  - injection H as <- <-. exists []. rewrite app_nil_r. by repeat split.
  - destruct (f t h) as [b hm] eqn:Hf.
    destruct (load_each f ts hm) as [bs' h2] eqn:Hrest.
    injection H as <- <-.
    destruct (Ht _ _ _ Hf) as (new1 & -> & Hb & Hs1).
    destruct (IH _ _ _ Hrest) as (new2 & -> & Hbs & Hs2).
    exists (new1 ++ new2). rewrite !length_app in *.
    split; [by rewrite app_assoc|]. split.
    + constructor.
      * eapply value_in_wider; [| |done]; lia.
      * eapply Forall_impl; [done|]. intros b'. apply value_in_wider; lia.
    + cbn [forallb]. intros [Hok1 Hok2]%andb_prop. apply Forall_app. split.
      * eapply Forall_impl; [by apply Hs1|]. intros c. apply solid_wider; lia.
      * eapply Forall_impl; [by apply Hs2|]. intros c. apply solid_wider; lia.
Qed.

Lemma load_loads t : loads load (fun v => v) ref_free t.
Proof.
  induction t as [| | b | x | z | s | r | i | items IH | proto fields IH]
    using pvalue_nested_ind; intros h v h1 H; cbn [load] in H;
    try (injection H as <- <-; exists []; rewrite app_nil_r;
         by repeat split).
  - injection H as <- <-. exists [CRegExp r]. rewrite length_app. cbn.
    split; [done|]. split; [lia|]. intros _. by repeat constructor.
  - injection H as <- <-. exists [CRef i]. rewrite length_app. cbn.
    split; [done|]. split; [lia|]. done.
  - destruct (load_each load items h) as [vs hm] eqn:Hitems.
    injection H as <- <-.
    destruct (load_each_loads _ _ _ _ IH _ _ _ Hitems) as (new & -> & Hvs & Hs).
    exists (new ++ [CArray vs]). rewrite !length_app in *. cbn [length].
    split; [by rewrite app_assoc|]. split; [cbn; lia|].
    cbn [ref_free]. intros Hok. apply Forall_app. split.
    + eapply Forall_impl; [by apply Hs|]. intros c. apply solid_wider; lia.
    + repeat constructor; [done|]. cbn.
      eapply Forall_impl; [done|]. intros c. apply value_in_wider; lia.
  - destruct (load_each _ fields h) as [fs hm] eqn:Hfields.
    injection H as <- <-.
    assert (IH' : Forall (loads (fun (kt : list N * pvalue) h =>
                            let '(v, h1) := load (snd kt) h in ((fst kt, v), h1))
                          snd (fun kt => ref_free (snd kt))) fields).
    { eapply Forall_impl; [done|]. intros [k t] Ht h0 [k' b] h2. cbn.
      destruct (load t h0) as [v0 h3] eqn:Hl. intros [= <- <- <-].
      by apply Ht. }
    destruct (load_each_loads _ _ _ _ IH' _ _ _ Hfields) as (new & -> & Hvs & Hs).
    exists (new ++ [CObject proto fs]). rewrite !length_app in *. cbn [length].
    split; [by rewrite app_assoc|]. split; [cbn; lia|].
    cbn [ref_free]. intros Hok. apply Forall_app. split.
    + eapply Forall_impl; [by apply Hs|]. intros c. apply solid_wider; lia.
    + repeat constructor; [done|]. cbn. apply Forall_fmap.
      eapply Forall_impl; [done|]. intros c. cbn. apply value_in_wider; lia.
Qed.


(** *** No placeholder left *)

Lemma refs_at_cases refs i : refs_at refs i = VUndefined \/ refs_at refs i ∈ refs.
Proof.
  unfold refs_at. destruct (index_of i) as [n|]; [|by left].
  destruct (N.ltb_spec n (N.of_nat (length refs))); [|by left].
  right. apply list_elem_of_In, nth_In. lia.
Qed.







(** ** Whitespace between tokens *)

Lemma white_gap g r p w :
  gap g = true -> starts_token r = true ->
  white (State (g ++ r) p w) = State r (length g + p) w.
Proof.
  intros Hg Hr. unfold white, scan. cbn [rest pos warned].
  rewrite (span_app _ _ _ Hg).
  assert (span WS_CHARS r = ([], r)) as ->.
  { destruct r as [|c r]; [done|]. cbn in Hr. apply negb_true_iff in Hr.
    by apply span_stop. }
  cbn. by rewrite app_nil_r.
Qed.

Lemma follow_cases post :
  follow post = true ->
  post = [] \/ exists c r, post = c :: r
                          /\ c ∈ [13; 10; 9; 32; 44; 93; 125; 59; 58].
Proof.
  destruct post as [|c r]; [by left|]. cbn [follow]. unfold is_follow, WS_CHARS.
  rewrite !orb_true_iff, !N.eqb_eq. intros H. right. exists c, r.
  split; [done|]. rewrite !elem_of_cons. codes. tauto.
Qed.

Ltac follow_split H :=
  apply follow_cases in H as [->|(?c & ?r & -> & H)];
  [|repeat (apply elem_of_cons in H as [->|H]); [..|by apply elem_of_nil in H]].

Lemma follow_starts post :
  follow post = true -> span NUM_CHARS post = ([], post)
                        /\ span is_name_char post = ([], post).
Proof. intros H. follow_split H; done. Qed.

Lemma state_at r w (p q : nat) : p = q -> State r p w = State r q w.
Proof. by intros ->. Qed.

Lemma ok_state_at {A} (v : A) r w (p q : nat) :
  p = q -> Ok (v, State r p w) = Ok (v, State r q w).
Proof. by intros ->. Qed.

Ltac positions :=
  first [apply state_at | apply ok_state_at];
  repeat first [progress cbn [length more map] | rewrite length_app]; lia.

(** *** Strings *)

Lemma parseString_loop_S n result s :
  parseString_loop (S n) result s
  = if see QUOTE s then Ok (result, advance s)
    else if see (ch "\") s then
      let s := advance s in
      if see (ch "u") s then
        (do uffff <- hex4 4 0;
         parseString_loop n (result ++ fromCharCode uffff)) (advance s)
      else
        match STRING_ESC (peek s) with
        | Some e => parseString_loop n (result ++ [e]) (advance s)
        | None => error s
        end
    else parseString_loop n (result ++ text (peek s)) (advance s).
Proof. reflexivity. Qed.

Lemma hex4_digits (h1 h2 h3 h4 : N) :
  is_hex h1 && is_hex h2 && is_hex h3 && is_hex h4 = true ->
  exists u, forall r p w,
    hex4 4 0 (State (h1 :: h2 :: h3 :: h4 :: r) p w) = Ok (u, State r (4 + p) w).
Proof.
  unfold is_hex. intros H.
  apply andb_prop in H as [H H4]. apply andb_prop in H as [H H3].
  apply andb_prop in H as [H1 H2].
  destruct (parseInt16 (Some h1)) as [x1|] eqn:E1; [|done].
  destruct (parseInt16 (Some h2)) as [x2|] eqn:E2; [|done].
  destruct (parseInt16 (Some h3)) as [x3|] eqn:E3; [|done].
  destruct (parseInt16 (Some h4)) as [x4|] eqn:E4; [|done].
  eexists. intros r0 p0 w0. cbn [hex4]. autorewrite with scanner.
  rewrite E1. autorewrite with scanner. rewrite E2. autorewrite with scanner.
  rewrite E3. autorewrite with scanner. rewrite E4. autorewrite with scanner.
  reflexivity.
Qed.

Lemma parseString_loop_agree fuel : forall body acc,
  string_body body = true ->
  agree anything (parseString_loop fuel acc) (body ++ [QUOTE]) (body ++ [QUOTE]).
Proof.
  induction fuel as [|n IH]; intros body acc Hb post post' p p' w v s1 _ _ H;
    [discriminate|].
  rewrite <- !app_assoc in *. cbn [app] in *.
  rewrite parseString_loop_S in *.
  destruct body as [|c body]; cbn [app] in *.
  { autorewrite with scanner in *. rewrite N.eqb_refl in *.
    injection H as <- <-. by exists w. }
  cbn [string_body] in Hb. autorewrite with scanner in *.
  destruct (N.eqb c QUOTE) eqn:Eq; [discriminate|].
  destruct (N.eqb c (ch "\")) eqn:Eb.
  - destruct body as [|e body]; [discriminate|]. cbn [app] in *.
    autorewrite with scanner in *.
    destruct (N.eqb e (ch "u")) eqn:Eu.
    + destruct body as [|h1 [|h2 [|h3 [|h4 body]]]]; try discriminate.
      apply andb_prop in Hb as [Hh Hb]. cbn [app] in *.
      destruct (hex4_digits h1 h2 h3 h4 Hh) as [u Hu].
      unfold bind in *. rewrite Hu in *.
      destruct (IH body (acc ++ fromCharCode u) Hb post post'
                  (4 + S (S p))%nat (4 + S (S p'))%nat w v s1
                  eq_refl eq_refl) as (w1 & -> & H').
      { by rewrite <- app_assoc. }
      exists w1. rewrite <- app_assoc in H'. cbn [app] in H'. rewrite H'.
      split; positions.
    + destruct (STRING_ESC (Some e)) as [x|]; [|discriminate].
      destruct (IH body (acc ++ [x]) Hb post post' (S (S p)) (S (S p')) w v s1
                  eq_refl eq_refl) as (w1 & -> & H').
      { by rewrite <- app_assoc. }
      exists w1. rewrite <- app_assoc in H'. cbn [app] in H'. rewrite H'.
      split; positions.
  - cbn [text] in *.
    destruct (IH body (acc ++ [c]) Hb post post' (S p) (S p') w v s1 eq_refl eq_refl)
      as (w1 & -> & H').
    { by rewrite <- app_assoc. }
    exists w1. rewrite <- app_assoc in H'. cbn [app] in H'. rewrite H'.
    split; positions.
Qed.

(** *** Regular expressions *)

Lemma flag_orders_elem fl :
  existsb (jsstring_eqb fl) flag_orders = true -> fl ∈ flag_orders.
Proof.
  rewrite existsb_exists. intros (x & Hx & E).
  apply jsstring_eqb_eq in E as ->. by apply list_elem_of_In.
Qed.

Lemma regexp_flags_frame fl post p w :
  fl ∈ flag_orders -> follow post = true ->
  regexp_flags (State (fl ++ post) p w) = (fl, State post (length fl + p) w).
Proof.
  intros H Hf. unfold flag_orders in H.
  repeat (apply elem_of_cons in H as [->|H]); [..|by apply elem_of_nil in H];
    follow_split Hf; reflexivity.
Qed.

Lemma parseRegExp_loop_agree V fuel fl : forall body acc,
  pattern_body body = true ->
  fl ∈ flag_orders ->
  agree follow (parseRegExp_loop V fuel acc)
    (body ++ ch "/" :: fl) (body ++ ch "/" :: fl).
Proof.
  induction fuel as [|n IH]; intros body acc Hb Hfl post post' p p' w v s1 Hf Hf' H;
    [discriminate|].
  rewrite <- !app_assoc in *. cbn [app] in *.
  rewrite parseRegExp_loop_S in *.
  destruct body as [|c body]; cbn [app] in *.
  { autorewrite with scanner in *. rewrite N.eqb_refl in *.
    rewrite regexp_flags_frame in * by done.
    destruct (new_RegExp V acc fl) as [r| |]; try discriminate.
    injection H as <- <-. exists w. split; positions. }
  cbn [pattern_body] in Hb. autorewrite with scanner in *.
  destruct (N.eqb c (ch "/")) eqn:Eq; [discriminate|].
  destruct (N.eqb c (ch "\")) eqn:Eb.
  - destruct body as [|e body]; [discriminate|]. cbn [app] in *.
    autorewrite with scanner in *.
    destruct (IH body ((acc ++ text (Some c)) ++ text (Some e)) Hb Hfl
                post post' (S (S p)) (S (S p')) w v s1 Hf Hf')
      as (w1 & -> & H').
    { rewrite <- (app_assoc body). exact H. }
    exists w1. rewrite <- (app_assoc body) in H'. cbn [app] in H'. rewrite H'.
    split; positions.
  - destruct (IH body (acc ++ text (Some c)) Hb Hfl
                post post' (S p) (S p') w v s1 Hf Hf')
      as (w1 & -> & H').
    { rewrite <- (app_assoc body). exact H. }
    exists w1. rewrite <- (app_assoc body) in H'. cbn [app] in H'. rewrite H'.
    split; positions.
Qed.

(** *** Numbers *)

Lemma digits_cons ds :
  digits ds = true -> exists d ds', ds = d :: ds' /\ forallb NUM_CHARS ds = true
                                   /\ NUM_CHARS d = true.
Proof.
  unfold digits. destruct ds as [|d ds']; [done|]. cbn [length Nat.eqb negb andb].
  intros H. exists d, ds'. split; [done|]. split; [done|].
  cbn in H. by apply andb_prop in H as [? _].
Qed.

Lemma digits1_frame ds r p w :
  digits ds = true -> nondigit r = true ->
  digits1 (State (ds ++ r) p w) = Ok (ds, State r (length ds + p) w).
Proof.
  intros Hds Hr. destruct (digits_cons _ Hds) as (d & ds' & -> & Hall & Hd).
  unfold digits1, scan. cbn [app]. autorewrite with scanner. rewrite Hd.
  cbn [rest pos warned]. change (d :: ds' ++ r) with ((d :: ds') ++ r).
  rewrite (span_app _ _ _ Hall).
  assert (span NUM_CHARS r = ([], r)) as ->.
  { destruct r as [|c r]; [done|]. cbn in Hr. apply negb_true_iff in Hr.
    by apply span_stop. }
  cbn [fst snd]. by rewrite app_nil_r.
Qed.

Lemma follow_nondigit post : follow post = true -> nondigit post = true.
Proof. intros H. follow_split H; done. Qed.

Lemma exponent_frame ex result :
  tail_ok (TFloat None ex) = true ->
  forall post p w,
    follow post = true ->
    exponent result (State (exp_text ex ++ post) p w)
    = Ok (result ++ exp_text ex, State post (length (exp_text ex) + p) w).
Proof.
  intros Hok post p w Hf. unfold exponent. cbn [tail_ok andb] in Hok.
  destruct ex as [[[e sign] ds]|]; cbn [exp_text app].
  - apply andb_prop in Hok as [Hok Hds]. apply andb_prop in Hok as [He Hs].
    autorewrite with scanner. rewrite He.
    destruct (digits_cons _ Hds) as (d & ds' & -> & _ & Hd).
    apply NUM_CHARS_bounds in Hd.
    destruct sign as [|c [|]]; [| |done]; cbn [app]; autorewrite with scanner.
    + codes. rewrite !(neqb_false d) by lia. cbn [orb].
      unfold bind. change (d :: ds' ++ post) with ((d :: ds') ++ post).
      rewrite digits1_frame by auto using follow_nondigit.
      cbn [ret app]. apply ok_state_at. cbn [length]. lia.
    + rewrite Hs. autorewrite with scanner.
      unfold bind. change (d :: ds' ++ post) with ((d :: ds') ++ post).
      rewrite digits1_frame by auto using follow_nondigit.
      cbn [ret app]. apply ok_state_at. cbn [length]. lia.
  - rewrite app_nil_r. follow_split Hf; reflexivity.
Qed.

Lemma exp_text_nondigit ex post :
  tail_ok (TFloat None ex) = true -> follow post = true ->
  nondigit (exp_text ex ++ post) = true
  /\ (forall p w, see (ch ".") (State (exp_text ex ++ post) p w) = false)
  /\ (forall p w, see (ch "n") (State (exp_text ex ++ post) p w) = false).
Proof.
  intros Hok Hf. destruct ex as [[[e sign] ds]|]; cbn [exp_text app].
  - cbn [tail_ok andb] in Hok.
    apply andb_prop in Hok as [Hok _]. apply andb_prop in Hok as [He _].
    apply orb_prop in He as [->%N.eqb_eq| ->%N.eqb_eq]; done.
  - follow_split Hf; done.
Qed.

Lemma fraction_frame frac ex result :
  tail_ok (TFloat frac ex) = true ->
  forall post p w,
    follow post = true ->
    fraction result (State (frac_text frac ++ exp_text ex ++ post) p w)
    = Ok (result ++ frac_text frac,
          State (exp_text ex ++ post) (length (frac_text frac) + p) w).
Proof.
  intros Hok post p w Hf. unfold fraction. cbn [tail_ok] in Hok.
  apply andb_prop in Hok as [Hfr Hex].
  assert (Hex' : tail_ok (TFloat None ex) = true) by done.
  destruct (exp_text_nondigit ex post Hex' Hf) as (Hnd & Hdot & _).
  destruct frac as [fp|]; cbn [frac_text app].
  - autorewrite with scanner. rewrite N.eqb_refl. unfold bind.
    rewrite digits1_frame by done. cbn [ret]. apply ok_state_at. cbn [length]. lia.
  - rewrite Hdot, app_nil_r. done.
Qed.

Lemma magnitude_frame neg int tl :
  digits int = true -> tail_ok tl = true ->
  exists v, forall post p w,
    follow post = true ->
    magnitude neg (State ((int ++ tail_text tl) ++ post) p w)
    = Ok (v, State post (length (int ++ tail_text tl) + p) w).
Proof.
  intros Hint Htl.
  destruct tl as [|frac ex]; eexists; intros post p w Hf; unfold magnitude;
    rewrite <- !app_assoc; unfold bind at 1; cbn [tail_text].
  - rewrite digits1_frame by done. cbn [app]. autorewrite with scanner.
    rewrite N.eqb_refl. apply ok_state_at.
    rewrite !length_app. cbn [length]. lia.
  - pose proof Htl as Hok. cbn [tail_ok] in Hok. apply andb_prop in Hok as [Hfr Hex].
    assert (Hex' : tail_ok (TFloat None ex) = true) by done.
    destruct (exp_text_nondigit ex post Hex' Hf) as (Hnd & Hdot & Hn).
    fold (frac_text frac). fold (exp_text ex). rewrite <- app_assoc.
    rewrite digits1_frame.
    2: done.
    2:{ destruct frac; [done|]. exact Hnd. }
    assert (see (ch "n") (State (frac_text frac ++ exp_text ex ++ post)
                            (length int + p) w)
            = false) as ->.
    { destruct frac; [done|]. apply Hn. }
    unfold bind. rewrite (fraction_frame _ _ _ Htl) by done.
    rewrite exponent_frame by done. cbn [ret].
    apply ok_state_at. rewrite !length_app. lia.
Qed.

Lemma parseNumber_frame neg int tl :
  digits int = true -> tail_ok tl = true ->
  exists v, forall post p w,
    follow post = true ->
    parseNumber (State ((sign_text neg ++ int ++ tail_text tl) ++ post) p w)
    = Ok (v, State post (length (sign_text neg ++ int ++ tail_text tl) + p) w).
Proof.
  intros Hint Htl. destruct (magnitude_frame neg int tl Hint Htl) as [v Hv].
  exists v. intros post p w Hf. specialize (Hv post).
  destruct (digits_cons _ Hint) as (d & ds' & -> & _ & Hd).
  apply NUM_CHARS_bounds in Hd.
  unfold parseNumber. destruct neg; cbn [sign_text app] in *.
  - autorewrite with scanner. codes. cbn [N.eqb Pos.eqb]. cbv beta iota zeta.
    autorewrite with scanner. rewrite !(neqb_false d) by lia.
    rewrite Hv by done. apply ok_state_at. cbn [length]. lia.
  - autorewrite with scanner. codes. rewrite !(neqb_false d) by lia.
    cbv beta iota zeta. autorewrite with scanner. rewrite !(neqb_false d) by lia.
    by rewrite Hv.
Qed.

(** *** The dispatch of [parseJson] *)

Lemma white_white s : white (white s) = white s.
Proof.
  unfold white, scan. destruct (span WS_CHARS (rest s)) as [a b] eqn:E.
  cbn [snd rest pos warned].
  assert (span WS_CHARS b = ([], b)) as ->.
  { destruct b as [|c b]; [done|]. apply span_stop.
    apply (span_rest_stop WS_CHARS (rest s) c b). by rewrite E. }
  reflexivity.
Qed.

Lemma parseJson_white V M fuel s : parseJson V M fuel (white s) = parseJson V M fuel s.
Proof. destruct fuel as [|n]; [done|]. cbn [parseJson]. by rewrite white_white. Qed.

Lemma parseJson_gap V M fuel g r p w :
  gap g = true -> starts_token r = true ->
  parseJson V M fuel (State (g ++ r) p w)
  = parseJson V M fuel (State r (length g + p) w).
Proof. intros Hg Hr. by rewrite <- parseJson_white, white_gap. Qed.

Lemma parseJson_at_dollar V M n r p w :
  parseJson V M (S n) (State (ch "$" :: r) p w) = parseRef (State (ch "$" :: r) p w).
Proof. cbn [parseJson]. by rewrite white_stop. Qed.

Lemma parseJson_at_quote V M n r p w :
  parseJson V M (S n) (State (QUOTE :: r) p w)
  = (do str <- parseString n; ret (PString str)) (State (QUOTE :: r) p w).
Proof. cbn [parseJson]. by rewrite white_stop. Qed.

Lemma parseJson_at_slash V M n r p w :
  parseJson V M (S n) (State (ch "/" :: r) p w)
  = parseRegExp V n (State (ch "/" :: r) p w).
Proof. cbn [parseJson]. by rewrite white_stop. Qed.

Lemma parseJson_at_minus V M n r p w :
  parseJson V M (S n) (State (ch "-" :: r) p w)
  = parseNumber (State (ch "-" :: r) p w).
Proof. cbn [parseJson]. by rewrite white_stop. Qed.

Lemma parseJson_at_digit V M n d r p w :
  NUM_CHARS d = true ->
  parseJson V M (S n) (State (d :: r) p w) = parseNumber (State (d :: r) p w).
Proof.
  intros Hd. pose proof (proj1 (NUM_CHARS_bounds d) Hd) as Hb.
  cbn [parseJson]. rewrite white_stop.
  2:{ apply not_true_iff_false. rewrite WS_CHARS_cases. lia. }
  steps. rewrite Hd. by rewrite orb_true_r.
Qed.

Lemma parseJson_at_bracket V M n r p w :
  parseJson V M (S n) (State (ch "[" :: r) p w)
  = parseArray (parseJson V M n) n (State (ch "[" :: r) p w).
Proof. cbn [parseJson]. by rewrite white_stop. Qed.

Lemma parseJson_at_brace V M n r p w :
  parseJson V M (S n) (State (ch "{" :: r) p w)
  = (do obj <- parseObject (parseJson V M n) n; ret (PObject None obj))
      (State (ch "{" :: r) p w).
Proof. cbn [parseJson]. by rewrite white_stop. Qed.

(** *** Atoms *)

Lemma parseRef_frame index post p w :
  forallb NUM_CHARS index = true -> follow post = true ->
  parseRef (State (ch "$" :: index ++ post) p w)
  = Ok (PRef (ToNumber index), State post (length (ch "$" :: index) + p) w).
Proof.
  intros Hi Hf. unfold parseRef, scan. autorewrite with scanner. cbn [rest pos warned].
  rewrite (span_app _ _ _ Hi), (proj1 (follow_starts _ Hf)). cbn [fst snd].
  rewrite app_nil_r. apply ok_state_at. cbn [length]. lia.
Qed.

Lemma parseName_identifier c r post p w :
  is_letter c = true -> forallb is_name_char r = true ->
  span is_name_char post = ([], post) ->
  parseName (State (c :: r ++ post) p w)
  = (c :: r, State post (length (c :: r) + p) w).
Proof.
  intros Hc Hr Hp. unfold parseName, scan. autorewrite with scanner. rewrite Hc.
  cbn [rest pos warned]. rewrite (span_app _ _ _ Hr), Hp. cbn [fst snd].
  rewrite app_nil_r. f_equal. apply state_at. cbn [length]. lia.
Qed.

Lemma keyword_identifier name v :
  keyword name = Some v ->
  exists c r, name = c :: r /\ is_letter c = true /\ forallb is_name_char r = true.
Proof.
  intros Hk. apply keyword_cases in Hk.
  repeat (apply elem_of_cons in Hk as [[= -> ->]|Hk]); [..|by apply elem_of_nil in Hk];
    by eexists _, _.
Qed.

Lemma parseName_frame name v post p w :
  keyword name = Some v -> follow post = true ->
  parseName (State (name ++ post) p w) = (name, State post (length name + p) w).
Proof.
  intros Hk Hf. destruct (keyword_identifier _ _ Hk) as (c & r & -> & Hc & Hr).
  apply parseName_identifier; auto. by apply follow_starts.
Qed.

Lemma letter_starts c : is_letter c = true -> WS_CHARS c = false.
Proof.
  intros H%is_letter_bounds. apply not_true_iff_false. rewrite WS_CHARS_cases. lia.
Qed.

Lemma atom_starts a post :
  atom_ok a = true -> starts_token (atom_text a ++ post) = true.
Proof.
  destruct a as [i|name| |neg int tl|body|body fl]; cbn [atom_ok atom_text];
    intros H; try done.
  - destruct (keyword name) as [v|] eqn:Hk; [|done].
    destruct (keyword_identifier _ _ Hk) as (c & r & -> & Hc & _).
    cbn. by rewrite (letter_starts _ Hc).
  - apply andb_prop in H as [Hint _].
    destruct (digits_cons _ Hint) as (d & ds & -> & _ & Hd).
    destruct neg; [done|]. cbn. apply NUM_CHARS_bounds in Hd.
    apply negb_true_iff, not_true_iff_false. rewrite WS_CHARS_cases. lia.
Qed.

Lemma parseNumber_neg_infinity post p w :
  parseNumber (State (ch "-" :: js "Infinity" ++ post) p w)
  = Ok (PNumber (S754_infinity true), State post (9 + p) w).
Proof. reflexivity. Qed.

Lemma atom_agree V M fuel a g g' :
  atom_ok a = true -> gap g = true -> gap g' = true ->
  agree follow (parseJson V M fuel) (g ++ atom_text a) (g' ++ atom_text a).
Proof.
  intros Ha Hg Hg' post post' p p' w v s1 Hf Hf' H.
  rewrite <- !app_assoc in *.
  rewrite parseJson_gap in * by auto using atom_starts.
  destruct fuel as [|n]; [discriminate|].
  destruct a as [i|name| |neg int tl|body|body fl]; cbn [atom_ok atom_text] in *.
  - cbn [app] in *. rewrite parseJson_at_dollar, parseRef_frame in * by done.
    injection H as <- <-. exists w. split; positions.
  - destruct (keyword name) as [v0|] eqn:Hk; [|done].
    destruct (keyword_identifier _ _ Hk) as (c & r & Hname & Hc & _).
    rewrite (parseJson_keyword V M n _ name (State post (length name + (length g + p)) w) v0)
      in H.
    2:{ subst name. cbn [app]. rewrite white_stop by by apply letter_starts.
        by apply (parseName_frame (c :: r) v0). }
    2: done.
    rewrite (parseJson_keyword V M n _ name (State post' (length name + (length g' + p')) w) v0).
    2:{ subst name. cbn [app]. rewrite white_stop by by apply letter_starts.
        by apply (parseName_frame (c :: r) v0). }
    2: done.
    injection H as <- <-. exists w. split; positions.
  - change (js "-Infinity") with (ch "-" :: js "Infinity") in *. cbn [app] in *.
    rewrite parseJson_at_minus, parseNumber_neg_infinity in *.
    injection H as <- <-. exists w.
    replace (length (g ++ ch "-" :: js "Infinity")) with (9 + length g)%nat
      by (rewrite length_app; cbn; lia).
    replace (length (g' ++ ch "-" :: js "Infinity")) with (9 + length g')%nat
      by (rewrite length_app; cbn; lia).
    split; positions.
  - apply andb_prop in Ha as [Hint Htl].
    destruct (parseNumber_frame neg int tl Hint Htl) as [v0 Hv0].
    assert (Hd : forall r q, parseJson V M (S n)
                   (State ((sign_text neg ++ int ++ tail_text tl) ++ r) q w)
                 = parseNumber (State ((sign_text neg ++ int ++ tail_text tl) ++ r) q w)).
    { intros r q. destruct (digits_cons _ Hint) as (d & ds & -> & _ & Hd).
      destruct neg; cbn [sign_text app].
      - apply parseJson_at_minus.
      - by apply parseJson_at_digit. }
    rewrite Hd, Hv0 in * by done. injection H as <- <-.
    exists w. split; positions.
  - unfold quoted in *. cbn [app] in *. rewrite parseJson_at_quote in *.
    unfold bind, parseString in *. autorewrite with scanner in *.
    destruct (parseString_loop n [] (State ((body ++ [QUOTE]) ++ post) (S (length g + p)) w))
      as [[str s2]| |] eqn:Hs; try discriminate.
    injection H as <- <-.
    destruct (parseString_loop_agree n body [] Ha post post' _ (S (length g' + p')) w
                str s2 eq_refl eq_refl Hs) as (w1 & -> & Hs').
    rewrite Hs'. cbn [ret].
    exists w1. split; positions.
  - apply andb_prop in Ha as [Ha Hfl]. apply andb_prop in Ha as [Hne Hb].
    apply flag_orders_elem in Hfl.
    unfold regexp_literal in *. cbn [app] in *. rewrite parseJson_at_slash in *.
    unfold parseRegExp in *. autorewrite with scanner in *.
    assert (E : forall r q, see (ch "/") (State ((body ++ ch "/" :: fl) ++ r) q w)
                            = false).
    { intros r q. destruct body as [|c body]; [done|]. cbn [app].
      autorewrite with scanner. cbn [pattern_body] in Hb.
      by destruct (c =? ch "/"). }
    rewrite !E in *.
    destruct (parseRegExp_loop_agree V n fl body [] Hb Hfl post post' _
                (S (length g' + p')) w v s1 Hf Hf' H) as (w1 & -> & H').
    rewrite H'. exists w1. split; positions.
Qed.

(** *** Texts of lists *)

Lemma separated_more sep t ts : separated sep (t :: ts) = t ++ more sep ts.
Proof.
  revert t. induction ts as [|t' ts IH]; intros t.
  - cbn. by rewrite app_nil_r.
  - change (separated sep (t :: t' :: ts))
      with (t ++ sep :: separated sep (t' :: ts)).
    by rewrite IH.
Qed.

Lemma members_keyed m ms :
  separated (ch ",") (map (member_text render) (m :: ms)) ++ [ch "}"]
  = fst (fst (fst m)) ++ keyed (m :: ms).
Proof.
  revert m. induction ms as [|m' ms IH]; intros m.
  - cbn [map separated keyed]. unfold member_text. by rewrite <- !app_assoc.
  - change (map (member_text render) (m :: m' :: ms))
      with (member_text render m :: map (member_text render) (m' :: ms)).
    change (separated (ch ",") (member_text render m
                                :: map (member_text render) (m' :: ms)))
      with (member_text render m
              ++ ch "," :: separated (ch ",") (map (member_text render) (m' :: ms))).
    rewrite <- app_assoc. cbn [app]. rewrite IH.
    cbn [keyed]. unfold member_text. rewrite <- !app_assoc. cbn [app].
    by rewrite <- ?app_assoc.
Qed.

Lemma strip_items its its' :
  map (fun it : list N * doc * list N => ([] : list N, strip (snd (fst it)), [] : list N)) its
  = map (fun it => ([], strip (snd (fst it)), [])) its' ->
  Forall2 same_item its its'.
Proof.
  revert its'. induction its as [|it its IH]; intros [|it' its']; cbn; try done.
  intros [= H1 H2]. constructor; [done|by apply IH].
Qed.

Lemma strip_members
    (ms ms' : list (list N * list N * list N * (list N * doc * list N))) :
  map (fun m => ([] : list N, snd (fst (fst m)), [] : list N,
                 ([] : list N, strip (snd (fst (snd m))), [] : list N))) ms
  = map (fun m => ([], snd (fst (fst m)), [],
                   ([], strip (snd (fst (snd m))), []))) ms' ->
  Forall2 same_member ms ms'.
Proof.
  revert ms'. induction ms as [|m ms IH]; intros [|m' ms']; cbn; try done.
  intros [= H1 H2 H3]. constructor; [done|by apply IH].
Qed.

Lemma render_starts_value d post :
  doc_ok d = true -> starts_value (render d ++ post) = true.
Proof.
  assert (Hl : forall c r, is_letter c = true -> starts_value (c :: r) = true).
  { intros c r H%is_letter_bounds. cbn. apply andb_true_intro. split.
    - apply negb_true_iff, not_true_iff_false. rewrite WS_CHARS_cases. lia.
    - apply negb_true_iff, N.eqb_neq. codes. lia. }
  assert (Hd : forall c r, NUM_CHARS c = true -> starts_value (c :: r) = true).
  { intros c r H%NUM_CHARS_bounds. cbn. apply andb_true_intro. split.
    - apply negb_true_iff, not_true_iff_false. rewrite WS_CHARS_cases. lia.
    - apply negb_true_iff, N.eqb_neq. codes. lia. }
  assert (Ht : forall tag r, tag_ok tag = true ->
                starts_value (tag ++ ch "{" :: r) = true).
  { intros [|c t] r H; [done|]. cbn [tag_ok] in H.
    apply andb_prop in H as [H _]. apply andb_prop in H as [H _]. by apply Hl. }
  destruct d as [a|g|items|tag g|tag ms]; cbn [doc_ok render]; intros H; try done.
  - destruct a as [i|name| |neg int tl|body|body fl]; cbn [atom_ok atom_text] in *;
      try done.
    + destruct (keyword name) as [v|] eqn:Hk; [|done].
      destruct (keyword_identifier _ _ Hk) as (c & r & -> & Hc & _). by apply Hl.
    + apply andb_prop in H as [Hint _].
      destruct (digits_cons _ Hint) as (c & ds & -> & _ & Hc).
      destruct neg; [done|]. by apply Hd.
  - apply andb_prop in H as [H _]. rewrite <- app_assoc. by apply Ht.
  - apply andb_prop in H as [H _]. apply andb_prop in H as [H _].
    rewrite <- app_assoc. by apply Ht.
Qed.

Lemma starts_value_token r : starts_value r = true -> starts_token r = true.
Proof. destruct r as [|c r]; [done|]. cbn. by intros [? _]%andb_prop. Qed.

Lemma starts_value_see r p w :
  starts_value r = true -> see (ch "]") (State r p w) = false.
Proof.
  destruct r as [|c r]; [done|]. cbn. intros [_ H]%andb_prop.
  by apply negb_true_iff in H.
Qed.

Lemma follow_gap g r :
  gap g = true -> follow r = true -> follow (g ++ r) = true.
Proof.
  destruct g as [|c g]; [done|]. cbn. intros [H _]%andb_prop _.
  unfold is_follow. by rewrite H.
Qed.

(** *** Arrays *)

Lemma parseArray_loop_S pj n result s :
  parseArray_loop pj (S n) result s
  = if see (ch ",") s then
      (do v <- pj;
       fun s => parseArray_loop pj n (result ++ [v]) (white s)) (advance s)
    else if see (ch "]") s then Ok (PArray result, advance s)
    else error s.
Proof. reflexivity. Qed.

Lemma more_follow sep texts r :
  is_follow sep = true -> follow r = true -> follow (more sep texts ++ r) = true.
Proof. by destruct texts. Qed.

Lemma more_starts sep texts r :
  WS_CHARS sep = false -> starts_token r = true ->
  starts_token (more sep texts ++ r) = true.
Proof. destruct texts; [done|]. cbn. by intros ->. Qed.

Lemma more_cons sep t ts e r :
  (more sep (t :: ts) ++ e) ++ r = sep :: t ++ (more sep ts ++ e) ++ r.
Proof. cbn. by rewrite <- !app_assoc. Qed.

Lemma item_ok_parts it :
  item_ok it = true ->
  gap (fst (fst it)) = true /\ doc_ok (snd (fst it)) = true /\ gap (snd it) = true.
Proof. unfold item_ok. by intros [[? ?]%andb_prop ?]%andb_prop. Qed.

(** One item in front of [T]: the value is read alike, and the gap behind
    it is skipped. *)
Lemma item_agree pj it it' T T' post post' p p' w :
  reads_alike pj ->
  same_item it it' -> item_ok it = true -> item_ok it' = true ->
  follow (T ++ post) = true -> follow (T' ++ post') = true ->
  starts_token (T ++ post) = true -> starts_token (T' ++ post') = true ->
  forall v s1,
    pj (State (item_text render it ++ T ++ post) p w) = Ok (v, s1) ->
    exists w1,
      white s1 = State (T ++ post) (length (item_text render it) + p) w1
      /\ exists s1',
          pj (State (item_text render it' ++ T' ++ post') p' w) = Ok (v, s1')
          /\ white s1' = State (T' ++ post') (length (item_text render it') + p') w1.
Proof.
  intros Hpj Hsame Hok Hok' Hf Hf' Hs Hs' v s1 H.
  destruct (item_ok_parts _ Hok) as (Hgb & Hd & Hga).
  destruct (item_ok_parts _ Hok') as (Hgb' & Hd' & Hga').
  destruct it as [[gb d] ga], it' as [[gb' d'] ga']. unfold item_text in *.
  cbn [fst snd] in *.
  replace ((gb ++ render d ++ ga) ++ T ++ post)
    with ((gb ++ render d) ++ ga ++ T ++ post) in H by by rewrite <- !app_assoc.
  destruct (Hpj d d' gb gb' Hsame Hd Hd' Hgb Hgb' (ga ++ T ++ post)
              (ga' ++ T' ++ post') p p' w v s1) as (w1 & -> & H');
    [by apply follow_gap..|done|].
  exists w1. rewrite white_gap by done. split; [positions|].
  eexists. split.
  - replace ((gb' ++ render d' ++ ga') ++ T' ++ post')
      with ((gb' ++ render d') ++ ga' ++ T' ++ post') by by rewrite <- !app_assoc.
    exact H'.
  - rewrite white_gap by done. positions.
Qed.

Lemma parseArray_loop_agree pj :
  reads_alike pj ->
  forall its its',
    Forall2 same_item its its' ->
    forallb item_ok its = true -> forallb item_ok its' = true ->
    forall m acc,
      agree anything (parseArray_loop pj m acc)
        (more (ch ",") (map (item_text render) its) ++ [ch "]"])
        (more (ch ",") (map (item_text render) its') ++ [ch "]"]).
Proof.
  intros Hpj its its' H2.
  induction H2 as [|it it' its its' Hsame _ IH];
    intros Hok Hok' m acc post post' p p' w v s1 _ _ H;
    (destruct m as [|m]; [discriminate|]); rewrite parseArray_loop_S in *.
  - cbn [map more app] in *. autorewrite with scanner in *. codes.
    cbn [N.eqb Pos.eqb] in *. injection H as <- <-. exists w. split; positions.
  - cbn [forallb] in Hok, Hok'.
    apply andb_prop in Hok as [Hit Hok]. apply andb_prop in Hok' as [Hit' Hok'].
    cbn [map] in H |- *. rewrite !more_cons in *.
    autorewrite with scanner in *. rewrite N.eqb_refl in *.
    unfold bind in *.
    set (T := more (ch ",") (map (item_text render) its) ++ [ch "]"]) in *.
    set (T' := more (ch ",") (map (item_text render) its') ++ [ch "]"]) in *.
    assert (HT : forall r, follow (T ++ r) = true /\ starts_token (T ++ r) = true).
    { intros r. unfold T. rewrite <- app_assoc.
      split; [by apply more_follow|by apply more_starts]. }
    assert (HT' : forall r, follow (T' ++ r) = true /\ starts_token (T' ++ r) = true).
    { intros r. unfold T'. rewrite <- app_assoc.
      split; [by apply more_follow|by apply more_starts]. }
    destruct (pj (State (item_text render it ++ T ++ post) (S p) w))
      as [[v1 s2]| |] eqn:Hv; try discriminate.
    destruct (item_agree pj it it' T T' post post' (S p) (S p') w Hpj Hsame Hit Hit'
                (proj1 (HT post)) (proj1 (HT' post')) (proj2 (HT post))
                (proj2 (HT' post')) v1 s2 Hv)
      as (w1 & Hw & s2' & Hv' & Hw').
    rewrite Hv'. rewrite Hw in H. rewrite Hw'.
    destruct (IH Hok Hok' m (acc ++ [v1]) post post' _
                (length (item_text render it') + S p')%nat w1 v s1 eq_refl eq_refl H)
      as (w2 & -> & H').
    rewrite H'. exists w2. unfold T, T'. split; positions.
Qed.

(** *** Objects *)

Lemma parseObject_loop_S pj fuel n result s :
  parseObject_loop pj fuel (S n) result s
  = (do key <- parseString fuel;
     fun s =>
       let s := white s in
       if negb (see (ch ":") s) then error s
       else
         (do v <- pj;
          fun s =>
            let result := obj_set key v result in
            let s := white s in
            if see (ch ",") s then
              parseObject_loop pj fuel n result (white (advance s))
            else if see (ch "}") s then Ok (result, advance s)
            else error s) (advance s)) s.
Proof. reflexivity. Qed.

Lemma member_ok_parts m :
  member_ok m = true ->
  gap (fst (fst (fst m))) = true /\ string_body (snd (fst (fst m))) = true
  /\ gap (snd (fst m)) = true /\ item_ok (snd m) = true.
Proof.
  unfold member_ok. by intros [[[? ?]%andb_prop ?]%andb_prop ?]%andb_prop.
Qed.

Lemma keyed_starts m ms r : starts_token (keyed (m :: ms) ++ r) = true.
Proof. done. Qed.

Lemma parseObject_loop_agree pj fuel :
  reads_alike pj ->
  forall ms ms',
    Forall2 same_member ms ms' ->
    ms <> [] ->
    forallb member_ok ms = true -> forallb member_ok ms' = true ->
    forall n acc,
      agree anything (parseObject_loop pj fuel n acc) (keyed ms) (keyed ms').
Proof.
  intros Hpj ms ms' H2.
  induction H2 as [|m m' ms ms' [Hkey Hsame] Hrest IH]; [done|].
  intros _ Hok Hok' n acc post post' p p' w v s1 _ _ H.
  destruct n as [|n]; [discriminate|]. rewrite parseObject_loop_S in *.
  cbn [forallb] in Hok, Hok'.
  apply andb_prop in Hok as [Hm Hok]. apply andb_prop in Hok' as [Hm' Hok'].
  destruct (member_ok_parts _ Hm) as (Hgb & Hbody & Hg1 & Hit).
  destruct (member_ok_parts _ Hm') as (Hgb' & Hbody' & Hg1' & Hit').
  destruct m as [[[gb key] g1] it], m' as [[[gb' key'] g1'] it'].
  cbn [fst snd] in *. subst key'.
  set (T := match ms with
            | [] => [ch "}"]
            | m0 :: _ => ch "," :: fst (fst (fst m0)) ++ keyed ms
            end) in *.
  set (T' := match ms' with
             | [] => [ch "}"]
             | m0 :: _ => ch "," :: fst (fst (fst m0)) ++ keyed ms'
             end) in *.
  assert (HT : forall r, follow (T ++ r) = true /\ starts_token (T ++ r) = true).
  { intros r. unfold T. by destruct ms. }
  assert (HT' : forall r, follow (T' ++ r) = true /\ starts_token (T' ++ r) = true).
  { intros r. unfold T'. by destruct ms'. }
  assert (Etext : forall (g1 : list N) it (T r : list N),
            (quoted key ++ g1 ++ ch ":" :: item_text render it ++ T) ++ r
            = QUOTE :: (key ++ [QUOTE]) ++ g1 ++ ch ":" :: item_text render it ++ T ++ r).
  { intros. unfold quoted. by repeat (progress (rewrite <- ?app_assoc; cbn [app])). }
  cbn [keyed fst snd] in H |- *. fold T in H. fold T'. rewrite !Etext in *.

  unfold bind at 1 in H. unfold bind at 1. unfold parseString in *.
  autorewrite with scanner in *.
  destruct (parseString_loop fuel []
              (State ((key ++ [QUOTE]) ++ g1 ++ ch ":" :: item_text render it ++ T ++ post)
                 (S p) w)) as [[k s2]| |] eqn:Hk; try discriminate.
  destruct (parseString_loop_agree fuel key [] Hbody _
              (g1' ++ ch ":" :: item_text render it' ++ T' ++ post') _ (S p') w k s2
              eq_refl eq_refl Hk) as (w1 & -> & Hk').
  rewrite Hk'. cbv zeta in *. rewrite white_gap in * by done.
  autorewrite with scanner in *. rewrite N.eqb_refl in *. cbn [negb] in *.
  unfold bind in *.
  destruct (pj (State (item_text render it ++ T ++ post)
                  (S (length g1 + (length (key ++ [QUOTE]) + S p))) w1))
    as [[v1 s3]| |] eqn:Hv; try discriminate.
  destruct (item_agree pj it it' T T' post post' _
              (S (length g1' + (length (key ++ [QUOTE]) + S p'))) w1 Hpj Hsame Hit Hit'
              (proj1 (HT post)) (proj1 (HT' post')) (proj2 (HT post))
              (proj2 (HT' post')) v1 s3 Hv)
    as (w2 & Hw & s3' & Hv' & Hw').
  rewrite Hv', Hw'. rewrite Hw in H.
  inversion Hrest as [|m0 m0' ms0 ms0' Hm0 Hrest0]; subst.
  - subst T T'. cbn [app] in *. autorewrite with scanner in *. codes.
    cbn [N.eqb Pos.eqb] in *. injection H as <- <-. exists w2.
    split; unfold quoted; positions.
  - subst T T'. cbn [app] in *. autorewrite with scanner in *.
    rewrite N.eqb_refl in *.
    pose proof Hok as Hok0. pose proof Hok' as Hok0'. cbn [forallb] in Hok0, Hok0'.
    apply andb_prop in Hok0 as [Hm1 _]. apply andb_prop in Hok0' as [Hm1' _].
    destruct (member_ok_parts _ Hm1) as (Hgb1 & _).
    destruct (member_ok_parts _ Hm1') as (Hgb1' & _).
    rewrite <- !app_assoc in *.
    rewrite white_gap in * by auto using keyed_starts.
    destruct (IH ltac:(done) Hok Hok' n (obj_set k v1 acc) post post' _
                (length (fst (fst (fst m0'))) +
                 S (length (item_text render it') +
                    S (length g1' + (length (key ++ [QUOTE]) + S p'))))%nat
                w2 v s1 eq_refl eq_refl H) as (w3 & -> & H').
    rewrite H'. exists w3. split; unfold quoted; cbn [keyed fst snd]; positions.
Qed.

(** *** Values *)

Lemma agree_anything {A : Type} (P : jsstring -> bool) (parse : parser A) t t' :
  agree anything parse t t' -> agree P parse t t'.
Proof. intros H post post' p p' w v s1 _ _. by apply H. Qed.

Lemma agree_gap V M fuel g g' t t' :
  gap g = true -> gap g' = true ->
  (forall r, starts_token (t ++ r) = true) ->
  (forall r, starts_token (t' ++ r) = true) ->
  agree follow (parseJson V M fuel) t t' ->
  agree follow (parseJson V M fuel) (g ++ t) (g' ++ t').
Proof.
  intros Hg Hg' Ht Ht' Ha post post' p p' w v s1 Hf Hf' H.
  rewrite <- !app_assoc in *. rewrite parseJson_gap in * by done.
  destruct (Ha post post' _ (length g' + p')%nat w v s1 Hf Hf' H) as (w1 & -> & H').
  rewrite H'. exists w1. split; positions.
Qed.

Lemma array0_agree pj n g g' :
  gap g = true -> gap g' = true ->
  agree anything (parseArray pj n) (render (DArray0 g)) (render (DArray0 g')).
Proof.
  intros Hg Hg' post post' p p' w v s1 _ _ H. cbn [render app] in *.
  unfold parseArray in *. autorewrite with scanner in *. cbv zeta in *.
  rewrite <- !app_assoc in *. rewrite white_gap in * by done.
  cbn [app] in *. autorewrite with scanner in *. rewrite N.eqb_refl in *.
  injection H as <- <-. exists w. split; positions.
Qed.

Lemma array_text it its :
  render (DArray (it :: its))
  = ch "[" :: fst (fst it) ++ item_text render ([], snd (fst it), snd it)
      ++ (more (ch ",") (map (item_text render) its) ++ [ch "]"]).
Proof.
  cbn [render]. rewrite map_cons, separated_more. unfold item_text.
  cbn [fst snd app]. by rewrite <- !app_assoc.
Qed.

Lemma array_agree pj n its its' :
  reads_alike pj ->
  Forall2 same_item its its' ->
  negb (length its =? 0)%nat = true ->
  forallb item_ok its = true -> forallb item_ok its' = true ->
  agree anything (parseArray pj n) (render (DArray its)) (render (DArray its')).
Proof.
  intros Hpj H2 Hne Hok Hok' post post' p p' w v s1 _ _ H.
  destruct H2 as [|it it' its its' Hsame H2]; [done|]. clear Hne.
  cbn [forallb] in Hok, Hok'.
  apply andb_prop in Hok as [Hit Hok]. apply andb_prop in Hok' as [Hit' Hok'].
  destruct (item_ok_parts _ Hit) as (Hgb & Hd & Hga).
  destruct (item_ok_parts _ Hit') as (Hgb' & Hd' & Hga').
  destruct it as [[gb d] ga], it' as [[gb' d'] ga'].
  rewrite !array_text in *. cbn [fst snd] in *.
  set (T := more (ch ",") (map (item_text render) its) ++ [ch "]"]) in *.
  set (T' := more (ch ",") (map (item_text render) its') ++ [ch "]"]) in *.
  assert (HT : follow (T ++ post) = true /\ starts_token (T ++ post) = true).
  { unfold T. rewrite <- app_assoc. split; [by apply more_follow|by apply more_starts]. }
  assert (HT' : follow (T' ++ post') = true /\ starts_token (T' ++ post') = true).
  { unfold T'. rewrite <- app_assoc. split; [by apply more_follow|by apply more_starts]. }
  assert (Hsv : forall d ga (r : list N), doc_ok d = true ->
            starts_value (item_text render ([], d, ga) ++ r) = true).
  { intros d0 ga0 r H0. unfold item_text. cbn [fst snd app].
    rewrite <- app_assoc. by apply render_starts_value. }
  assert (Etext : forall (a b c r : list N) q,
            (q :: a ++ b ++ c) ++ r = q :: a ++ b ++ c ++ r).
  { intros. cbn [app]. by rewrite <- !app_assoc. }
  rewrite !Etext in *. clear Etext.
  unfold parseArray in *. autorewrite with scanner in *. cbv zeta in *.
  rewrite white_gap in * by auto using starts_value_token.
  rewrite starts_value_see in * by auto.
  unfold bind in *.
  destruct (pj (State (item_text render ([], d, ga) ++ T ++ post) (length gb + S p) w))
    as [[v1 s2]| |] eqn:Hv; try discriminate.
  destruct (item_agree pj ([], d, ga) ([], d', ga') T T' post post'
              (length gb + S p)%nat (length gb' + S p')%nat w Hpj Hsame)
    with (v := v1) (s1 := s2) as (w1 & Hw & s2' & Hv' & Hw'); try tauto.
  { unfold item_ok. cbn [fst snd gap]. by rewrite Hd, Hga. }
  { unfold item_ok. cbn [fst snd gap]. by rewrite Hd', Hga'. }
  rewrite Hv', Hw'. rewrite Hw in H.
  destruct (parseArray_loop_agree pj Hpj its its' H2 Hok Hok' n [v1] post post' _
              (length (item_text render ([], d', ga')) + (length gb' + S p'))%nat
              w1 v s1 eq_refl eq_refl H) as (w2 & -> & H').
  fold T' in H'. rewrite H'. exists w2. split; unfold T, T'; positions.
Qed.

Lemma object0_agree pj n g g' :
  gap g = true -> gap g' = true ->
  agree anything (parseObject pj n) (ch "{" :: g ++ [ch "}"]) (ch "{" :: g' ++ [ch "}"]).
Proof.
  intros Hg Hg' post post' p p' w v s1 _ _ H. cbn [app] in *.
  unfold parseObject in *. autorewrite with scanner in *. cbv zeta in *.
  rewrite <- !app_assoc in *. rewrite white_gap in * by done.
  cbn [app] in *. autorewrite with scanner in *. rewrite N.eqb_refl in *.
  injection H as <- <-. exists w. split; positions.
Qed.

Lemma object_agree pj n ms ms' :
  reads_alike pj ->
  Forall2 same_member ms ms' ->
  negb (length ms =? 0)%nat = true ->
  forallb member_ok ms = true -> forallb member_ok ms' = true ->
  agree anything (parseObject pj n)
    (ch "{" :: separated (ch ",") (map (member_text render) ms) ++ [ch "}"])
    (ch "{" :: separated (ch ",") (map (member_text render) ms') ++ [ch "}"]).
Proof.
  intros Hpj H2 Hne Hok Hok' post post' p p' w v s1 _ _ H.
  pose proof H2 as H2'.
  destruct H2' as [|m m' ms ms' Hsame H2']; [done|]. clear Hne.
  rewrite !members_keyed in *.
  pose proof Hok as Hok0. pose proof Hok' as Hok0'. cbn [forallb] in Hok0, Hok0'.
  apply andb_prop in Hok0 as [Hm _]. apply andb_prop in Hok0' as [Hm' _].
  destruct (member_ok_parts _ Hm) as (Hgb & _).
  destruct (member_ok_parts _ Hm') as (Hgb' & _).
  cbn [app] in *. rewrite <- !app_assoc in *.
  unfold parseObject in *. autorewrite with scanner in *. cbv zeta in *.
  rewrite white_gap in * by auto using keyed_starts.
  assert (Hq : forall r q w0, see (ch "}") (State (keyed (m :: ms) ++ r) q w0) = false)
    by done.
  assert (Hq' : forall r q w0, see (ch "}") (State (keyed (m' :: ms') ++ r) q w0) = false)
    by done.
  rewrite Hq in H. rewrite Hq'.
  destruct (parseObject_loop_agree pj n Hpj _ _ H2 ltac:(done) Hok Hok' n [] post post'
              _ (length (fst (fst (fst m'))) + S p')%nat w v s1 eq_refl eq_refl H)
    as (w1 & -> & H').
  rewrite H'. exists w1. split; positions.
Qed.

Lemma parseJson_at_tag V M n tag r p w :
  tag_ok tag = true ->
  parseJson V M (S n) (State (tag ++ ch "{" :: r) p w)
  = (do obj <- parseObject (parseJson V M n) n;
     fun s =>
       Ok (PObject (match tag with [] => None | _ :: _ => M tag end) obj,
           match tag, M tag with
           | _ :: _, None => warn tag s
           | _, _ => s
           end)) (State (ch "{" :: r) (length tag + p) w).
Proof.
  intros Ht. destruct tag as [|c t].
  { cbn [app length]. rewrite parseJson_at_brace. unfold bind, ret.
    by destruct (parseObject _ _ _) as [[? ?]| |]. }
  unfold tag_ok in Ht. apply andb_prop in Ht as [[Hc Ht]%andb_prop Hk].
  destruct (keyword (c :: t)) eqn:Ek; [discriminate|]. clear Hk.
  pose proof (proj1 (is_letter_bounds _) Hc) as Hb.
  assert (Hw : WS_CHARS c = false).
  { apply not_true_iff_false. rewrite WS_CHARS_cases. lia. }
  cbn [parseJson app]. rewrite white_stop by done.
  autorewrite with scanner.
  assert (Hn : NUM_CHARS c = false).
  { apply not_true_iff_false. intros ?%NUM_CHARS_bounds. lia. }
  rewrite Hn.
  repeat match goal with
         | |- context [N.eqb c ?k] =>
             replace (N.eqb c k) with false
               by (symmetry; apply N.eqb_neq; codes; lia)
         end.
  cbn [orb]. cbv iota.
  rewrite parseName_identifier by done. rewrite Ek.
  autorewrite with scanner. rewrite N.eqb_refl. cbv iota. unfold bind.
  by destruct (parseObject _ _ _) as [[obj s]| |].
Qed.

Lemma tagged_agree V M n tag body body' :
  tag_ok tag = true ->
  agree anything (parseObject (parseJson V M n) n) (ch "{" :: body) (ch "{" :: body') ->
  agree follow (parseJson V M (S n)) (tag ++ ch "{" :: body) (tag ++ ch "{" :: body').
Proof.
  intros Ht Ha post post' p p' w v s1 _ _ H.
  rewrite <- !app_assoc in *. cbn [app] in *.
  rewrite parseJson_at_tag in * by done. unfold bind in *.
  destruct (parseObject (parseJson V M n) n (State (ch "{" :: body ++ post) (length tag + p) w))
    as [[obj s2]| |] eqn:Ho; try discriminate.
  destruct (Ha post post' _ (length tag + p')%nat w obj s2 eq_refl eq_refl Ho)
    as (w1 & -> & H').
  cbn [app] in H'. rewrite H'. injection H as <- <-.
  destruct tag as [|c t]; [|destruct (M (c :: t))]; eexists; split; unfold warn;
    cbn [rest pos warned]; positions.
Qed.

Lemma tag_starts tag r : tag_ok tag = true -> starts_token (tag ++ ch "{" :: r) = true.
Proof.
  destruct tag as [|c t]; [done|]. unfold tag_ok.
  intros [[Hc%is_letter_bounds _]%andb_prop _]%andb_prop. cbn.
  apply negb_true_iff, not_true_iff_false. rewrite WS_CHARS_cases. lia.
Qed.

(** [parseJson] reads two documents with the same tokens alike. *)
Lemma parseJson_agree V M fuel : reads_alike (parseJson V M fuel).
Proof.
  induction fuel as [|n IH]; intros d d' g g' Hs Hd Hd' Hg Hg'.
  { intros post post' p p' w v s1 _ _ H. discriminate. }
  destruct d as [a|g0|its|tag g0|tag ms], d' as [a'|g0'|its'|tag' g0'|tag' ms'];
    cbn [strip] in Hs; try discriminate.
  - injection Hs as <-. by apply atom_agree.
  - apply agree_gap; try done. rewrite <- (app_nil_l (render (DArray0 g0))).
    rewrite <- (app_nil_l (render (DArray0 g0'))).
    intros post post' p p' w v s1 _ _ H. cbn [app render] in *.
    rewrite parseJson_at_bracket in *.
    by apply (array0_agree _ n g0 g0' Hd Hd' post post' p p' w v s1).
  - injection Hs as Hs. apply strip_items in Hs.
    cbn [doc_ok] in Hd, Hd'.
    apply andb_prop in Hd as [Hne Hok]. apply andb_prop in Hd' as [Hne' Hok'].
    apply agree_gap; try done.
    intros post post' p p' w v s1 _ _ H. cbn [app render] in *.
    rewrite parseJson_at_bracket in *.
    by apply (array_agree _ n its its' IH Hs Hne Hok Hok' post post' p p' w v s1).
  - injection Hs as <-. cbn [doc_ok] in Hd, Hd'.
    apply andb_prop in Hd as [Ht Hg0]. apply andb_prop in Hd' as [_ Hg0'].
    cbn [render]. apply agree_gap; try done; try (intros r; rewrite <- app_assoc; by apply tag_starts).
    refine (tagged_agree V M n tag _ _ Ht _). by apply object0_agree.
  - injection Hs as <- Hs. apply strip_members in Hs. cbn [doc_ok] in Hd, Hd'.
    apply andb_prop in Hd as [[Ht Hne]%andb_prop Hok].
    apply andb_prop in Hd' as [[_ Hne']%andb_prop Hok'].
    cbn [render]. apply agree_gap; try done; try (intros r; rewrite <- app_assoc; by apply tag_starts).
    refine (tagged_agree V M n tag _ _ Ht _). by apply object_agree.
Qed.

(** *** Statements *)

Lemma more_app sep t ts r :
  more sep (t :: ts) ++ r = sep :: t ++ more sep ts ++ r.
Proof. cbn. by rewrite <- app_assoc. Qed.

Lemma statements_loop_agree V M fuel :
  forall sts sts',
    Forall2 same_item sts sts' ->
    forallb item_ok sts = true -> forallb item_ok sts' = true ->
    forall n acc,
      agree at_end (statements_loop V M fuel n acc)
        (more (ch ";") (map (item_text render) sts))
        (more (ch ";") (map (item_text render) sts')).
Proof.
  intros sts sts' H2.
  induction H2 as [|st st' sts sts' Hsame _ IH];
    intros Hok Hok' n acc post post' p p' w v s1 Hp Hp' H;
    (destruct n as [|n]; [discriminate|]);
    destruct post; try discriminate; destruct post'; try discriminate;
    rewrite statements_loop_S in *.
  - cbn [map more app] in *. autorewrite with scanner in *.
    injection H as <- <-. by exists w.
  - cbn [forallb] in Hok, Hok'.
    apply andb_prop in Hok as [Hst Hok]. apply andb_prop in Hok' as [Hst' Hok'].
    cbn [map] in H |- *. rewrite !more_app in *.
    autorewrite with scanner in *. rewrite N.eqb_refl in *.
    unfold bind in *. cbn [consume] in *. autorewrite with scanner in *.
    rewrite N.eqb_refl in *. autorewrite with scanner in *.
    set (T := more (ch ";") (map (item_text render) sts)) in *.
    set (T' := more (ch ";") (map (item_text render) sts')) in *.
    assert (HT : follow (T ++ []) = true /\ starts_token (T ++ []) = true).
    { unfold T. split; [by apply more_follow|by apply more_starts]. }
    assert (HT' : follow (T' ++ []) = true /\ starts_token (T' ++ []) = true).
    { unfold T'. split; [by apply more_follow|by apply more_starts]. }
    destruct (parseJson V M fuel (State (item_text render st ++ T ++ []) (S p) w))
      as [[v1 s2]| |] eqn:Hv; try discriminate.
    destruct (item_agree (parseJson V M fuel) st st' T T' [] [] (S p) (S p') w
                (parseJson_agree V M fuel) Hsame Hst Hst'
                (proj1 HT) (proj1 HT') (proj2 HT) (proj2 HT') v1 s2 Hv)
      as (w1 & Hw & s2' & Hv' & Hw').
    rewrite Hv', Hw'. rewrite Hw in H.
    destruct (IH Hok Hok' n (acc ++ [v1]) [] [] _
                (length (item_text render st') + S p')%nat w1 v s1 eq_refl eq_refl H)
      as (w2 & -> & H').
    fold T' in H'. rewrite H'. exists w2. split; unfold T, T'; positions.
Qed.

Lemma statements_agree V M fuel sts sts' :
  Forall2 same_item sts sts' ->
  forallb item_ok sts = true -> forallb item_ok sts' = true ->
  agree at_end (statements V M fuel) (render_document sts) (render_document sts').
Proof.
  intros H2 Hok Hok' post post' p p' w v s1 Hp Hp' H.
  destruct post; try discriminate. destruct post'; try discriminate.
  destruct H2 as [|st st' sts sts' Hsame H2].
  { unfold statements, bind in H. by destruct fuel. }
  cbn [forallb] in Hok, Hok'.
  apply andb_prop in Hok as [Hst Hok]. apply andb_prop in Hok' as [Hst' Hok'].
  unfold render_document in *. rewrite !map_cons, !separated_more in *.
  rewrite <- !app_assoc in *.
  set (T := more (ch ";") (map (item_text render) sts)) in *.
  set (T' := more (ch ";") (map (item_text render) sts')) in *.
  assert (HT : follow (T ++ []) = true /\ starts_token (T ++ []) = true).
  { unfold T. split; [by apply more_follow|by apply more_starts]. }
  assert (HT' : follow (T' ++ []) = true /\ starts_token (T' ++ []) = true).
  { unfold T'. split; [by apply more_follow|by apply more_starts]. }
  unfold statements, bind in *.
  destruct (parseJson V M fuel (State (item_text render st ++ T ++ []) p w))
    as [[v1 s2]| |] eqn:Hv; try discriminate.
  destruct (item_agree (parseJson V M fuel) st st' T T' [] [] p p' w
              (parseJson_agree V M fuel) Hsame Hst Hst'
              (proj1 HT) (proj1 HT') (proj2 HT) (proj2 HT') v1 s2 Hv)
    as (w1 & Hw & s2' & Hv' & Hw').
  rewrite Hv', Hw'. rewrite Hw in H.
  destruct (statements_loop_agree V M fuel sts sts' H2 Hok Hok' fuel [v1] [] [] _
              (length (item_text render st') + p')%nat w1 v s1 eq_refl eq_refl H)
    as (w2 & -> & H').
  fold T' in H'. rewrite H'. exists w2. split; unfold T, T'; positions.
Qed.

(** C4, amended.  A document is statements separated by semicolons; a
    statement is a value between two gaps; arrays and objects hold items
    between gaps, object keys are quoted, and a class tag stands directly
    before its brace.  Two documents with the same tokens, whatever their
    gaps of space, tab, CR and LF, are accepted alike: the same returned
    value, the same store and the same warnings. *)
Theorem whitespace_between_tokens V fuel sts sts' options a :
  forallb item_ok sts = true -> forallb item_ok sts' = true ->
  same_tokens sts sts' ->
  deserialize V fuel (render_document sts) options = Ok a ->
  deserialize V fuel (render_document sts') options = Ok a.
Proof.
  intros Hok Hok' Hs H. unfold deserialize in *. cbv zeta in *.
  assert (H2 : Forall2 same_item sts sts').
  { clear -Hs. revert sts' Hs.
    induction sts as [|st sts IH]; intros [|st' sts'] Hs; try done.
    injection Hs as H1 H2. constructor; [done|by apply IH]. }
  destruct (statements V (registry options) fuel (State (render_document sts) 0 []))
    as [[trees s]| |] eqn:Hst; try discriminate.
  rewrite <- (app_nil_r (render_document sts)) in Hst.
  destruct (statements_agree V (registry options) fuel sts sts' H2 Hok Hok'
              [] [] 0%nat 0%nat [] trees s eq_refl eq_refl Hst) as (w1 & -> & H').
  rewrite app_nil_r in H'. rewrite H'. cbn [pos warned peek rest] in *.
  rewrite !Nat.add_0_r, !Nat.eqb_refl in *. exact H.
Qed.

(** C4 as stated fails between a class tag and its brace: the tagged
    object is accepted, and with one space after the tag it is rejected at
    that space, whatever the fuel. *)
Lemma space_after_class_tag :
  deserialize (fun _ => true) 3 (js "Foo{" ++ quoted (js "x") ++ js ":1}") (Options None)
  = Ok (Answer (VObj 0) [CObject None [(js "x", VNumber (ToNumber (js "1")))]] [js "Foo"])
  /\ forall fuel,
      deserialize (fun _ => true) (S fuel) (js "Foo {" ++ quoted (js "x") ++ js ":1}")
        (Options None)
      = Throw (SyntaxError (Some (ch " ")) 3).
Proof. split; [reflexivity|intros fuel; reflexivity]. Qed.

Lemma whitespace_between_tokens_witness :
  deserialize (fun _ => true) 4 (render_document airy) (Options None)
  = Ok (Answer (VObj 1)
          [CArray [VNumber (SFmul prec emax minus_one (ToNumber (js "1.5"))); VNull];
           CObject None [(js "x", VObj 0)]]
          [js "Foo"]).
Proof.
  apply (whitespace_between_tokens (fun _ => true) 4 tight airy (Options None));
    reflexivity.
Defined.

(** * Further properties of the code *)

(** ** Objects: keys are written once *)


Lemma has_key_elem {V} k (fs : list (list N * V)) :
  has_key k fs = true <-> k ∈ map fst fs.
Proof.
  induction fs as [|[k' v'] fs IH]; cbn.
  - split; [done|]. by intros ?%elem_of_nil.
  - rewrite orb_true_iff, elem_of_cons, IH. split.
    + intros [H%jsstring_eqb_eq|H]; auto.
    + intros [->|H]; auto using jsstring_eqb_refl.
Qed.

Lemma obj_replace_keys {V} k v (fs : list (list N * V)) :
  map fst (obj_replace k v fs) = map fst fs.
Proof.
  induction fs as [|[k' v'] fs IH]; cbn; [done|].
  destruct (jsstring_eqb k' k); cbn; [done|]. by rewrite IH.
Qed.

Lemma obj_insert_index_keys {V} n k v (fs : list (list N * V)) :
  map fst (obj_insert_index n k v fs) ≡ₚ k :: map fst fs.
Proof.
  induction fs as [|[k' v'] fs IH]; cbn; [done|].
  destruct (array_index k') as [n'|]; [|done].
  destruct (n' <? n); [|done]. cbn. rewrite IH. apply Permutation_swap.
Qed.

Lemma obj_set_keys {V} k v (fs : list (list N * V)) :
  NoDup (map fst fs) -> NoDup (map fst (obj_set k v fs)).
Proof.
  intros H. unfold obj_set. destruct (has_key k fs) eqn:Hk.
  - by rewrite obj_replace_keys.
  - assert (k ∉ map fst fs) by (rewrite <- has_key_elem; congruence).
    destruct (array_index k).
    + rewrite obj_insert_index_keys. by apply NoDup_cons.
    + rewrite map_app. cbn. apply NoDup_app. split; [done|]. split.
      * intros x Hx ->%list_elem_of_singleton. done.
      * apply NoDup_singleton.
Qed.







Lemma parseObject_loop_keys pj fuel obj s' : forall n acc s,
  NoDup (map fst acc) ->
  parseObject_loop pj fuel n acc s = Ok (obj, s') ->
  NoDup (map fst obj).
Proof.
  induction n as [|n IH]; intros acc s Hacc H; [discriminate|].
  rewrite parseObject_loop_S in H. unfold bind in H.
  destruct (parseString fuel s) as [[k s1]| |]; try discriminate.
  cbv zeta in H. destruct (negb (see (ch ":") (white s1))); [discriminate|].
  destruct (pj (advance (white s1))) as [[v s2]| |]; try discriminate.
  destruct (see (ch ",") (white s2)).
  - eapply IH; [|exact H]. by apply obj_set_keys.
  - destruct (see (ch "}") (white s2)); [|discriminate].
    injection H as <- _. by apply obj_set_keys.
Qed.

Lemma parseObject_keys pj fuel s obj s' :
  parseObject pj fuel s = Ok (obj, s') -> NoDup (map fst obj).
Proof.
  unfold parseObject. cbv zeta. destruct (see (ch "}") _).
  - intros [= <- _]. constructor.
  - apply parseObject_loop_keys. constructor.
Qed.
(** ** The cursor stays inside the buffer *)

Section Tracking.

Variable V : jsstring -> bool.
Variable M : jsstring -> option classId.

Lemma reads_refl s : reads s s.
Proof. by exists []. Qed.

Lemma reads_trans s1 s2 s3 : reads s1 s2 -> reads s2 s3 -> reads s1 s3.
Proof.
  intros (t1 & E1 & P1) (t2 & E2 & P2). exists (t1 ++ t2).
  rewrite E1, E2, <- app_assoc, length_app. split; [done|lia].
Qed.

Lemma logs_refl s : logs M s s.
Proof. exists []. rewrite app_nil_r. by split. Qed.

Lemma logs_same s s' : warned s' = warned s -> logs M s s'.
Proof. intros H. exists []. rewrite app_nil_r. by split. Qed.

Lemma logs_trans s1 s2 s3 : logs M s1 s2 -> logs M s2 s3 -> logs M s1 s3.
Proof.
  intros (n1 & E1 & F1) (n2 & E2 & F2). exists (n1 ++ n2).
  rewrite E2, E1, <- app_assoc. split; [done|]. by apply Forall_app.
Qed.

Lemma moves_refl s : moves s s.
Proof. split; [apply reads_refl|done]. Qed.

Lemma moves_trans s1 s2 s3 : moves s1 s2 -> moves s2 s3 -> moves s1 s3.
Proof.
  intros [R1 W1] [R2 W2]. split; [by eapply reads_trans|congruence].
Qed.

Lemma moves_tracks s s' : moves s s' -> tracks M s s'.
Proof. intros [R W]. split; [done|by apply logs_same]. Qed.

Lemma tracks_refl s : tracks M s s.
Proof. split; [apply reads_refl|apply logs_refl]. Qed.

Lemma tracks_trans s1 s2 s3 : tracks M s1 s2 -> tracks M s2 s3 -> tracks M s1 s3.
Proof.
  intros [R1 L1] [R2 L2]. split; [by eapply reads_trans|by eapply logs_trans].
Qed.

Lemma moves_advance s c : peek s = Some c -> moves s (advance s).
Proof.
  destruct s as [[|d r] p w]; [done|]. intros _. split; [|done].
  exists [d]. cbn. split; [done|lia].
Qed.

Lemma see_peek c s : see c s = true -> peek s = Some c.
Proof.
  unfold see. destruct (peek s) as [d|]; [|done]. by intros ->%N.eqb_eq.
Qed.

Lemma moves_see c s : see c s = true -> moves s (advance s).
Proof. intros H%see_peek. by eapply moves_advance. Qed.

Lemma span_parts p l : l = fst (span p l) ++ snd (span p l).
Proof.
  induction l as [|c l IH]; [done|]. cbn. destruct (p c); [|done].
  destruct (span p l) as [a b]. cbn in *. by rewrite IH at 1.
Qed.

Lemma moves_scan p s : moves s (snd (scan p s)).
Proof.
  unfold scan. pose proof (span_parts p (rest s)) as H.
  destruct (span p (rest s)) as [a b]. cbn in *. split; [|done].
  exists a. by cbn.
Qed.

Lemma moves_white s : moves s (white s).
Proof. apply moves_scan. Qed.

Lemma moves_consume cs : forall s u s', consume cs s = Ok (u, s') -> moves s s'.
Proof.
  induction cs as [|c cs IH]; intros s u s' H; cbn in H.
  - injection H as _ <-. apply moves_refl.
  - destruct (see c s) eqn:E; [|discriminate].
    eapply moves_trans; [by eapply moves_see|by eapply IH].
Qed.

(** *** The lexers *)

Lemma parseRef_moves s t s' :
  see (ch "$") s = true -> parseRef s = Ok (t, s') -> atomic t /\ moves s s'.
Proof.
  intros Hsee H. unfold parseRef in H.
  pose proof (moves_scan NUM_CHARS (advance s)) as Hm.
  destruct (scan NUM_CHARS (advance s)) as [a s1]. injection H as <- <-.
  split; [done|]. eapply moves_trans; [by eapply moves_see|done].
Qed.

Lemma digits1_moves s ds s' : digits1 s = Ok (ds, s') -> moves s s'.
Proof.
  unfold digits1. destruct (match peek s with Some c => NUM_CHARS c | None => false end);
    [|discriminate].
  pose proof (moves_scan NUM_CHARS s) as Hm.
  destruct (scan NUM_CHARS s) as [a s1]. by intros [= _ <-].
Qed.

Lemma fraction_moves result s r s' : fraction result s = Ok (r, s') -> moves s s'.
Proof.
  unfold fraction. destruct (see (ch ".") s) eqn:E.
  - unfold bind, ret. destruct (digits1 (advance s)) as [[ds s1]| |] eqn:Hd; try discriminate.
    intros [= _ <-]. eapply moves_trans; [by eapply moves_see|by eapply digits1_moves].
  - intros [= _ <-]. apply moves_refl.
Qed.

Lemma exponent_moves result s r s' : exponent result s = Ok (r, s') -> moves s s'.
Proof.
  unfold exponent. destruct (peek s) as [e|] eqn:Ee.
  2:{ intros [= _ <-]. apply moves_refl. }
  destruct (N.eqb e (ch "e") || N.eqb e (ch "E")).
  2:{ intros [= _ <-]. apply moves_refl. }
  cbv zeta. pose proof (moves_advance s e Ee) as H1.
  destruct (peek (advance s)) as [c|] eqn:Ec.
  - destruct (N.eqb c (ch "-") || N.eqb c (ch "+")); unfold bind, ret.
    + destruct (digits1 (advance (advance s))) as [[ds s1]| |] eqn:Hd; try discriminate.
      intros [= _ <-]. eapply moves_trans; [exact H1|].
      eapply moves_trans; [by eapply moves_advance|by eapply digits1_moves].
    + destruct (digits1 (advance s)) as [[ds s1]| |] eqn:Hd; try discriminate.
      intros [= _ <-]. eapply moves_trans; [exact H1|by eapply digits1_moves].
  - unfold bind, ret.
    destruct (digits1 (advance s)) as [[ds s1]| |] eqn:Hd; try discriminate.
    intros [= _ <-]. eapply moves_trans; [exact H1|by eapply digits1_moves].
Qed.

Lemma magnitude_moves neg s t s' :
  magnitude neg s = Ok (t, s') -> atomic t /\ moves s s'.
Proof.
  unfold magnitude, bind, ret.
  destruct (digits1 s) as [[ds s1]| |] eqn:Hd; try discriminate.
  apply digits1_moves in Hd. destruct (see (ch "n") s1) eqn:En.
  - intros [= <- <-]. split; [done|].
    eapply moves_trans; [exact Hd|by eapply moves_see].
  - destruct (fraction ds s1) as [[r s2]| |] eqn:Hf; try discriminate.
    destruct (exponent r s2) as [[r' s3]| |] eqn:He; try discriminate.
    intros [= <- <-]. split; [done|].
    eapply moves_trans; [exact Hd|].
    eapply moves_trans; [by eapply fraction_moves|by eapply exponent_moves].
Qed.

Lemma parseNumber_moves s t s' :
  parseNumber s = Ok (t, s') -> atomic t /\ moves s s'.
Proof.
  unfold parseNumber. cbv zeta.
  assert (Hs : moves s (if see (ch "-") s then advance s else s)).
  { destruct (see (ch "-") s) eqn:E; [by eapply moves_see|apply moves_refl]. }
  set (s0 := if see (ch "-") s then advance s else s) in *.
  destruct (see (ch "I") s0) eqn:EI.
  - unfold bind, ret.
    destruct (consume (js "nfinity") (advance s0)) as [[u s1]| |] eqn:Hc; try discriminate.
    intros [= <- <-]. split; [done|].
    eapply moves_trans; [exact Hs|].
    eapply moves_trans; [by eapply moves_see|by eapply moves_consume].
  - intros H. apply magnitude_moves in H as [Ht Hm]. split; [done|].
    by eapply moves_trans.
Qed.

Lemma parseInt16_peek s h : parseInt16 (peek s) = Some h -> exists c, peek s = Some c.
Proof. destruct (peek s) as [c|]; [by exists c|done]. Qed.

Lemma hex4_moves i : forall u s v s', hex4 i u s = Ok (v, s') -> moves s s'.
Proof.
  induction i as [|i IH]; intros u s v s' H; cbn in H.
  - injection H as _ <-. apply moves_refl.
  - destruct (parseInt16 (peek s)) as [h|] eqn:Eh; [|discriminate].
    destruct (parseInt16_peek _ _ Eh) as [c Hc].
    eapply moves_trans; [by eapply moves_advance|by eapply IH].
Qed.

Lemma past_end s : peek s = None -> exists p w, advance s = State [] p w.
Proof. destruct s as [[|c r] p w]; [|done]. intros _. by exists (S p), w. Qed.

Lemma at_end_state s : peek s = None -> s = State [] (pos s) (warned s).
Proof. by destruct s as [[|c r] p w]. Qed.

Lemma parseString_loop_moves fuel : forall result s str s',
  parseString_loop fuel result s = Ok (str, s') -> moves s s'.
Proof.
  induction fuel as [|n IH]; intros result s str s' H; [discriminate|].
  rewrite parseString_loop_S in H.
  destruct (peek s) as [c|] eqn:Ec.
  2:{ rewrite (at_end_state s Ec) in H. autorewrite with scanner in H.
      cbn [text] in H. by rewrite parseString_loop_past_end in H. }
  pose proof (moves_advance s c Ec) as H1.
  destruct (see QUOTE s); [by injection H as _ <-|].
  destruct (see (ch "\") s).
  - cbv zeta in H. destruct (see (ch "u") (advance s)) eqn:Eu.
    + unfold bind in H.
      destruct (hex4 4 0 (advance (advance s))) as [[u s1]| |] eqn:Hh; try discriminate.
      eapply moves_trans; [exact H1|].
      eapply moves_trans; [by eapply moves_see|].
      eapply moves_trans; [by eapply hex4_moves|by eapply IH].
    + destruct (STRING_ESC (peek (advance s))) as [e|] eqn:Ee; [|discriminate].
      destruct (peek (advance s)) as [d|] eqn:Ed; [|done].
      eapply moves_trans; [exact H1|].
      eapply moves_trans; [by eapply moves_advance|by eapply IH].
  - eapply moves_trans; [exact H1|by eapply IH].
Qed.

Lemma parseString_moves fuel s str s' :
  parseString fuel s = Ok (str, s') -> moves s s'.
Proof.
  unfold parseString. intros H. destruct (peek s) as [c|] eqn:Ec.
  - eapply moves_trans; [by eapply moves_advance|by eapply parseString_loop_moves].
  - destruct (past_end s Ec) as (p & w & E). rewrite E in H.
    by rewrite parseString_loop_past_end in H.
Qed.

Lemma parseRegExp_loop_past_end fuel : forall result p w,
  parseRegExp_loop V fuel result (State [] p w) = OutOfFuel.
Proof.
  induction fuel as [|n IH]; intros result p w; [done|].
  rewrite parseRegExp_loop_S. autorewrite with scanner. apply IH.
Qed.

Lemma regexp_flags_moves s : moves s (snd (regexp_flags s)).
Proof.
  unfold regexp_flags.
  repeat match goal with
         | |- context [if see ?c ?s then _ else _] =>
             let E := fresh "E" in
             destruct (see c s) eqn:E; [apply moves_see in E|clear E]
         end; cbn [snd];
    repeat (first [assumption | apply moves_refl | eapply moves_trans; [eassumption|]]).
Qed.

Lemma parseRegExp_loop_moves fuel : forall result s t s',
  parseRegExp_loop V fuel result s = Ok (t, s') -> atomic t /\ moves s s'.
Proof.
  induction fuel as [|n IH]; intros result s t s' H; [discriminate|].
  rewrite parseRegExp_loop_S in H.
  destruct (peek s) as [c|] eqn:Ec.
  2:{ rewrite (at_end_state s Ec) in H. autorewrite with scanner in H.
      by rewrite parseRegExp_loop_past_end in H. }
  pose proof (moves_advance s c Ec) as H1.
  destruct (see (ch "/") s).
  - pose proof (regexp_flags_moves (advance s)) as H2.
    destruct (regexp_flags (advance s)) as [fl s1].
    destruct (new_RegExp V result fl); try discriminate.
    injection H as <- <-. split; [done|]. by eapply moves_trans.
  - destruct (see (ch "\") s).
    + destruct (peek (advance s)) as [d|] eqn:Ed.
      * apply IH in H as [Ht Hm]. split; [done|].
        eapply moves_trans; [exact H1|].
        eapply moves_trans; [by eapply moves_advance|done].
      * destruct (past_end _ Ed) as (p & w & E). rewrite E in H.
        by rewrite parseRegExp_loop_past_end in H.
    + apply IH in H as [Ht Hm]. split; [done|]. by eapply moves_trans.
Qed.

Lemma parseRegExp_moves fuel s t s' :
  see (ch "/") s = true ->
  parseRegExp V fuel s = Ok (t, s') -> atomic t /\ moves s s'.
Proof.
  intros Hsee. unfold parseRegExp. cbv zeta.
  destruct (see (ch "/") (advance s)); [discriminate|].
  intros H. apply parseRegExp_loop_moves in H as [Ht Hm]. split; [done|].
  eapply moves_trans; [by eapply moves_see|done].
Qed.

Lemma parseName_moves s : moves s (snd (parseName s)).
Proof.
  unfold parseName. destruct (peek s) as [c|] eqn:Ec; [|apply moves_refl].
  destruct (is_letter c); [|apply moves_refl].
  pose proof (moves_scan is_name_char (advance s)) as Hm.
  destruct (scan is_name_char (advance s)) as [a s1]. cbn in *.
  eapply moves_trans; [by eapply moves_advance|done].
Qed.

Lemma keyword_atomic name v : keyword name = Some v -> atomic v.
Proof.
  unfold keyword.
  repeat match goal with
         | |- context [if ?b then _ else _] => destruct b
         end; by intros [= <-].
Qed.

(** *** Arrays, objects and values *)

Lemma fold_right_and {A} (P : A -> Prop) l :
  fold_right (fun a Q => P a /\ Q) True l <-> Forall P l.
Proof.
  induction l as [|a l IH]; cbn.
  - split; [constructor|done].
  - rewrite IH, Forall_cons. tauto.
Qed.

Lemma keys_once_array items : keys_once (PArray items) <-> Forall keys_once items.
Proof. cbn [keys_once]. apply fold_right_and. Qed.

Lemma keys_once_object proto fields :
  keys_once (PObject proto fields)
  <-> NoDup (map fst fields) /\ Forall (fun kt => keys_once (snd kt)) fields.
Proof.
  cbn [keys_once].
  by rewrite (fold_right_and (fun kt : list N * pvalue => keys_once (snd kt))).
Qed.

Lemma height_list {A} (f : A -> nat) l d :
  (fold_right (fun a m => Nat.max (f a) m) 0 l <= d)%nat
  <-> Forall (fun a => (f a <= d)%nat) l.
Proof.
  induction l as [|a l IH]; cbn.
  - split; [constructor|lia].
  - rewrite Forall_cons, <- IH. lia.
Qed.

Lemma fine_atomic d t : atomic t -> fine (S d) t.
Proof. destruct t; try done; intros _; split; cbn; (done || lia). Qed.

Lemma fine_array d items : Forall (fine d) items -> fine (S d) (PArray items).
Proof.
  intros H. split.
  - apply keys_once_array. eapply Forall_impl; [done|]. by intros t [? _].
  - cbn [height]. apply le_n_S. apply (height_list height).
    eapply Forall_impl; [done|]. by intros t [_ ?].
Qed.

Lemma fine_object d proto fields :
  NoDup (map fst fields) -> Forall (fun kt => fine d (snd kt)) fields ->
  fine (S d) (PObject proto fields).
Proof.
  intros Hn H. split.
  - apply keys_once_object. split; [done|].
    eapply Forall_impl; [done|]. by intros t [? _].
  - cbn [height]. apply le_n_S.
    apply (height_list (fun kt : list N * pvalue => height (snd kt))).
    eapply Forall_impl; [done|]. by intros t [_ ?].
Qed.

Lemma obj_replace_Forall {A} (P : list N * A -> Prop) k v fs :
  (forall k', jsstring_eqb k' k = true -> P (k', v)) ->
  Forall P fs -> Forall P (obj_replace k v fs).
Proof.
  intros Hv. induction 1 as [|[k0 v0] fs H0 Hfs IH]; cbn; [constructor|].
  destruct (jsstring_eqb k0 k) eqn:E; constructor; auto.
Qed.

Lemma obj_insert_index_Forall {A} (P : list N * A -> Prop) n k v fs :
  P (k, v) -> Forall P fs -> Forall P (obj_insert_index n k v fs).
Proof.
  intros Hv. induction 1 as [|[k0 v0] fs H0 Hfs IH]; cbn.
  - by constructor.
  - destruct (array_index k0) as [n'|]; [destruct (n' <? n)|];
      repeat constructor; auto.
Qed.

Lemma obj_set_values {A} (P : A -> Prop) k v (fs : list (list N * A)) :
  P v -> Forall (fun kt => P (snd kt)) fs ->
  Forall (fun kt => P (snd kt)) (obj_set k v fs).
Proof.
  intros Hv Hfs. unfold obj_set. destruct (has_key k fs).
  - by apply obj_replace_Forall.
  - destruct (array_index k).
    + by apply obj_insert_index_Forall.
    + apply Forall_app. split; [done|]. by apply Forall_singleton.
Qed.

Lemma parseArray_loop_sound d pj :
  sound M d pj ->
  forall n acc s t s',
    Forall (fine d) acc ->
    parseArray_loop pj n acc s = Ok (t, s') ->
    tracks M s s' /\ fine (S d) t.
Proof.
  intros Hpj. induction n as [|n IH]; intros acc s t s' Hacc H; [discriminate|].
  rewrite parseArray_loop_S in H. destruct (see (ch ",") s) eqn:Ec.
  - unfold bind in H. destruct (pj (advance s)) as [[v s1]| |] eqn:Hv; try discriminate.
    destruct (Hpj _ _ _ Hv) as [T1 K1].
    apply IH in H as [T2 K2].
    2:{ apply Forall_app. split; [done|]. by apply Forall_singleton. }
    split; [|done].
    eapply tracks_trans; [apply moves_tracks; by eapply moves_see|].
    eapply tracks_trans; [exact T1|].
    eapply tracks_trans; [apply moves_tracks, moves_white|done].
  - destruct (see (ch "]") s) eqn:Eb; [|discriminate]. injection H as <- <-.
    split; [apply moves_tracks; by eapply moves_see|by apply fine_array].
Qed.

Lemma parseArray_sound d pj n s t s' :
  sound M d pj -> see (ch "[") s = true ->
  parseArray pj n s = Ok (t, s') -> tracks M s s' /\ fine (S d) t.
Proof.
  intros Hpj Hsee. unfold parseArray. cbv zeta.
  assert (H0 : tracks M s (white (advance s))).
  { eapply tracks_trans; apply moves_tracks; [by eapply moves_see|apply moves_white]. }
  destruct (see (ch "]") (white (advance s))) eqn:Eb.
  - intros [= <- <-]. split; [|by apply fine_array].
    eapply tracks_trans; [exact H0|]. apply moves_tracks. by eapply moves_see.
  - unfold bind. destruct (pj (white (advance s))) as [[v s1]| |] eqn:Hv; try discriminate.
    destruct (Hpj _ _ _ Hv) as [T1 K1]. intros H.
    apply (parseArray_loop_sound d pj Hpj) in H as [T2 K2]; [|by apply Forall_singleton].
    split; [|done].
    eapply tracks_trans; [exact H0|].
    eapply tracks_trans; [exact T1|].
    eapply tracks_trans; [apply moves_tracks, moves_white|done].
Qed.

Lemma parseObject_loop_sound d pj fuel :
  sound M d pj ->
  forall n acc s obj s',
    NoDup (map fst acc) -> Forall (fun kt => fine d (snd kt)) acc ->
    parseObject_loop pj fuel n acc s = Ok (obj, s') ->
    tracks M s s'
    /\ NoDup (map fst obj) /\ Forall (fun kt => fine d (snd kt)) obj.
Proof.
  intros Hpj. induction n as [|n IH]; intros acc s obj s' Hnd Hacc H; [discriminate|].
  rewrite parseObject_loop_S in H. unfold bind in H.
  destruct (parseString fuel s) as [[k s1]| |] eqn:Hk; try discriminate.
  apply parseString_moves in Hk. cbv zeta in H.
  destruct (see (ch ":") (white s1)) eqn:Ec; [|discriminate]. cbn [negb] in H.
  destruct (pj (advance (white s1))) as [[v s2]| |] eqn:Hv; try discriminate.
  destruct (Hpj _ _ _ Hv) as [T1 K1].
  assert (T0 : tracks M s (white s2)).
  { eapply tracks_trans; [apply moves_tracks, Hk|].
    eapply tracks_trans; [apply moves_tracks, moves_white|].
    eapply tracks_trans; [apply moves_tracks; by eapply moves_see|].
    eapply tracks_trans; [exact T1|apply moves_tracks, moves_white]. }
  pose proof (obj_set_keys k v acc Hnd) as Hnd'.
  pose proof (obj_set_values (fine d) k v acc K1 Hacc) as Hacc'.
  destruct (see (ch ",") (white s2)) eqn:Em.
  - apply IH in H as (T2 & N2 & K2); [|done..]. split; [|done].
    eapply tracks_trans; [exact T0|].
    eapply tracks_trans; [apply moves_tracks; by eapply moves_see|].
    eapply tracks_trans; [apply moves_tracks, moves_white|done].
  - destruct (see (ch "}") (white s2)) eqn:Eb; [|discriminate].
    injection H as <- <-. split; [|done].
    eapply tracks_trans; [exact T0|]. apply moves_tracks. by eapply moves_see.
Qed.

Lemma parseObject_sound d pj n s obj s' :
  sound M d pj -> see (ch "{") s = true ->
  parseObject pj n s = Ok (obj, s') ->
  tracks M s s'
  /\ NoDup (map fst obj) /\ Forall (fun kt => fine d (snd kt)) obj.
Proof.
  intros Hpj Hsee. unfold parseObject. cbv zeta.
  assert (H0 : tracks M s (white (advance s))).
  { eapply tracks_trans; apply moves_tracks; [by eapply moves_see|apply moves_white]. }
  destruct (see (ch "}") (white (advance s))) eqn:Eb.
  - intros [= <- <-]. split; [|split; constructor].
    eapply tracks_trans; [exact H0|]. apply moves_tracks. by eapply moves_see.
  - intros H. apply (parseObject_loop_sound d pj n Hpj) in H as (T & N1 & K1);
      [|constructor..].
    split; [|done]. by eapply tracks_trans.
Qed.

Lemma tracks_warn name s :
  name <> [] -> M name = None -> tracks M s (warn name s).
Proof.
  intros Hn Hm. split; [by exists []|].
  exists [name]. split; [done|]. by apply Forall_singleton.
Qed.

Lemma parseJson_sound fuel : sound M fuel (parseJson V M fuel).
Proof.
  induction fuel as [|n IH]; intros s t s' H; [discriminate|].
  cbn [parseJson] in H. cbv zeta in H.
  pose proof (moves_tracks _ _ (moves_white s)) as H0.
  set (s0 := white s) in *.
  destruct (see (ch "$") s0) eqn:E1.
  { apply parseRef_moves in H as [Ht Hm]; [|done].
    split; [|by apply fine_atomic].
    eapply tracks_trans; [exact H0|by apply moves_tracks]. }
  destruct (see (ch "{") s0) eqn:E2.
  { unfold bind, ret in H.
    destruct (parseObject (parseJson V M n) n s0) as [[obj s1]| |] eqn:Ho; try discriminate.
    injection H as <- <-.
    apply (parseObject_sound n) in Ho as (T & N1 & K1); [|done..].
    split; [by eapply tracks_trans|by apply fine_object]. }
  destruct (see (ch "[") s0) eqn:E3.
  { apply (parseArray_sound n) in H as [T K]; [|done..].
    split; [by eapply tracks_trans|done]. }
  destruct (see (ch "/") s0) eqn:E4.
  { apply parseRegExp_moves in H as [Ht Hm]; [|done].
    split; [|by apply fine_atomic].
    eapply tracks_trans; [exact H0|by apply moves_tracks]. }
  destruct (see QUOTE s0) eqn:E5.
  { unfold bind, ret in H.
    destruct (parseString n s0) as [[str s1]| |] eqn:Hs; try discriminate.
    injection H as <- <-. apply parseString_moves in Hs.
    split; [|by apply fine_atomic]. eapply tracks_trans; [exact H0|by apply moves_tracks]. }
  destruct (see (ch "-") s0
            || match peek s0 with Some c => NUM_CHARS c | None => false end).
  { apply parseNumber_moves in H as [Ht Hm].
    split; [|by apply fine_atomic].
    eapply tracks_trans; [exact H0|by apply moves_tracks]. }
  pose proof (moves_tracks _ _ (parseName_moves s0)) as Hn.
  destruct (parseName s0) as [name s1] eqn:En. cbn [snd] in Hn.
  destruct (keyword name) as [v|] eqn:Ek.
  { injection H as <- <-. split; [by eapply tracks_trans|].
    by eapply fine_atomic, keyword_atomic. }
  destruct (see (ch "{") s1) eqn:E6; [|discriminate].
  unfold bind in H.
  destruct (parseObject (parseJson V M n) n s1) as [[obj s2]| |] eqn:Ho; try discriminate.
  apply (parseObject_sound n) in Ho as (T & N1 & K1); [|done..].
  cbv zeta in H. injection H as <- <-.
  split; [|by apply fine_object].
  eapply tracks_trans; [exact H0|].
  eapply tracks_trans; [exact Hn|].
  eapply tracks_trans; [exact T|].
  destruct name as [|c r]; [apply tracks_refl|].
  destruct (M (c :: r)) eqn:Em; [apply tracks_refl|by apply tracks_warn].
Qed.

End Tracking.

Lemma statements_loop_sound V M fuel : forall n acc s trees s',
  Forall (fine fuel) acc ->
  statements_loop V M fuel n acc s = Ok (trees, s') ->
  tracks M s s' /\ Forall (fine fuel) trees.
Proof.
  induction n as [|n IH]; intros acc s trees s' Hacc H; [discriminate|].
  rewrite statements_loop_S in H. destruct (see (ch ";") s) eqn:E.
  - unfold bind in H. cbn [consume] in H. rewrite E in H.
    destruct (parseJson V M fuel (advance s)) as [[v s1]| |] eqn:Hv; try discriminate.
    destruct (parseJson_sound V M fuel _ _ _ Hv) as [T1 K1].
    apply IH in H as [T2 K2].
    2:{ apply Forall_app. split; [done|]. by apply Forall_singleton. }
    split; [|done].
    eapply tracks_trans; [apply moves_tracks; by eapply moves_see|].
    eapply tracks_trans; [exact T1|].
    eapply tracks_trans; [apply moves_tracks, moves_white|done].
  - injection H as <- <-. split; [apply tracks_refl|done].
Qed.

Lemma statements_sound V M fuel s trees s' :
  statements V M fuel s = Ok (trees, s') ->
  tracks M s s' /\ Forall (fine fuel) trees.
Proof.
  unfold statements, bind.
  destruct (parseJson V M fuel s) as [[v s1]| |] eqn:Hv; try discriminate.
  destruct (parseJson_sound V M fuel _ _ _ Hv) as [T1 K1]. intros H.
  apply statements_loop_sound in H as [T2 K2]; [|by apply Forall_singleton].
  split; [|done].
  eapply tracks_trans; [exact T1|].
  eapply tracks_trans; [apply moves_tracks, moves_white|done].
Qed.

(** X2.  When [parseJson] returns, the cursor has stepped over a piece of the
    unread text and counted each character of it: it is never past the end
    of the buffer. *)
Theorem cursor_stays_in_buffer V M fuel s t s' :
  parseJson V M fuel s = Ok (t, s') ->
  exists text, rest s = text ++ rest s' /\ pos s' = (length text + pos s)%nat.
Proof. intros H. by destruct (parseJson_sound V M fuel _ _ _ H) as [[R _] _]. Qed.

Lemma cursor_stays_in_buffer_witness :
  exists text,
    js "[1, 2] ;" = text ++ js " ;" /\ 6%nat = (length text + 0)%nat.
Proof.
  exact (cursor_stays_in_buffer (fun _ => true) (fun _ => None) 3
           (State (js "[1, 2] ;") 0 [])
           (PArray [PNumber (ToNumber (js "1")); PNumber (ToNumber (js "2"))])
           (State (js " ;") 6 []) eq_refl).
Defined.

(** X1.  An input that [deserialize] accepts has been read to its last
    character by the statement loop. *)
Theorem accepted_input_is_read_to_the_end V fuel code options a :
  deserialize V fuel code options = Ok a ->
  exists trees,
    statements V (registry options) fuel (State code 0 [])
    = Ok (trees, State [] (length code) (warnings a)).
Proof.
  unfold deserialize. cbv zeta.
  destruct (statements V (registry options) fuel (State code 0 []))
    as [[trees s]| |] eqn:Hst; try discriminate.
  destruct (length code =? pos s)%nat eqn:Hp; [|discriminate]. cbn [negb].
  apply Nat.eqb_eq in Hp.
  destruct (load_all trees []) as [refs h].
  destruct (resolveRef refs fuel (hd VUndefined refs) h) as [[v h']| |]; try discriminate.
  intros [= <-]. exists trees. cbn [warnings].
  destruct (statements_sound _ _ _ _ _ _ Hst) as [[(text & Et & Ep) _] _].
  cbn [rest pos] in Et, Ep. destruct s as [r p w]. cbn [rest pos warned] in *.
  assert (r = []) as ->.
  { apply length_zero_iff_nil.
    apply (f_equal length) in Et. rewrite length_app in Et. lia. }
  by rewrite Hp.
Qed.

Lemma accepted_input_is_read_to_the_end_witness :
  exists trees,
    statements (fun _ => true) (registry (Options None)) 3
      (State (js " [1, 2] ; null") 0 [])
    = Ok (trees, State [] (length (js " [1, 2] ; null")) []).
Proof.
  exact (accepted_input_is_read_to_the_end (fun _ => true) 3 (js " [1, 2] ; null")
           (Options None)
           (Answer (VObj 0)
              [CArray [VNumber (ToNumber (js "1")); VNumber (ToNumber (js "2"))]] [])
           eq_refl).
Defined.

(** X3.  When the statement loop stops before the end of the input, the error
    of [deserialize] names the character of the input at the reported
    position. *)
Theorem trailing_input_reported_where_it_is V fuel code options trees s :
  statements V (registry options) fuel (State code 0 []) = Ok (trees, s) ->
  pos s <> length code ->
  exists c,
    code !! pos s = Some c
    /\ deserialize V fuel code options = Throw (SyntaxError (Some c) (pos s)).
Proof.
  intros Hst Hp.
  destruct (statements_sound _ _ _ _ _ _ Hst) as [[(text & Et & Ep) _] _].
  cbn [rest pos] in Et, Ep. rewrite Nat.add_0_r in Ep.
  destruct (rest s) as [|c r] eqn:Er.
  { rewrite app_nil_r in Et. congruence. }
  exists c. split.
  - rewrite Et, Ep. by rewrite lookup_app_r, Nat.sub_diag by lia.
  - unfold deserialize. cbv zeta. rewrite Hst.
    apply Nat.eqb_neq in Hp. rewrite Nat.eqb_sym, Hp. cbn [negb].
    unfold peek. by rewrite Er.
Qed.

Lemma trailing_input_reported_where_it_is_witness :
  exists c,
    js "[1] ]" !! 4%nat = Some c
    /\ deserialize (fun _ => true) 3 (js "[1] ]") (Options None)
       = Throw (SyntaxError (Some c) 4).
Proof.
  apply (trailing_input_reported_where_it_is (fun _ => true) 3 (js "[1] ]")
           (Options None) [PArray [PNumber (ToNumber (js "1"))]]
           (State (js "]") 4 [])); [reflexivity|].
  cbn. lia.
Defined.

(** X4.  [console.warn] is only called with a class name that is not empty and
    has no class in the registry. *)
Theorem warnings_name_unregistered_classes V fuel code options a :
  deserialize V fuel code options = Ok a ->
  Forall (unregistered (registry options)) (warnings a).
Proof.
  unfold deserialize. cbv zeta.
  destruct (statements V (registry options) fuel (State code 0 []))
    as [[trees s]| |] eqn:Hst; try discriminate.
  destruct (negb _); [discriminate|].
  destruct (load_all trees []) as [refs h].
  destruct (resolveRef refs fuel (hd VUndefined refs) h) as [[v h']| |]; try discriminate.
  intros [= <-]. cbn [warnings].
  destruct (statements_sound _ _ _ _ _ _ Hst) as [[_ (names & En & Hn)] _].
  by rewrite En.
Qed.

Lemma warnings_name_unregistered_classes_witness :
  Forall (unregistered
            (registry (Options (Some (fun name =>
               if jsstring_eqb name (js "A") then Some 1 else None)))))
    [js "B"].
Proof.
  exact (warnings_name_unregistered_classes (fun _ => true) 4
           (js "[A{}, B{}]")
           (Options (Some (fun name =>
              if jsstring_eqb name (js "A") then Some 1 else None)))
           (Answer (VObj 2)
              [CObject (Some 1) []; CObject None []; CArray [VObj 0; VObj 1]]
              [js "B"])
           eq_refl).
Defined.

(** X5.  In every value that [parseJson] returns, each object has each of its
    keys once. *)
Theorem parsed_objects_have_each_key_once V M fuel s t s' :
  parseJson V M fuel s = Ok (t, s') -> keys_once t.
Proof. intros H. by destruct (parseJson_sound V M fuel _ _ _ H) as [_ [? _]]. Qed.

Lemma parsed_objects_have_each_key_once_witness :
  keys_once (PObject None [(js "a", PNumber (ToNumber (js "3")));
                           (js "b", PNumber (ToNumber (js "2")))]).
Proof.
  exact (parsed_objects_have_each_key_once (fun _ => true) (fun _ => None) 5
           (State (js "{" ++ quoted (js "a") ++ js ":1," ++ quoted (js "b") ++ js ":2,"
                   ++ quoted (js "a") ++ js ":3}") 0 [])
           _ (State [] 19 []) eq_refl).
Defined.

(** ** Number literals *)

Lemma digit_not c k : NUM_CHARS c = true -> (k < 48 \/ 57 < k) -> N.eqb c k = false.
Proof. intros H%NUM_CHARS_bounds Hk. apply N.eqb_neq. lia. Qed.

Lemma parseNumber_unsigned d r p w :
  NUM_CHARS d = true ->
  parseNumber (State (d :: r) p w) = magnitude false (State (d :: r) p w).
Proof.
  intros Hd. unfold parseNumber. autorewrite with scanner.
  rewrite (digit_not d) by (done || (codes; lia)). cbv beta iota zeta.
  autorewrite with scanner. by rewrite (digit_not d) by (done || (codes; lia)).
Qed.

Lemma parseNumber_signed d r p w :
  NUM_CHARS d = true ->
  parseNumber (State (ch "-" :: d :: r) p w) = magnitude true (State (d :: r) (S p) w).
Proof.
  intros Hd. unfold parseNumber. autorewrite with scanner. codes.
  cbn [N.eqb Pos.eqb]. cbv beta iota zeta. autorewrite with scanner.
  rewrite !(digit_not d) by (done || lia). done.
Qed.

(** X7.  A number literal in front of a character that can follow a value:
    the digits, fraction and exponent, without the sign, are what is
    converted to a number, and a leading minus multiplies the result by -1.
    The cursor stops right behind the literal. *)
Theorem number_literal_value neg int frac ex post p w :
  digits int = true -> tail_ok (TFloat frac ex) = true -> follow post = true ->
  parseNumber (State (sign_text neg ++ int ++ tail_text (TFloat frac ex) ++ post) p w)
  = Ok (PNumber (if neg
                 then SFmul prec emax minus_one
                        (ToNumber (int ++ tail_text (TFloat frac ex)))
                 else ToNumber (int ++ tail_text (TFloat frac ex))),
        State post
          (length (sign_text neg ++ int ++ tail_text (TFloat frac ex)) + p) w).
Proof.
  intros Hint Htl Hf.
  assert (Hm : forall q,
    magnitude neg (State (int ++ tail_text (TFloat frac ex) ++ post) q w)
    = Ok (PNumber (if neg
                   then SFmul prec emax minus_one
                          (ToNumber (int ++ tail_text (TFloat frac ex)))
                   else ToNumber (int ++ tail_text (TFloat frac ex))),
          State post (length (int ++ tail_text (TFloat frac ex)) + q) w)).
  { intros q. unfold magnitude. unfold bind at 1. cbn [tail_text].
    pose proof Htl as Hok. cbn [tail_ok] in Hok. apply andb_prop in Hok as [Hfr Hex].
    assert (Hex' : tail_ok (TFloat None ex) = true) by done.
    destruct (exp_text_nondigit ex post Hex' Hf) as (Hnd & Hdot & Hn).
    fold (frac_text frac). fold (exp_text ex). rewrite <- app_assoc.
    rewrite digits1_frame.
    2: done.
    2:{ destruct frac; [done|]. exact Hnd. }
    assert (see (ch "n") (State (frac_text frac ++ exp_text ex ++ post)
                            (length int + q) w)
            = false) as ->.
    { destruct frac; [done|]. apply Hn. }
    unfold bind. rewrite (fraction_frame _ _ _ Htl) by done.
    rewrite exponent_frame by done. cbn [ret]. rewrite <- app_assoc.
    apply ok_state_at. rewrite !length_app. lia. }
  destruct (digits_cons _ Hint) as (d & ds' & -> & _ & Hd).
  destruct neg; cbn [sign_text app] in *.
  - rewrite parseNumber_signed by done. rewrite Hm.
    apply ok_state_at. cbn [length]. lia.
  - rewrite parseNumber_unsigned by done. apply Hm.
Qed.

Lemma number_literal_value_witness :
  parseNumber (State (js "-12.50e+3,") 7 [])
  = Ok (PNumber (SFmul prec emax minus_one (ToNumber (js "12.50e+3"))),
        State (js ",") 16 []).
Proof.
  apply (number_literal_value true (js "12") (Some (js "50"))
           (Some (ch "e", js "+", js "3")) (js ",") 7 []); reflexivity.
Defined.

Lemma digits1_stops r p w :
  nondigit r = true ->
  digits1 (State r p w) = Throw (SyntaxError (head r) p).
Proof.
  intros H. unfold digits1, error. destruct r as [|c r]; [done|].
  cbn in H. apply negb_true_iff in H. autorewrite with scanner. by rewrite H.
Qed.

(** X8.  A minus sign, a decimal point and an exponent marker with its sign are
    each followed by a digit; when they are not, the syntax error is for the
    character that stands there instead (or for the end of the input). *)
Theorem number_needs_its_digits neg int post p w :
  digits int = true -> nondigit post = true ->
  (see (ch "I") (State post p w) = false ->
   parseNumber (State (ch "-" :: post) p w) = Throw (SyntaxError (head post) (S p)))
  /\ parseNumber (State (sign_text neg ++ int ++ ch "." :: post) p w)
     = Throw (SyntaxError (head post) (length (sign_text neg ++ int) + 1 + p))
  /\ (forall frac e sign,
        tail_ok (TFloat frac None) = true ->
        e ∈ [ch "e"; ch "E"] -> sign ∈ [[]; [ch "-"]; [ch "+"]] ->
        (sign = [] -> see (ch "-") (State post p w) = false
                      /\ see (ch "+") (State post p w) = false) ->
        parseNumber
          (State (sign_text neg ++ int ++ frac_text frac ++ e :: sign ++ post) p w)
        = Throw (SyntaxError (head post)
                   (length (sign_text neg ++ int ++ frac_text frac ++ e :: sign) + p))).
Proof.
  intros Hint Hpost.
  destruct (digits_cons _ Hint) as (d & ds' & -> & Hall & Hd).
  assert (Hsign : forall r,
    parseNumber (State (sign_text neg ++ (d :: ds') ++ r) p w)
    = magnitude neg (State ((d :: ds') ++ r) (length (sign_text neg) + p) w)).
  { intros r. destruct neg; cbn [sign_text app length].
    - by apply parseNumber_signed.
    - by apply parseNumber_unsigned. }
  split; [|split].
  - intros HI. unfold parseNumber. autorewrite with scanner. codes.
    cbn [N.eqb Pos.eqb]. cbv beta iota zeta. autorewrite with scanner.
    assert (see 73 (State post (S p) w) = false) as -> by exact HI.
    unfold magnitude, bind. by rewrite digits1_stops.
  - rewrite Hsign. unfold magnitude. unfold bind at 1.
    rewrite digits1_frame by done. autorewrite with scanner. codes.
    cbn [N.eqb Pos.eqb]. cbv beta iota zeta.
    unfold bind at 1. unfold fraction. autorewrite with scanner.
    cbn [N.eqb Pos.eqb]. cbv beta iota zeta. unfold bind.
    rewrite digits1_stops by done. do 2 f_equal.
    rewrite length_app. cbn [length]. lia.
  - intros frac e sign Hfr He Hs Hnosign. rewrite Hsign.
    assert (Hnd : nondigit (e :: sign ++ post) = true).
    { cbn. apply negb_true_iff.
      repeat (apply elem_of_cons in He as [->|He]); try done.
      by apply elem_of_nil in He. }
    assert (Hdot : see (ch ".") (State (e :: sign ++ post)
                     (length (d :: ds') + (length (sign_text neg) + p)) w) = false
                   /\ see (ch "n") (State (e :: sign ++ post)
                     (length (d :: ds') + (length (sign_text neg) + p)) w) = false).
    { repeat (apply elem_of_cons in He as [->|He]); try done.
      by apply elem_of_nil in He. }
    unfold magnitude. unfold bind at 1.
    rewrite digits1_frame.
    2: done.
    2:{ destruct frac; [done|]. exact Hnd. }
    assert (see (ch "n") (State (frac_text frac ++ e :: sign ++ post)
                            (length (d :: ds') + (length (sign_text neg) + p)) w)
            = false) as ->.
    { destruct frac; [done|]. apply Hdot. }
    unfold bind at 1.
    assert (fraction (d :: ds')
              (State (frac_text frac ++ e :: sign ++ post)
                 (length (d :: ds') + (length (sign_text neg) + p)) w)
            = Ok ((d :: ds') ++ frac_text frac,
                  State (e :: sign ++ post)
                    (length (frac_text frac)
                     + (length (d :: ds') + (length (sign_text neg) + p))) w)) as ->.
    { unfold fraction. cbn [tail_ok] in Hfr. apply andb_prop in Hfr as [Hfr _].
      destruct frac as [fp|]; cbn [frac_text app].
      - autorewrite with scanner. rewrite N.eqb_refl. unfold bind.
        rewrite digits1_frame by done. cbn [ret]. apply ok_state_at. cbn [length]. lia.
      - by rewrite (proj1 Hdot), app_nil_r. }
    unfold bind at 1. unfold exponent. autorewrite with scanner.
    assert (N.eqb e (ch "e") || N.eqb e (ch "E") = true) as ->.
    { repeat (apply elem_of_cons in He as [->|He]); try done.
      by apply elem_of_nil in He. }
    cbv zeta. autorewrite with scanner.
    repeat (apply elem_of_cons in Hs as [->|Hs]); [| | |by apply elem_of_nil in Hs];
      cbn [app].
    + destruct (Hnosign eq_refl) as [Hm Hp].
      destruct post as [|c post].
      * autorewrite with scanner. unfold bind; rewrite digits1_stops by done; do 2 f_equal;
        rewrite !length_app; cbn [length]; rewrite ?length_app; cbn [length]; lia.
      * autorewrite with scanner. rewrite see_cons in Hm, Hp. rewrite Hm, Hp.
        cbn [orb]. unfold bind; rewrite digits1_stops by done; do 2 f_equal;
        rewrite !length_app; cbn [length]; rewrite ?length_app; cbn [length]; lia.
    + autorewrite with scanner. rewrite N.eqb_refl. cbn [orb].
      autorewrite with scanner. unfold bind; rewrite digits1_stops by done; do 2 f_equal;
        rewrite !length_app; cbn [length]; rewrite ?length_app; cbn [length]; lia.
    + autorewrite with scanner. codes. cbn [N.eqb Pos.eqb orb].
      autorewrite with scanner. unfold bind; rewrite digits1_stops by done; do 2 f_equal;
        rewrite !length_app; cbn [length]; rewrite ?length_app; cbn [length]; lia.
Qed.

Lemma number_needs_its_digits_witness :
  parseNumber (State (js "1.,") 0 []) = Throw (SyntaxError (Some (ch ",")) 2).
Proof.
  exact (proj1 (proj2 (number_needs_its_digits false (js "1") (js ",") 0 []
                         eq_refl eq_refl))).
Defined.

(** ** String literals *)

Lemma parseString_loop_escape : forall s fuel acc post p w,
  (length s < fuel)%nat ->
  parseString_loop fuel acc (State (escape s ++ QUOTE :: post) p w)
  = Ok (acc ++ s, State post (length (escape s) + 1 + p) w).
Proof.
  induction s as [|c s IH]; intros fuel acc post p w Hf;
    (destruct fuel as [|n]; [cbn in Hf; lia|]); rewrite parseString_loop_S.
  - cbn [escape flat_map app]. autorewrite with scanner. rewrite N.eqb_refl.
    rewrite app_nil_r. by apply ok_state_at.
  - cbn [length] in Hf. unfold escape. cbn [flat_map]. fold (escape s).
    unfold escape_char.
    destruct (N.eqb_spec c QUOTE) as [->|Hq]; cbn [orb].
    + cbn [app]. autorewrite with scanner. codes. cbn [N.eqb Pos.eqb].
      cbv beta iota zeta. autorewrite with scanner. cbn [N.eqb Pos.eqb].
      cbv beta iota zeta. autorewrite with scanner.
      change (STRING_ESC (Some 34)) with (Some 34). cbv iota.
      rewrite IH by lia. rewrite <- app_assoc.
      cbn [app]. positions.
    + destruct (N.eqb_spec c (ch "\")) as [->|Hb].
      * cbn [app]. autorewrite with scanner. codes. cbn [N.eqb Pos.eqb].
        cbv beta iota zeta. autorewrite with scanner. cbn [N.eqb Pos.eqb].
        cbv beta iota zeta. autorewrite with scanner.
        change (STRING_ESC (Some 92)) with (Some 92). cbv iota.
        rewrite IH by lia. rewrite <- app_assoc.
        cbn [app]. positions.
      * cbn [app]. autorewrite with scanner.
        rewrite (neqb_false _ _ Hq), (neqb_false _ _ Hb). cbn [text].
        rewrite IH by lia. rewrite <- app_assoc.
        cbn [app]. positions.
Qed.

(** X9.  Every string has a literal: between two quotes, with a backslash put
    before each quote and each backslash of the string, [parseString] reads
    the string back and stops behind the closing quote. *)
Theorem every_string_has_a_literal s fuel post p w :
  (length s < fuel)%nat ->
  parseString fuel (State (quoted (escape s) ++ post) p w)
  = Ok (s, State post (length (quoted (escape s)) + p) w).
Proof.
  intros Hf. unfold parseString, quoted. cbn [app]. autorewrite with scanner.
  rewrite <- app_assoc. cbn [app]. rewrite parseString_loop_escape by done.
  positions.
Qed.

Lemma every_string_has_a_literal_witness :
  parseString 5 (State (QUOTE :: js "a\" ++ QUOTE :: js "\\b" ++ QUOTE :: js ",") 0 [])
  = Ok (ch "a" :: QUOTE :: js "\b", State (js ",") 8 []).
Proof.
  apply (every_string_has_a_literal (ch "a" :: QUOTE :: js "\b") 5 (js ",") 0 []).
  cbn. lia.
Defined.

Lemma hex4_value n :
  n < 65536 ->
  ((((0 * 16 + n / 4096) * 16 + n / 256 mod 16) * 16 + n / 16 mod 16) * 16
   + n mod 16) mod 65536 = n.
Proof.
  intros Hn.
  pose proof (N.div_mod n 16 ltac:(lia)) as E1.
  pose proof (N.div_mod (n / 16) 16 ltac:(lia)) as E2.
  rewrite N.Div0.div_div in E2. change (16 * 16) with 256 in E2.
  pose proof (N.div_mod (n / 256) 16 ltac:(lia)) as E3.
  rewrite N.Div0.div_div in E3. change (256 * 16) with 4096 in E3.
  rewrite N.mod_small; lia.
Qed.

Lemma parseInt16_hex_char d : d < 16 -> parseInt16 (Some (hex_char d)) = Some d.
Proof.
  intros H. destruct d as [|q]; [done|].
  do 4 (try destruct q as [q|q|]); try done; lia.
Qed.

(** X10.  A code unit written as a backslash, [u] and its four hexadecimal
    digits is read back as that code unit. *)
Theorem unicode_escape_round_trip n fuel acc post p w :
  n < 65536 ->
  parseString_loop (S fuel) acc (State (ch "\" :: ch "u" :: hex4_text n ++ post) p w)
  = parseString_loop fuel (acc ++ [n]) (State post (6 + p) w).
Proof.
  intros Hn. rewrite parseString_loop_S. autorewrite with scanner. codes.
  cbn [N.eqb Pos.eqb]. cbv beta iota zeta. autorewrite with scanner.
  cbn [N.eqb Pos.eqb]. cbv beta iota zeta. autorewrite with scanner.
  unfold bind, hex4_text. cbn [app hex4]. autorewrite with scanner.
  rewrite parseInt16_hex_char by (apply N.Div0.div_lt_upper_bound; lia).
  autorewrite with scanner.
  rewrite parseInt16_hex_char by (apply N.mod_lt; lia).
  autorewrite with scanner.
  rewrite parseInt16_hex_char by (apply N.mod_lt; lia).
  autorewrite with scanner.
  rewrite parseInt16_hex_char by (apply N.mod_lt; lia).
  autorewrite with scanner. unfold fromCharCode.
  by rewrite hex4_value.
Qed.

Lemma unicode_escape_round_trip_witness :
  parseString_loop 2 [] (State (ch "\" :: ch "u" :: hex4_text 8364 ++ QUOTE :: js ",") 1 [])
  = parseString_loop 1 ([] ++ [8364]) (State (QUOTE :: js ",") (6 + 1) []).
Proof.
  apply (unicode_escape_round_trip 8364 1 [] (QUOTE :: js ",") 1 []). reflexivity.
Defined.

(** X11.  After a backslash only [u] and the keys of [STRING_ESC] are escapes:
    behind a run of plain characters, a backslash followed by anything else,
    or by the end of the input, is a syntax error at what follows the
    backslash. *)
Theorem unknown_escape_is_rejected body post fuel acc p w :
  forallb plain body = true -> (length body < fuel)%nat ->
  see (ch "u") (State post p w) = false -> STRING_ESC (head post) = None ->
  parseString_loop fuel acc (State (body ++ ch "\" :: post) p w)
  = Throw (SyntaxError (head post) (length body + 1 + p)).
Proof.
  revert fuel acc p. induction body as [|c body IH]; intros fuel acc p Hb Hf Hu He;
    (destruct fuel as [|n]; [cbn in Hf; lia|]); rewrite parseString_loop_S.
  - cbn [app]. autorewrite with scanner. codes. cbn [N.eqb Pos.eqb].
    cbv beta iota zeta. autorewrite with scanner.
    assert (see 117 (State post (S p) w) = false) as -> by exact Hu.
    assert (peek (State post (S p) w) = head post) as -> by done.
    by rewrite He.
  - cbn [forallb] in Hb. apply andb_prop in Hb as [Hc Hb].
    unfold plain in Hc. apply andb_prop in Hc as [H1 H2].
    apply negb_true_iff in H1, H2. cbn [length] in Hf.
    cbn [app]. autorewrite with scanner. rewrite H1, H2.
    rewrite IH by (done || lia). do 2 f_equal. cbn [length]. lia.
Qed.

Lemma unknown_escape_is_rejected_witness :
  parseString_loop 3 [] (State (js "ab\/c") 1 [])
  = Throw (SyntaxError (Some (ch "/")) 4).
Proof.
  apply (unknown_escape_is_rejected (js "ab") (js "/c") 3 [] 1 []);
    (reflexivity || (cbn; lia)).
Defined.

(** ** Where no value starts *)

Lemma starts_no_value_parts c :
  starts_no_value c = true ->
  WS_CHARS c = false /\ NUM_CHARS c = false /\ is_letter c = false
  /\ N.eqb c QUOTE = false /\ N.eqb c (ch "$") = false /\ N.eqb c (ch "{") = false
  /\ N.eqb c (ch "[") = false /\ N.eqb c (ch "/") = false /\ N.eqb c (ch "-") = false.
Proof.
  unfold starts_no_value. cbn [existsb js map list_ascii_of_string].
  intros [[[H1 H2]%andb_prop H3]%andb_prop H4]%andb_prop.
  apply negb_true_iff in H1, H2, H3, H4.
  repeat (apply orb_false_elim in H2 as [? H2]). done.
Qed.

(** X12.  Where a value is expected, a character that starts none is a syntax
    error at that character, and so is the character behind an identifier
    that is no keyword and is not followed at once by a brace. *)
Theorem value_expected V M n g r p w :
  gap g = true ->
  (forall c, starts_no_value c = true ->
     parseJson V M (S n) (State (g ++ c :: r) p w)
     = Throw (SyntaxError (Some c) (length g + p)))
  /\ (forall name,
        identifier name = true -> keyword name = None ->
        span is_name_char r = ([], r) -> see (ch "{") (State r p w) = false ->
        parseJson V M (S n) (State (g ++ name ++ r) p w)
        = Throw (SyntaxError (head r) (length g + length name + p))).
Proof.
  intros Hg. split.
  - intros c Hc. destruct (starts_no_value_parts c Hc)
      as (Hw & Hn & Hl & E1 & E2 & E3 & E4 & E5 & E6).
    rewrite parseJson_gap by (done || (cbn; by rewrite Hw)).
    cbn [parseJson]. rewrite white_stop by done. autorewrite with scanner.
    fold QUOTE. rewrite E1, E2, E3, E4, E5, E6, Hn. cbn [orb]. cbv iota.
    unfold parseName. autorewrite with scanner. rewrite Hl. cbn [keyword].
    change (keyword []) with (@None pvalue). cbv iota beta zeta.
    autorewrite with scanner. by rewrite E3.
  - intros name Hname Hk Hr Hb. destruct name as [|c t]; [done|].
    cbn [identifier] in Hname. apply andb_prop in Hname as [Hc Ht].
    pose proof (proj1 (is_letter_bounds _) Hc) as Hbd.
    assert (Hw : WS_CHARS c = false).
    { apply not_true_iff_false. rewrite WS_CHARS_cases. lia. }
    assert (Hn : NUM_CHARS c = false).
    { apply not_true_iff_false. intros ?%NUM_CHARS_bounds. lia. }
    rewrite parseJson_gap by (done || (cbn; by rewrite Hw)).
    cbn [parseJson app]. rewrite white_stop by done.
    autorewrite with scanner. rewrite Hn.
    repeat match goal with
           | |- context [N.eqb c ?k] =>
               replace (N.eqb c k) with false
                 by (symmetry; apply N.eqb_neq; codes; lia)
           end.
    cbn [orb]. cbv iota.
    rewrite parseName_identifier by done. rewrite Hk.
    assert (see (ch "{") (State r (length (c :: t) + (length g + p)) w) = false)
      as -> by exact Hb.
    unfold error, peek. cbn [rest pos]. do 2 f_equal. lia.
Qed.

Lemma value_expected_witness :
  parseJson (fun _ => true) (fun _ => None) 1 (State (js " ]") 3 [])
  = Throw (SyntaxError (Some (ch "]")) 4)
  /\ parseJson (fun _ => true) (fun _ => None) 1 (State (js " True,") 3 [])
     = Throw (SyntaxError (Some (ch ",")) 8).
Proof.
  destruct (value_expected (fun _ => true) (fun _ => None) 0 (js " ") (js ",") 3 []
              eq_refl) as [_ H2].
  destruct (value_expected (fun _ => true) (fun _ => None) 0 (js " ") [] 3 []
              eq_refl) as [H1 _].
  split.
  - exact (H1 (ch "]") eq_refl).
  - exact (H2 (js "True") eq_refl eq_refl eq_refl eq_refl).
Defined.

(** ** What [resolveRef] never does *)










(** ** Arrays that hold themselves *)

Section Cycle.

Variable refs : list value.
Variable l : loc.
Variable i : nat.

Lemma holds_itself_weaken h b : holds_itself refs h l i b -> holds_itself refs h l i false.
Proof.
  intros (es & x & Hl & Hx & [->|(_ & Hp)]); exists es; eexists;
    (split; [done|]); (split; [done|]); [by left|right; by split].
Qed.

Lemma write_lookup_other h l' k v l0 : l0 <> l' -> write h l' k v !! l0 = h !! l0.
Proof.
  intros Hne. unfold write.
  destruct (h !! l') as [[| |es|p fs]|]; try done; destruct k; try done;
    by rewrite list_lookup_insert_ne.
Qed.

Lemma write_lookup_ref h l' k v r x :
  h !! r = Some (CRef x) -> write h l' k v !! r = Some (CRef x).
Proof.
  intros Hr. destruct (decide (r = l')) as [->|Hne].
  - unfold write. by rewrite Hr.
  - by rewrite write_lookup_other.
Qed.

Lemma holds_itself_write_other h b l' k v :
  l' <> l -> holds_itself refs h l i b -> holds_itself refs (write h l' k v) l i b.
Proof.
  intros Hne (es & x & Hl & Hx & Hc). exists es, x.
  rewrite write_lookup_other by done. split; [done|]. split; [done|].
  destruct Hc as [->|(Hb & r & k0 & -> & Hr & Ht)]; [by left|right].
  split; [done|]. exists r, k0. by rewrite (write_lookup_ref _ _ _ _ _ _ Hr).
Qed.

Lemma holds_itself_write_slot h b j v :
  j <> i -> holds_itself refs h l i b ->
  holds_itself refs (write h l (KIndex j) v) l i b.
Proof.
  intros Hne (es & x & Hl & Hx & Hc). exists (<[j := v]> es), x.
  pose proof (lookup_lt_Some _ _ _ Hl) as Hlt.
  unfold write. rewrite Hl. rewrite list_lookup_insert_eq by done.
  split; [done|]. rewrite list_lookup_insert_ne by done. split; [done|].
  destruct Hc as [->|(Hb & r & k0 & -> & Hr & Ht)]; [by left|right].
  split; [done|]. exists r, k0. split; [done|]. split; [|done].
  rewrite list_lookup_insert_ne; [done|]. intros ->. congruence.
Qed.

Lemma holds_itself_write_self h b :
  holds_itself refs h l i b -> holds_itself refs (write h l (KIndex i) (VObj l)) l i true.
Proof.
  intros (es & x & Hl & Hx & Hc). exists (<[i := VObj l]> es), (VObj l).
  pose proof (lookup_lt_Some _ _ _ Hl) as Hlt.
  pose proof (lookup_lt_Some _ _ _ Hx) as Hlt'.
  unfold write. rewrite Hl. rewrite list_lookup_insert_eq by done.
  split; [done|]. rewrite list_lookup_insert_eq by done. split; [done|]. by left.
Qed.

Lemma walk_other n l' :
  kept refs l i n -> l' <> l ->
  forall ks h h' b,
    holds_itself refs h l i b ->
    walk (resolveRef refs n) l' ks h = Ok h' -> holds_itself refs h' l i b.
Proof.
  intros HQ Hne. induction ks as [|k ks IH]; intros h h' b Hi H; cbn in H.
  - by injection H as <-.
  - destruct (resolveRef refs n (read h l' k) h) as [[v h1]| |] eqn:Hv; try discriminate.
    eapply IH; [|exact H]. apply holds_itself_write_other; [done|].
    by eapply HQ.
Qed.

Lemma walk_self n :
  stuck refs l i n -> kept refs l i n ->
  forall indices h h' b,
    holds_itself refs h l i b ->
    walk (resolveRef refs n) l (map KIndex indices) h = Ok h' ->
    holds_itself refs h' l i b
    /\ (i ∈ indices -> b = false /\ holds_itself refs h' l i true).
Proof.
  intros HP HQ. induction indices as [|j indices IH]; intros h h' b Hi H; cbn in H.
  - injection H as <-. split; [done|]. by intros ?%elem_of_nil.
  - destruct (resolveRef refs n (read h l (KIndex j)) h) as [[v h1]| |] eqn:Hv;
      try discriminate.
    pose proof (HQ _ _ _ _ _ Hi Hv) as Hi1.
    destruct (decide (j = i)) as [->|Hne].
    + pose proof Hi as Hi0. destruct Hi as (es & x & Hl & Hx & Hc).
      assert (Hread : read h l (KIndex i) = x) by (unfold read; by rewrite Hl, Hx).
      rewrite Hread in Hv.
      destruct Hc as [->|(-> & r & k0 & -> & Hr & Ht)].
      { exfalso. eapply HP; [|exact Hv].
        exists es, (VObj l). split; [done|]. split; [done|]. by left. }
      destruct n as [|m]; [discriminate|]. rewrite resolveRef_S, Hr in Hv.
      injection Hv as <- <-. rewrite Ht in H.
      apply (IH _ _ true) in H as [H1 _]; [|by eapply holds_itself_write_self].
      split; [by eapply holds_itself_weaken|]. by intros _.
    + apply (IH _ _ b) in H as [H1 H2]; [|by apply holds_itself_write_slot].
      split; [done|]. intros [->|Hin]%elem_of_cons; [done|by apply H2].
Qed.

Lemma stuck_and_kept n : stuck refs l i n /\ kept refs l i n.
Proof.
  induction n as [|n [HP HQ]]; [by split|].
  assert (HP' : stuck refs l i (S n)).
  { intros h res Hi H. rewrite resolveRef_S in H.
    pose proof Hi as (es & x & Hl & Hx & _). rewrite Hl in H.
    destruct (walk (resolveRef refs n) l (map KIndex (seq 0 (length es))) h)
      as [h1| |] eqn:W1; try discriminate.
    destruct (walk_self n HP HQ _ _ _ _ Hi W1) as [_ H1].
    destruct H1 as [_ H1]; [apply elem_of_seq; apply lookup_lt_Some in Hx; lia|].
    pose proof H1 as (es1 & x1 & Hl1 & Hx1 & _). rewrite Hl1 in H. cbn [own_keys] in H.
    destruct (walk (resolveRef refs n) l (map KIndex (seq 0 (length es1))) h1)
      as [h2| |] eqn:W2; try discriminate.
    destruct (walk_self n HP HQ _ _ _ _ H1 W2) as [_ H2].
    destruct H2 as [? _]; [apply elem_of_seq; apply lookup_lt_Some in Hx1; lia|done]. }
  split; [done|].
  intros b v h v' h' Hi H. rewrite resolveRef_S in H.
  destruct v as [| | | | | |l']; try by injection H as <- <-.
  destruct (decide (l' = l)) as [->|Hne].
  { exfalso. eapply HP'; [by eapply holds_itself_weaken|].
    rewrite resolveRef_S. exact H. }
  destruct (h !! l') as [[x|r|es|p fs]|] eqn:Hl'; try by injection H as <- <-.
  - destruct (walk (resolveRef refs n) l' (map KIndex (seq 0 (length es))) h)
      as [h1| |] eqn:W1; try discriminate.
    pose proof (walk_other n l' HQ Hne _ _ _ _ Hi W1) as Hi1.
    destruct (walk (resolveRef refs n) l' _ h1) as [h2| |] eqn:W2; try discriminate.
    injection H as <- <-. by eapply (walk_other n l' HQ Hne).
  - destruct (walk (resolveRef refs n) l' _ h) as [h1| |] eqn:W1; try discriminate.
    injection H as <- <-. by eapply (walk_other n l' HQ Hne).
Qed.

Lemma walk_no_throw n ks :
  (forall v h e, resolveRef refs n v h <> Throw e) ->
  forall l' h e, walk (resolveRef refs n) l' ks h <> Throw e.
Proof.
  intros IH l'. induction ks as [|k ks IHks]; intros h e; cbn; [discriminate|].
  destruct (resolveRef refs n (read h l' k) h) as [[v h1]|e'|] eqn:Hv.
  - apply IHks.
  - by apply IH in Hv.
  - discriminate.
Qed.

Lemma resolveRef_no_throw n : forall v h e, resolveRef refs n v h <> Throw e.
Proof.
  induction n as [|n IH]; intros v h e; [discriminate|]. rewrite resolveRef_S.
  destruct v as [| | | | | |l']; try discriminate.
  destruct (h !! l') as [[x|r|es|p fs]|]; try discriminate.
  - destruct (walk (resolveRef refs n) l' (map KIndex (seq 0 (length es))) h)
      as [h1|e1|] eqn:W1;
      [|by apply (walk_no_throw n _ IH) in W1|discriminate].
    destruct (walk (resolveRef refs n) l' _ h1) as [h2|e2|] eqn:W2;
      [discriminate|by apply (walk_no_throw n _ IH) in W2|discriminate].
  - destruct (walk (resolveRef refs n) l' _ h) as [h1|e1|] eqn:W1;
      [discriminate|by apply (walk_no_throw n _ IH) in W1|discriminate].
Qed.

End Cycle.

(** X16.  An array that holds itself in one of its slots, or a placeholder for
    itself, is never returned by [resolveRef]: the index loop puts the array
    in the slot and the key loop after it walks the array again, at every
    fuel. *)
Theorem array_holding_itself_never_resolves refs h l i fuel :
  holds_itself refs h l i false ->
  resolveRef refs fuel (VObj l) h = OutOfFuel.
Proof.
  intros Hi. destruct (stuck_and_kept refs l i fuel) as [HP _].
  destruct (resolveRef refs fuel (VObj l) h) as [res|e|] eqn:H; [|by apply resolveRef_no_throw in H|done].
  by apply HP in H.
Qed.

Lemma array_holding_itself_never_resolves_witness :
  resolveRef [VObj 1] 9 (VObj 1) [CRef (S754_zero false); CArray [VObj 0]] = OutOfFuel.
Proof.
  apply (array_holding_itself_never_resolves [VObj 1]
           [CRef (S754_zero false); CArray [VObj 0]] 1 0 9).
  exists [VObj 0], (VObj 0). split; [reflexivity|]. split; [reflexivity|].
  right. split; [reflexivity|]. exists 0%nat, (S754_zero false).
  split; [reflexivity|]. split; reflexivity.
Defined.

Lemma loads_all ts : Forall (loads load (fun v => v) ref_free) ts.
Proof. apply Forall_forall. intros t _. apply load_loads. Qed.

Lemma load_each_ref items : forall i x h vs h1,
  items !! i = Some (PRef x) ->
  load_each load items h = (vs, h1) ->
  exists r, vs !! i = Some (VObj r) /\ forall ext, (h1 ++ ext) !! r = Some (CRef x).
Proof.
  induction items as [|t items IH]; intros i x h vs h1 Hi H; [done|].
  cbn in H. destruct (load t h) as [v hm] eqn:Hl.
  destruct (load_each load items hm) as [vs' h2] eqn:Hrest. injection H as <- <-.
  destruct i as [|i]; cbn in Hi.
  - injection Hi as ->. cbn in Hl. injection Hl as <- <-.
    destruct (load_each_loads _ _ _ _ (loads_all items) _ _ _ Hrest) as (new & -> & _).
    exists (length h). split; [done|]. intros ext.
    rewrite <- !app_assoc. by rewrite lookup_app_r, Nat.sub_diag.
  - destruct (IH _ _ _ _ _ Hi Hrest) as (r & Hr & Hx). by exists r.
Qed.

(** X17.  A document whose first statement is an array with [$0] among its
    elements is never returned: at every fuel the call runs out. *)
Theorem array_with_reference_to_itself V fuel code options items more s i x :
  statements V (registry options) fuel (State code 0 []) = Ok (PArray items :: more, s) ->
  pos s = length code ->
  items !! i = Some (PRef x) -> index_of x = Some 0 ->
  deserialize V fuel code options = OutOfFuel.
Proof.
  intros Hst Hp Hi Hx. unfold deserialize. cbv zeta. rewrite Hst, Hp, Nat.eqb_refl.
  cbn [negb]. unfold load_all. cbn [load_each load].
  destruct (load_each load items []) as [vs h0] eqn:Hitems.
  destruct (load_each load more (h0 ++ [CArray vs])) as [ws h2] eqn:Hmore.
  cbn [hd].
  destruct (load_each_loads _ _ _ _ (loads_all more) _ _ _ Hmore) as (new & -> & _).
  destruct (load_each_ref _ _ _ _ _ _ Hi Hitems) as (r & Hr & Hc).
  rewrite (array_holding_itself_never_resolves _ _ (length h0) i); [done|].
  exists vs, (VObj r). split.
  { rewrite <- app_assoc. by rewrite lookup_app_r, Nat.sub_diag. }
  split; [done|]. right. split; [done|]. exists r, x.
  split; [done|]. split; [by rewrite <- app_assoc|].
  unfold refs_at. by rewrite Hx.
Qed.

Lemma array_with_reference_to_itself_witness :
  deserialize (fun _ => true) 9 (js "[1, $0]") (Options None) = OutOfFuel.
Proof.
  apply (array_with_reference_to_itself (fun _ => true) 9 (js "[1, $0]") (Options None)
           [PNumber (ToNumber (js "1")); PRef (S754_zero false)] []
           (State [] 7 []) 1 (S754_zero false)); reflexivity.
Defined.

(** ** Documents without references *)









(** ** The documents of the grammar are accepted *)



























(** ** Regular expressions that are rejected, and class tags *)

(** X13.  A literal whose pattern the engine does not compile throws the
    engine's error for that pattern, and a literal with nothing between its
    slashes is a syntax error at the second slash. *)
Theorem regexp_literal_errors V M fuel body fl options g r p w :
  (body <> [] -> pattern_body body = true -> fl ∈ flag_orders -> V body = false ->
   deserialize V (2 + length body + fuel) (regexp_literal body fl) options
   = Throw (RegExpError body))
  /\ (gap g = true ->
      parseJson V M (S fuel) (State (g ++ ch "/" :: ch "/" :: r) p w)
      = Throw (SyntaxError (Some (ch "/")) (length g + 1 + p))).
Proof.
  split.
  - intros Hne Hb Hfl HV. rewrite deserialize_regexp by done. by rewrite HV.
  - intros Hg. rewrite parseJson_gap by done. rewrite parseJson_at_slash.
    unfold parseRegExp. autorewrite with scanner. cbv zeta.
    autorewrite with scanner. rewrite N.eqb_refl. unfold error.
    autorewrite with scanner. cbn [pos]. do 2 f_equal. lia.
Qed.

Lemma regexp_literal_errors_witness :
  deserialize (fun body => negb (jsstring_eqb body (js "("))) 3 (js "/(/g") (Options None)
  = Throw (RegExpError (js "("))
  /\ parseJson (fun _ => true) (fun _ => None) 1 (State (js " //i") 0 [])
     = Throw (SyntaxError (Some (ch "/")) 2).
Proof.
  destruct (regexp_literal_errors (fun body => negb (jsstring_eqb body (js "(")))
              (fun _ => None) 0 (js "(") (js "g") (Options None) (js " ") (js "i") 0 [])
    as [H1 H2].
  split.
  - apply H1; [discriminate|reflexivity| |reflexivity].
    apply (bool_decide_unpack _). vm_compute. exact I.
  - apply H2. reflexivity.
Defined.



(** ** What replaces a reference *)

(** X21.  When no table entry is itself a placeholder and [resolveRef] returns,
    every slot of every container that could be reached from the value holds
    what [resolveRef] returns for what the slot held: the table entry where
    it held a placeholder, so that two references to one statement share one
    value, and what it held otherwise. *)
Theorem references_are_replaced_by_table_entries refs fuel v h v' h' l c k :
  table_ok refs h ->
  resolveRef refs fuel v h = Ok (v', h') ->
  reachable h v (VObj l) -> h !! l = Some c -> k ∈ own_keys c ->
  resolves_to refs h (read h l k) (read h' l k).
Proof.
  intros Hok H Hr Hc Hk.
  destruct (resolveRef_visits refs fuel _ _ _ _ Hok H) as (He & _ & Hclean).
  pose proof (read_evolves refs _ _ _ _ _ He Hc Hk) as Hs.
  destruct (evolves_lookup refs _ _ _ _ He Hc) as (c' & Hc' & Hcc).
  assert (Hnp : ~ placeholder h' (read h' l k)).
  { apply (Hclean l Hr c' k Hc'). by rewrite (own_keys_evolves refs _ _ _ Hcc). }
  destruct Hs as [E|(r & i & E & Hi & E')].
  - left. split; [done|]. rewrite E in Hnp.
    by rewrite (placeholder_evolves refs _ _ _ He).
  - right. by exists r, i.
Qed.

Lemma references_are_replaced_by_table_entries_witness :
  resolves_to [VObj 2; VObj 3]
    [CRef (ToNumber (js "1")); CRef (ToNumber (js "1"));
     CObject None [(js "a", VObj 0); (js "b", VObj 1)]; CArray []]
    (VObj 1) (VObj 3).
Proof.
  apply (references_are_replaced_by_table_entries [VObj 2; VObj 3] 2 (VObj 2)
           [CRef (ToNumber (js "1")); CRef (ToNumber (js "1"));
            CObject None [(js "a", VObj 0); (js "b", VObj 1)]; CArray []]
           (VObj 2)
           [CRef (ToNumber (js "1")); CRef (ToNumber (js "1"));
            CObject None [(js "a", VObj 3); (js "b", VObj 3)]; CArray []]
           2 (CObject None [(js "a", VObj 0); (js "b", VObj 1)]) (KName (js "b"))).
  - intros i. destruct (refs_at_cases [VObj 2; VObj 3] i) as [->|Hi].
    + by intros (l & j & [=] & _).
    + intros (l & j & E & Hl). rewrite E in Hi.
      repeat (apply elem_of_cons in Hi as [[= ->]|Hi]); try discriminate.
      by apply elem_of_nil in Hi.
  - reflexivity.
  - constructor.
  - reflexivity.
  - cbn. right. left.
Defined.
